(** * Noise generator and wave grid of the portfolio background

    Shallow embedding of [src/js/noise.js] (class [Noise] and the
    [AWaves] custom element) and the properties of its specification.

    Number model.  A JavaScript Number is modelled as an exact rational
    ([Q]): every finite double is a rational, and the arithmetic of the
    source is carried out without rounding.  Decimal literals of the source
    ([0.015], [0.92], ...) stand for the decimal fraction they spell.
    Non-finite values do not exist in [Q]: division is checked ([fdiv]) and
    reports [NonFinite] where a zero divisor would give [Infinity] or [NaN]
    in JavaScript.  The range of the doubles is not modelled: a product or
    a sum that overflows to [Infinity] in the source, or underflows to zero,
    is an ordinary rational here.  The model therefore follows the source
    on inputs whose intermediate values stay finite doubles and whose sign
    does not matter once they underflow: for the constructor of [Noise],
    seeds that are not negative and below [NoiseSpec.overflow / 16807]
    (a negative seed reaches [-0] in the source, where the rational stays
    negative).  Where a statement about the tables would otherwise depend
    on it, the bound is a hypothesis ([NoiseSpec.finite_seed]).
    Integers of the source (table entries, loop counters, grid counts) are
    [Z].  Rationals are compared with [==]
    ([Qeq]); wherever the source merely stores a value the model stores the
    same term, so those facts are stated with [=]. *)

From Stdlib Require Import Bool String Ascii DecimalString.
From Stdlib Require Import ZArith QArith Qround Qminmax Qabs List Permutation.
From Stdlib Require Import Lia Lqa Psatz Qpower.
Import ListNotations.

Local Open Scope Z_scope.
Local Open Scope Q_scope.

(** ** Results of JavaScript code that can throw or leave the model *)

Inductive error : Type :=
| TypeError   (* a property of [undefined] is read: the source throws *)
| NonFinite   (* a division by zero: [Infinity] or [NaN] in the source *)
| Undefined.  (* an array of integers would receive [undefined]: a read
                 outside the array, or a write beyond its end; the source
                 goes on with a table that holds no integer there *)

Inductive res (A : Type) : Type :=
| Ok (a : A)
| Err (e : error).
Arguments Ok {A} a.
Arguments Err {A} e.

Definition bind {A B : Type} (m : res A) (k : A -> res B) : res B :=
  match m with
  | Ok a => k a
  | Err e => Err e
  end.

Declare Scope res_scope.
Delimit Scope res_scope with res.
Notation "x <- m ;; k" := (bind m (fun x => k))
  (at level 61, m at next level, right associativity) : res_scope.
Notation "' p <- m ;; k" := (bind m (fun x => let p := x in k))
  (at level 61, p pattern, m at next level, right associativity) : res_scope.
Local Open Scope res_scope.

Fixpoint mapM {A B : Type} (f : A -> res B) (l : list A) : res (list B) :=
  match l with
  | [] => Ok []
  | a :: l' => b <- f a ;; bs <- mapM f l' ;; Ok (b :: bs)
  end.

(** ** Arithmetic of the source *)

(** [a / b]: the quotient when the divisor is not zero. *)
Definition fdiv (a b : Q) : res Q :=
  if Qeq_bool b 0 then Err NonFinite else Ok (a / b).

(** Rounding toward zero, the integer quotient behind [%]. *)
Definition Qtrunc (x : Q) : Z :=
  if Qle_bool 0 x then Qfloor x else Qceiling x.

(** [a % m] on Numbers: the remainder has the sign of the dividend. *)
Definition js_rem (a m : Q) : res Q :=
  q <- fdiv a m ;; Ok (a - m * inject_Z (Qtrunc q)).

(** [Math.round]: nearest integer, ties toward positive infinity. *)
Definition Math_round (x : Q) : Z := Qfloor (x + (1 # 2)).

Definition Math_floor (x : Q) : Z := Qfloor x.
Definition Math_ceil (x : Q) : Z := Qceiling x.
Definition Math_min (a b : Q) : Q := Qmin a b.
Definition Math_max (a b : Q) : Q := Qmax a b.

(** ** Arrays *)

(** [arr[i]]: [undefined] outside the array. *)
Definition aget {A : Type} (l : list A) (i : Z) : option A :=
  if (i <? 0)%Z then None else nth_error l (Z.to_nat i).

(** Reading an element whose property is read next. *)
Definition aget_def {A : Type} (l : list A) (i : Z) : res A :=
  match aget l i with
  | Some a => Ok a
  | None => Err TypeError
  end.

(** Reading an element that is stored into an array of integers. *)
Definition aget_int (l : list Z) (i : Z) : res Z :=
  match aget l i with
  | Some a => Ok a
  | None => Err Undefined
  end.

Fixpoint set_nth {A : Type} (l : list A) (n : nat) (v : A) : list A :=
  match l, n with
  | [], _ => []
  | _ :: l', O => v :: l'
  | a :: l', S n' => a :: set_nth l' n' v
  end.

(** [arr[i] = v]: overwrites inside the array, appends at its end; a write
    anywhere else would leave holes or a non-index property. *)
Definition aset {A : Type} (l : list A) (i : Z) (v : A) : res (list A) :=
  if (i <? 0)%Z then Err Undefined
  else if (Z.to_nat i <? length l)%nat then Ok (set_nth l (Z.to_nat i) v)
  else if (Z.to_nat i =? length l)%nat then Ok (l ++ [v])
  else Err Undefined.

(** ** class Noise *)

Module Noise.

Record t : Type := mk {
  grad3 : list (Z * Z * Z);
  p : list Z;
  perm : list Z;
  permMod12 : list Z
}.

Definition grad3_table : list (Z * Z * Z) :=
  [ (1,1,0); (-1,1,0); (1,-1,0); (-1,-1,0);
    (1,0,1); (-1,0,1); (1,0,-1); (-1,0,-1);
    (0,1,1); (0,-1,1); (0,1,-1); (0,-1,-1) ]%Z.

(** First loop of the constructor, [i] running from [i] for [n] rounds. *)
Fixpoint fill (n : nat) (i : Z) (p : list Z) (seed : Q) : res (list Z * Q) :=
  match n with
  | O => Ok (p, seed)
  | S n' =>
      p <- aset p i (Math_floor (seed * 256)) ;;
      seed <- js_rem (seed * 16807) 2147483647 ;;
      seed <- fdiv seed 2147483647 ;;
      fill n' (i + 1)%Z p seed
  end.

(** Second loop, [i] running down from [n] while [i > 0]. *)
Fixpoint shuffle (n : nat) (p : list Z) (seed : Q) : res (list Z * Q) :=
  match n with
  | O => Ok (p, seed)
  | S n' =>
      let i := Z.of_nat n in
      seed <- js_rem (seed * 16807) 2147483647 ;;
      r <- fdiv seed 2147483647 ;;
      let j := Math_floor (r * inject_Z (i + 1)) in
      pj <- aget_int p j ;;
      pi <- aget_int p i ;;
      p <- aset p i pj ;;
      p <- aset p j pi ;;
      shuffle n' p seed
  end.

(** Third loop: [perm[i] = p[i & 255]] for [i] in [0 .. 511]. *)
Definition double (p : list Z) : res (list Z) :=
  mapM (fun i => aget_int p (Z.land (Z.of_nat i) 255)) (seq 0 512).

Definition constructor (seed : Q) : res t :=
  ' (p, seed) <- fill 256 0 [] seed ;;
  ' (p, _) <- shuffle 255 p seed ;;
  perm <- double p ;;
  Ok (mk grad3_table p perm (map (fun e => Z.rem e 12) perm)).

Definition dot (g : Z * Z * Z) (x y : Q) : Q :=
  let '(g0, g1, _) := g in inject_Z g0 * x + inject_Z g1 * y.

Definition fade (t : Q) : Q := t * t * t * (t * (t * 6 - 15) + 10).

Definition lerp (t a b : Q) : Q := a + t * (b - a).

(** [this.grad3[this.permMod12[k]]] *)
Definition gradient (n : t) (k : Z) : res (Z * Z * Z) :=
  m <- aget_def (permMod12 n) k ;; aget_def (grad3 n) m.

Definition perlin2 (n : t) (x y : Q) : res Q :=
  let X := Z.land (Math_floor x) 255 in
  let Y := Z.land (Math_floor y) 255 in
  let x := x - inject_Z (Math_floor x) in
  let y := y - inject_Z (Math_floor y) in
  let u := fade x in
  let v := fade y in
  pX <- aget_def (perm n) X ;;
  let A := (pX + Y)%Z in
  pX1 <- aget_def (perm n) (X + 1)%Z ;;
  let B := (pX1 + Y)%Z in
  gA <- gradient n A ;;
  gB <- gradient n B ;;
  gA1 <- gradient n (A + 1)%Z ;;
  gB1 <- gradient n (B + 1)%Z ;;
  Ok (lerp v
        (lerp u (dot gA x y) (dot gB (x - 1) y))
        (lerp u (dot gA1 x (y - 1)) (dot gB1 (x - 1) (y - 1)))).

End Noise.

(** ** Programs that construct and sample generators *)

(** The generator as a program sees it: [new Noise(...)] and calls of
    [perlin2] on the instances, in a page whose [Math.random] the
    constructor may consult. *)
Module Program.

Record world : Type := mk {
  random : nat -> Q;         (* the numbers [Math.random] is going to return *)
  drawn : nat;               (* how many of them it has returned *)
  instances : list Noise.t   (* the instances constructed so far *)
}.

(** Code that reads and writes the world and may throw. *)
Definition M (A : Type) : Type := world -> res (A * world).

Definition ret {A : Type} (a : A) : M A := fun w => Ok (a, w).

Definition bindM {A B : Type} (m : M A) (k : A -> M B) : M B :=
  fun w =>
    match m w with
    | Ok (a, w') => k a w'
    | Err e => Err e
    end.

Definition lift {A : Type} (m : res A) : M A :=
  fun w =>
    match m with
    | Ok a => Ok (a, w)
    | Err e => Err e
    end.

Notation "x <~ m ;; k" := (bindM m (fun x => k))
  (at level 61, m at next level, right associativity).

Definition Math_random : M Q :=
  fun w => Ok (random w (drawn w), mk (random w) (S (drawn w)) (instances w)).

(** [new Noise(seed)], and [new Noise()] for [None]: the default value of
    the parameter, [Math.random()], is evaluated when no seed is passed.
    Until the constructor returns nothing else can reach the object it
    fills, so its body is [Noise.constructor]; the instance is then stored
    under the next handle. *)
Definition new (seed : option Q) : M nat :=
  seed <~ match seed with
          | Some s => ret s
          | None => Math_random
          end ;;
  n <~ lift (Noise.constructor seed) ;;
  fun w =>
    Ok (length (instances w), mk (random w) (drawn w) (instances w ++ [n])).

(** [this], for a method called on the instance behind a handle. *)
Definition this (obj : nat) : M Noise.t :=
  fun w =>
    match nth_error (instances w) obj with
    | Some n => Ok (n, w)
    | None => Err TypeError
    end.

(** [this.perm[k]] *)
Definition this_perm (obj : nat) (k : Z) : M Z :=
  n <~ this obj ;; lift (aget_def (Noise.perm n) k).

(** [this.grad3[this.permMod12[k]]] *)
Definition this_gradient (obj : nat) (k : Z) : M (Z * Z * Z) :=
  n <~ this obj ;; lift (Noise.gradient n k).

(** [obj.perlin2(x, y)], every access to the instance a read of the world
    at the time of the access. *)
Definition perlin2 (obj : nat) (x y : Q) : M Q :=
  let X := Z.land (Math_floor x) 255 in
  let Y := Z.land (Math_floor y) 255 in
  let x := x - inject_Z (Math_floor x) in
  let y := y - inject_Z (Math_floor y) in
  let u := Noise.fade x in
  let v := Noise.fade y in
  pX <~ this_perm obj X ;;
  let A := (pX + Y)%Z in
  pX1 <~ this_perm obj (X + 1)%Z ;;
  let B := (pX1 + Y)%Z in
  gA <~ this_gradient obj A ;;
  gB <~ this_gradient obj B ;;
  gA1 <~ this_gradient obj (A + 1)%Z ;;
  gB1 <~ this_gradient obj (B + 1)%Z ;;
  ret (Noise.lerp v
         (Noise.lerp u (Noise.dot gA x y) (Noise.dot gB (x - 1) y))
         (Noise.lerp u (Noise.dot gA1 x (y - 1))
            (Noise.dot gB1 (x - 1) (y - 1)))).

(** What a program does with the generator. *)
Inductive instr : Type :=
| New (seed : option Q)
| Sample (obj : nat) (x y : Q).

(** One instruction, with the samples it returns. *)
Definition step (i : instr) : M (list Q) :=
  match i with
  | New seed => _ <~ new seed ;; ret []
  | Sample obj x y => v <~ perlin2 obj x y ;; ret [v]
  end.

Fixpoint exec (prog : list instr) : M (list Q) :=
  match prog with
  | [] => ret []
  | i :: prog' =>
      out <~ step i ;; outs <~ exec prog' ;; ret (out ++ outs)
  end.

End Program.

(** ** The records of the wave grid *)

Module Mouse.
Record t : Type := mk {
  x : Q;  y : Q;      (* current position *)
  lx : Q; ly : Q;     (* last position *)
  sx : Q; sy : Q;     (* smoothed position *)
  v : Q;  vs : Q;     (* velocity, smoothed velocity *)
  a : Q;              (* angle of movement *)
  set : bool          (* has the mouse been set *)
}.
End Mouse.

Module Wave.
Record t : Type := mk { x : Q; y : Q }.
End Wave.

Module Cursor.
Record t : Type := mk { x : Q; y : Q; vx : Q; vy : Q }.
End Cursor.

Module Point.
Record t : Type := mk { x : Q; y : Q; wave : Wave.t; cursor : Cursor.t }.
End Point.

Module Coords.
Record t : Type := mk { x : Q; y : Q }.
End Coords.

(** The [DOMRect] that [getBoundingClientRect] returns. *)
Module Rect.
Record t : Type := mk { left : Q; top : Q; width : Q; height : Q }.
End Rect.

(** [Math.cos], [Math.sin], [Math.hypot] and [Math.atan2] are not rational
    functions; the development is parametric in them. *)
Class MathLib : Type := {
  Math_cos : Q -> Q;
  Math_sin : Q -> Q;
  Math_hypot : Q -> Q -> Q;
  Math_atan2 : Q -> Q -> Q
}.

(** ** Number to string *)

Local Open Scope string_scope.

Definition digits (n : N) : string := NilZero.string_of_uint (N.to_uint n).

(** [`${q}`] for the Numbers that [moved] returns, the multiples of one
    tenth (below [1e21] in magnitude): an optional sign, the integer part
    and, unless it is zero, one decimal. *)
Definition Number_toString (q : Q) : string :=
  let n := Qfloor (q * 10) in
  let m := Z.abs_N n in
  (if (n <? 0)%Z then "-" else "")
  ++ digits (m / 10)
  ++ (if (m mod 10 =? 0)%N then "" else "." ++ digits (m mod 10)).

Local Close Scope string_scope.

(** ** class AWaves *)

Module AWaves.

(** The fields of the element that the claims are about.  [paths] holds the
    [d] attribute of each path element, [None] while it was never set.  The
    inline styles and the CSS properties [--x] and [--y] are written but
    never read by the source and are left out; the handle of the pending
    animation frame, which the handlers below never read, is a field of
    [Lifecycle.t]. *)
Record t : Type := mk {
  bounding : Rect.t;
  mouse : Mouse.t;
  lines : list (list Point.t);
  paths : list (option string);
  noise : Noise.t;
  isVisible : bool
}.

Definition with_mouse (st : t) (m : Mouse.t) : t :=
  mk (bounding st) m (lines st) (paths st) (noise st) (isVisible st).

Definition updateMousePosition (x y scrollY : Q) (st : t) : t :=
  let m := mouse st in
  let mx := x - Rect.left (bounding st) in
  let my := y - Rect.top (bounding st) + scrollY in
  let m := Mouse.mk mx my (Mouse.lx m) (Mouse.ly m) (Mouse.sx m) (Mouse.sy m)
             (Mouse.v m) (Mouse.vs m) (Mouse.a m) (Mouse.set m) in
  let m :=
    if negb (Mouse.set m)
    then Mouse.mk (Mouse.x m) (Mouse.y m) (Mouse.x m) (Mouse.y m)
           (Mouse.x m) (Mouse.y m) (Mouse.v m) (Mouse.vs m) (Mouse.a m) true
    else m in
  with_mouse st m.

Definition setSize (r : Rect.t) (st : t) : t :=
  mk r (mouse st) (lines st) (paths st) (noise st) (isVisible st).

(** The values of a counter in [for (let i = 0; i <= total; i++)]. *)
Definition upto (total : Z) : list Z :=
  map Z.of_nat (seq 0 (Z.to_nat (total + 1))).

Definition xGap : Q := 12.
Definition yGap : Q := 36.

Definition new_point (xStart yStart : Q) (i j : Z) : Point.t :=
  Point.mk (xStart + xGap * inject_Z i) (yStart + yGap * inject_Z j)
    (Wave.mk 0 0) (Cursor.mk 0 0 0 0).

Definition setLines (st : t) : res t :=
  let width := Rect.width (bounding st) in
  let height := Rect.height (bounding st) in
  let oWidth := width + 200 in
  let oHeight := height + 60 in
  qw <- fdiv oWidth xGap ;;
  let totalLines := Math_ceil qw in
  qh <- fdiv oHeight yGap ;;
  let totalPoints := Math_ceil qh in
  xStart <- fdiv (width - xGap * inject_Z totalLines) 2 ;;
  yStart <- fdiv (height - yGap * inject_Z totalPoints) 2 ;;
  let lines :=
    map (fun i => map (fun j => new_point xStart yStart i j) (upto totalPoints))
      (upto totalLines) in
  let paths := map (fun _ => None) lines in
  Ok (mk (bounding st) (mouse st) lines paths (noise st) (isVisible st)).

Definition onResize (r : Rect.t) (st : t) : res t := setLines (setSize r st).

Definition onMouseMove (pageX pageY scrollY : Q) (st : t) : t :=
  updateMousePosition pageX pageY scrollY st.

(** [touches] lists the client coordinates of the touch points. *)
Definition onTouchMove (touches : list (Q * Q)) (scrollY : Q) (st : t) : res t :=
  ' (clientX, clientY) <- aget_def touches 0 ;;
  Ok (updateMousePosition clientX clientY scrollY st).

Definition moved (point : Point.t) (withCursorForce : bool) : res Coords.t :=
  let cx := Point.x point + Wave.x (Point.wave point)
            + (if withCursorForce then Cursor.x (Point.cursor point) else 0) in
  let cy := Point.y point + Wave.y (Point.wave point)
            + (if withCursorForce then Cursor.y (Point.cursor point) else 0) in
  rx <- fdiv (inject_Z (Math_round (cx * 10))) 10 ;;
  ry <- fdiv (inject_Z (Math_round (cy * 10))) 10 ;;
  Ok (Coords.mk rx ry).

Definition command (letter : string) (c : Coords.t) : string :=
  (letter ++ " " ++ Number_toString (Coords.x c) ++ " "
   ++ Number_toString (Coords.y c))%string.

(** The body of the inner [forEach] of [drawLines], from index [pIndex]. *)
Fixpoint draw_points (len : Z) (pIndex : Z) (points : list Point.t) (d : string)
  : res string :=
  match points with
  | [] => Ok d
  | point :: rest =>
      let isLast := (pIndex =? len - 1)%Z in
      p1 <- moved point (negb isLast) ;;
      draw_points len (pIndex + 1) rest (d ++ command "L" p1)%string
  end.

(** The [d] attribute of one line. *)
Definition draw_line (points : list Point.t) : res string :=
  p0 <- aget_def points 0 ;;
  p1 <- moved p0 false ;;
  draw_points (Z.of_nat (length points)) 0 points (command "M" p1).

(** [drawLines]: line number [lIndex] writes path number [lIndex]. *)
Fixpoint draw_all (lines : list (list Point.t)) (paths : list (option string))
  : res (list (option string)) :=
  match lines, paths with
  | [], _ => Ok paths
  | points :: lines', path :: paths' =>
      d <- draw_line points ;;
      rest <- draw_all lines' paths' ;;
      Ok (Some d :: rest)
  | _ :: _, [] => Err TypeError
  end.

Definition drawLines (st : t) : res t :=
  paths <- draw_all (lines st) (paths st) ;;
  Ok (mk (bounding st) (mouse st) (lines st) paths (noise st) (isVisible st)).

Section Animation.
Context {M : MathLib}.

(** The influence radius of the cursor. *)
Definition radius (m : Mouse.t) : Q := Math_max 175 (Mouse.vs m).

Definition clamp (c : Q) : Q := Math_min 80 (Math_max (-80) c).

(** The body of the inner [forEach] of [movePoints]. *)
Definition movePoint (time : Q) (m : Mouse.t) (noise : Noise.t) (p : Point.t)
  : res Point.t :=
  n <- Noise.perlin2 noise ((Point.x p + time * 0.015) * 0.002)
                           ((Point.y p + time * 0.008) * 0.002) ;;
  let noiseValue := n * 12 in
  let wave := Wave.mk (Math_cos noiseValue * 28) (Math_sin noiseValue * 14) in
  let c := Point.cursor p in
  let dx := Point.x p - Mouse.sx m in
  let dy := Point.y p - Mouse.sy m in
  let d := Math_hypot dx dy in
  let l := radius m in
  ' (vx, vy) <-
    (if Qlt_le_dec d l then
       q <- fdiv d l ;;
       let s := 1 - q in
       let f := Math_cos (d * 0.001) * s in
       Ok (Cursor.vx c + Math_cos (Mouse.a m) * f * l * Mouse.vs m * 0.0006,
           Cursor.vy c + Math_sin (Mouse.a m) * f * l * Mouse.vs m * 0.0006)
     else Ok (Cursor.vx c, Cursor.vy c)) ;;
  let vx := vx + (0 - Cursor.x c) * 0.004 in
  let vy := vy + (0 - Cursor.y c) * 0.004 in
  let vx := vx * 0.92 in
  let vy := vy * 0.92 in
  let cx := Cursor.x c + vx * 2 in
  let cy := Cursor.y c + vy * 2 in
  Ok (Point.mk (Point.x p) (Point.y p) wave
        (Cursor.mk (clamp cx) (clamp cy) vx vy)).

Definition movePoints (time : Q) (st : t) : res t :=
  lines <- mapM (mapM (movePoint time (mouse st) (noise st))) (lines st) ;;
  Ok (mk (bounding st) (mouse st) lines (paths st) (noise st) (isVisible st)).

(** The part of [tick] that updates the mouse state. *)
Definition track (m : Mouse.t) : Mouse.t :=
  let sx := Mouse.sx m + (Mouse.x m - Mouse.sx m) * 0.08 in
  let sy := Mouse.sy m + (Mouse.y m - Mouse.sy m) * 0.08 in
  let dx := Mouse.x m - Mouse.lx m in
  let dy := Mouse.y m - Mouse.ly m in
  let d := Math_hypot dx dy in
  let vs := Mouse.vs m + (d - Mouse.vs m) * 0.1 in
  let vs := Math_min 100 vs in
  Mouse.mk (Mouse.x m) (Mouse.y m) (Mouse.x m) (Mouse.y m) sx sy d vs
    (Math_atan2 dy dx) (Mouse.set m).

Definition tick (time : Q) (st : t) : res t :=
  if negb (isVisible st) then Ok st
  else
    st <- movePoints time (with_mouse st (track (mouse st))) ;;
    drawLines st.

(** [connectedCallback] for an element that holds its SVG child; [r] is
    what [getBoundingClientRect] returns and [seed] what [Math.random]
    returns. *)
Definition connectedCallback (r : Rect.t) (seed : Q) : res t :=
  let mouse := Mouse.mk (-10) 0 0 0 0 0 0 0 0 false in
  noise <- Noise.constructor seed ;;
  let st := mk r mouse [] [] noise true in
  st <- setLines (setSize r st) ;;
  tick 0 st.

(** What the element reacts to once it is connected. *)
Inductive event : Type :=
| Resize (r : Rect.t)
| MouseMove (pageX pageY scrollY : Q)
| TouchMove (touches : list (Q * Q)) (scrollY : Q)
| VisibilityChange (hidden : bool)
| Frame (time : Q).

Definition step (e : event) (st : t) : res t :=
  match e with
  | Resize r => onResize r st
  | MouseMove pageX pageY scrollY => Ok (onMouseMove pageX pageY scrollY st)
  | TouchMove touches scrollY => onTouchMove touches scrollY st
  | VisibilityChange hidden =>
      Ok (mk (bounding st) (mouse st) (lines st) (paths st) (noise st)
            (negb hidden))
  | Frame time => tick time st
  end.

Fixpoint run (evs : list event) (st : t) : res t :=
  match evs with
  | [] => Ok st
  | e :: evs' => st <- step e st ;; run evs' st
  end.

End Animation.

End AWaves.

(** ** The element in the page

    [bindEvents], [disconnectedCallback] and the rescheduling in [tick] act
    on the page: the listener lists of the window, the document and the
    element, and the list of requested animation frames.  The page is
    modelled with what these functions use of it: [addEventListener]
    ignores a listener that is already registered for the same target and
    type, [removeEventListener] removes the listener it is given when it is
    registered, [requestAnimationFrame] returns a fresh handle, which is
    never 0, and [cancelAnimationFrame] drops the request with that handle.
    Function objects are told apart by a number: every [bind] and every
    evaluation of the arrow function gives a new one. *)

Module Lifecycle.

Inductive target : Type := Window | Document | Element.

Inductive event_type : Type := resize | mousemove | touchmove | visibilitychange.

Inductive method : Type := OnResize | OnMouseMove | OnTouchMove.

Inductive fn : Type :=
| Method (m : method)            (* the method of the class *)
| Bound (m : method) (id : nat)  (* [method.bind(this)] *)
| Arrow (id : nat).              (* the arrow function of [bindEvents] *)

Definition listener : Type := (target * event_type * fn)%type.

Definition listener_eq_dec (a b : listener) : {a = b} + {a <> b}.
Proof. repeat decide equality. Defined.

(** The element, with the properties that the lifecycle reads, and the
    page around it.  [fields] holds the properties that
    [AWaves.connectedCallback] sets, [None] as long as it has set none;
    [animationFrame] is [None] while the property is undefined or null. *)
Record t : Type := mk {
  fields : option AWaves.t;
  animationFrame : option nat;
  onResize : fn;
  onMouseMove : fn;
  onTouchMove : fn;
  listeners : list listener;
  frames : list nat;
  fresh : nat
}.

(** A new element in a page that knows nothing of it. *)
Definition initial : t :=
  mk None None (Method OnResize) (Method OnMouseMove) (Method OnTouchMove) [] [] 1.

Definition addEventListener (l : listener) (w : t) : t :=
  if in_dec listener_eq_dec l (listeners w) then w
  else mk (fields w) (animationFrame w) (onResize w) (onMouseMove w)
         (onTouchMove w) (listeners w ++ [l]) (frames w) (fresh w).

Definition removeEventListener (l : listener) (w : t) : t :=
  mk (fields w) (animationFrame w) (onResize w) (onMouseMove w)
    (onTouchMove w) (remove listener_eq_dec l (listeners w)) (frames w) (fresh w).

Definition requestAnimationFrame (w : t) : nat * t :=
  (fresh w,
   mk (fields w) (animationFrame w) (onResize w) (onMouseMove w)
     (onTouchMove w) (listeners w) (frames w ++ [fresh w]) (S (fresh w))).

Definition cancelAnimationFrame (handle : nat) (w : t) : t :=
  mk (fields w) (animationFrame w) (onResize w) (onMouseMove w)
    (onTouchMove w) (listeners w) (remove Nat.eq_dec handle (frames w)) (fresh w).

Definition bindEvents (w : t) : t :=
  let f1 := Bound OnResize (fresh w) in
  let f2 := Bound OnMouseMove (S (fresh w)) in
  let f3 := Bound OnTouchMove (S (S (fresh w))) in
  let arrow := Arrow (S (S (S (fresh w)))) in
  let w := mk (fields w) (animationFrame w) f1 f2 f3 (listeners w) (frames w)
             (S (S (S (S (fresh w))))) in
  let w := addEventListener (Window, resize, onResize w) w in
  let w := addEventListener (Window, mousemove, onMouseMove w) w in
  let w := addEventListener (Element, touchmove, onTouchMove w) w in
  addEventListener (Document, visibilitychange, arrow) w.

Definition disconnectedCallback (w : t) : t :=
  let w :=
    match animationFrame w with
    | Some handle =>
        if (handle =? 0)%nat then w else cancelAnimationFrame handle w
    | None => w
    end in
  let w := removeEventListener (Window, resize, onResize w) w in
  let w := removeEventListener (Window, mousemove, onMouseMove w) w in
  removeEventListener (Element, touchmove, onTouchMove w) w.

(** What the page does to the element. *)
Inductive input : Type :=
| Connect (svg : bool) (r : Rect.t) (seed : Q)
| Disconnect
| AnimationFrame (time : Q)
| WindowResize (r : Rect.t)
| WindowMouseMove (pageX pageY scrollY : Q)
| ElementTouchMove (touches : list (Q * Q)) (scrollY : Q)
| DocumentVisibilityChange (hidden : bool).

(** The listeners that an input reaches. *)
Definition reached (i : input) (l : listener) : bool :=
  match i, l with
  | WindowResize _, (Window, resize, _) => true
  | WindowMouseMove _ _ _, (Window, mousemove, _) => true
  | ElementTouchMove _ _, (Element, touchmove, _) => true
  | DocumentVisibilityChange _, (Document, visibilitychange, _) => true
  | _, _ => false
  end.

(** Calling a listener.  A method that was not bound has no element to
    work on; a listener never sits on an event type other than its own. *)
Definition call (f : fn) (i : input) (st : AWaves.t) : res AWaves.t :=
  match f, i with
  | Bound OnResize _, WindowResize r => AWaves.onResize r st
  | Bound OnMouseMove _, WindowMouseMove pageX pageY scrollY =>
      Ok (AWaves.onMouseMove pageX pageY scrollY st)
  | Bound OnTouchMove _, ElementTouchMove touches scrollY =>
      AWaves.onTouchMove touches scrollY st
  | Arrow _, DocumentVisibilityChange hidden =>
      Ok (AWaves.mk (AWaves.bounding st) (AWaves.mouse st) (AWaves.lines st)
            (AWaves.paths st) (AWaves.noise st) (negb hidden))
  | _, _ => Err TypeError
  end.

Fixpoint dispatch (ls : list listener) (i : input) (st : AWaves.t)
  : res AWaves.t :=
  match ls with
  | [] => Ok st
  | l :: ls' =>
      if reached i l then st <- call (snd l) i st ;; dispatch ls' i st
      else dispatch ls' i st
  end.

Definition with_fields (w : t) (st : AWaves.t) : t :=
  mk (Some st) (animationFrame w) (onResize w) (onMouseMove w) (onTouchMove w)
    (listeners w) (frames w) (fresh w).

Section Animation.
Context {M : MathLib}.

(** [tick] with its rescheduling.  As long as [connectedCallback] has set
    no field, [isVisible] is undefined, which [tick] takes for hidden. *)
Definition tick (time : Q) (w : t) : res t :=
  match fields w with
  | None =>
      let '(handle, w) := requestAnimationFrame w in
      Ok (mk None (Some handle) (onResize w) (onMouseMove w)
            (onTouchMove w) (listeners w) (frames w) (fresh w))
  | Some st =>
      st <- AWaves.tick time st ;;
      let '(handle, w) := requestAnimationFrame w in
      Ok (mk (Some st) (Some handle) (onResize w) (onMouseMove w)
            (onTouchMove w) (listeners w) (frames w) (fresh w))
  end.

Definition connectedCallback (svg : bool) (r : Rect.t) (seed : Q) (w : t)
  : res t :=
  if negb svg then Ok w
  else
    let mouse := Mouse.mk (-10) 0 0 0 0 0 0 0 0 false in
    noise <- Noise.constructor seed ;;
    let st := AWaves.mk r mouse [] [] noise true in
    st <- AWaves.setLines (AWaves.setSize r st) ;;
    let w := mk (Some st) None (onResize w) (onMouseMove w) (onTouchMove w)
               (listeners w) (frames w) (fresh w) in
    tick 0 (bindEvents w).

Definition step (i : input) (w : t) : res t :=
  match i with
  | Connect svg r seed => connectedCallback svg r seed w
  | Disconnect => Ok (disconnectedCallback w)
  | AnimationFrame time =>
      match frames w with
      | [] => Ok w
      | handle :: rest =>
          tick time (mk (fields w) (animationFrame w) (onResize w)
                       (onMouseMove w) (onTouchMove w) (listeners w) rest
                       (fresh w))
      end
  | _ =>
      match fields w with
      | None => Ok w   (* [bindEvents] runs after the fields are set: no
                          listener of the element is registered before *)
      | Some st => st <- dispatch (listeners w) i st ;; Ok (with_fields w st)
      end
  end.

Fixpoint run (inputs : list input) (w : t) : res t :=
  match inputs with
  | [] => Ok w
  | i :: inputs' => w <- step i w ;; run inputs' w
  end.

End Animation.

End Lifecycle.

(** * Definitions used to state the properties *)

(** ** Agreement of results *)

(** Two results agree: the same error, or values related by [R]. *)
Definition res_eq {A : Type} (R : A -> A -> Prop) (m1 m2 : res A) : Prop :=
  match m1, m2 with
  | Ok a, Ok b => R a b
  | Err e1, Err e2 => e1 = e2
  | _, _ => False
  end.

(** Two calls of [perlin2], in the worlds [w1] and [w2], end alike: both
    return, equal samples, each leaving its world as it was, or both throw
    the same error. *)
Definition same_outcome (r1 r2 : res (Q * Program.world))
  (w1 w2 : Program.world) : Prop :=
  match r1, r2 with
  | Ok (v1, u1), Ok (v2, u2) => v1 == v2 /\ u1 = w1 /\ u2 = w2
  | Err e1, Err e2 => e1 = e2
  | _, _ => False
  end.

(** The state of the constructor's loops: the same array, equal seeds. *)
Definition same_loop (s1 s2 : list Z * Q) : Prop :=
  fst s1 = fst s2 /\ snd s1 == snd s2.

(** ** The tables of the generator *)

Module NoiseSpec.
Import Noise.

Definition pow2 (k : nat) : Q := inject_Z (2 ^ Z.of_nat k).

(** The seed after [k] rounds of the first loop is at most [2^(-16 k)]. *)
Definition small (k : nat) (seed : Q) : Prop :=
  0 <= seed /\ seed * pow2 (16 * k) <= 1.

(** The seed with [i] rounds of the second loop to go is at most
    [2^(-15 i)]. *)
Definition tiny (i : nat) (seed : Q) : Prop :=
  0 <= seed /\ seed * pow2 (15 * i) <= 1.

(** The second loop with the index [j] fixed to 0, which is what the
    seed left by the first loop makes it. *)
Fixpoint shuffle0 (n : nat) (p : list Z) : res (list Z) :=
  match n with
  | O => Ok p
  | S n' =>
      let i := Z.of_nat n in
      pj <- aget_int p 0 ;;
      pi <- aget_int p i ;;
      p <- aset p i pj ;;
      p <- aset p 0 pi ;;
      shuffle0 n' p
  end.

(** What the three loops leave for a seed [s0 = floor (256 seed)]. *)
Definition base_table (s0 : Z) : list Z := repeat 0%Z 255 ++ [s0].

(** A gradient of the table has its first two components in [-1, 1]. *)
Definition unit_grad (g : Z * Z * Z) : Prop :=
  let '(g0, g1, _) := g in (-1 <= g0 <= 1)%Z /\ (-1 <= g1 <= 1)%Z.

(** What [perlin2] needs of the tables. *)
Record wf (n : t) : Prop := {
  wf_grad3 : grad3 n = grad3_table;
  wf_perm_len : length (perm n) = 512%nat;
  wf_perm : Forall (fun e => 0 <= e <= 255)%Z (perm n);
  wf_mod_len : length (permMod12 n) = 512%nat;
  wf_mod : Forall (fun m => 0 <= m <= 11)%Z (permMod12 n)
}.

(** The table of a seed that is not negative: [a = floor (256 seed)] at
    index 255, a value [b] of [0, 255] at index 0, zero elsewhere. *)
Definition wide_table (a b : Z) : list Z := b :: repeat 0%Z 254 ++ [a].

(** Where the doubles end: a product below this bound is rounded to a
    finite double, a product from it on to [Infinity]. *)
Definition overflow : Q := inject_Z (2 ^ 1024 - 2 ^ 970).

(** The seeds on which the constructor stays within the finite doubles: its
    largest intermediate value is [seed * 16807], in the first round. *)
Definition finite_seed (seed : Q) : Prop :=
  0 <= seed /\ seed * 16807 < overflow.

End NoiseSpec.

(** ** The grid *)

Module GridSpec.
Import AWaves.

(** The grid that [setLines] builds for a bounding box. *)
Definition totalLines (r : Rect.t) : Z :=
  Math_ceil ((Rect.width r + 200) / 12).

Definition totalPoints (r : Rect.t) : Z :=
  Math_ceil ((Rect.height r + 60) / 36).

Definition xStart (r : Rect.t) : Q :=
  (Rect.width r - xGap * inject_Z (totalLines r)) / 2.

Definition yStart (r : Rect.t) : Q :=
  (Rect.height r - yGap * inject_Z (totalPoints r)) / 2.

Definition grid (r : Rect.t) : list (list Point.t) :=
  map (fun i => map (fun j => new_point (xStart r) (yStart r) i j)
                  (upto (totalPoints r)))
    (upto (totalLines r)).

End GridSpec.

(** ** The rendered path *)

Module PathSpec.
Import AWaves.
Local Open Scope string_scope.

(** The position [moved] returns. *)
Definition final (point : Point.t) (withCursorForce : bool) : Coords.t :=
  let cx := Point.x point + Wave.x (Point.wave point)
            + (if withCursorForce then Cursor.x (Point.cursor point) else 0) in
  let cy := Point.y point + Wave.y (Point.wave point)
            + (if withCursorForce then Cursor.y (Point.cursor point) else 0) in
  Coords.mk (inject_Z (Math_round (cx * 10)) / 10)
            (inject_Z (Math_round (cy * 10)) / 10).

(** The final positions of the points of a line: the cursor offset is
    applied to every point but the last. *)
Fixpoint finals (points : list Point.t) : list Coords.t :=
  match points with
  | [] => []
  | [point] => [final point false]
  | point :: rest => final point true :: finals rest
  end.

Definition join (l : list string) : string := fold_right append "" l.

(** The path of the specification: a move-to at the first point's final
    position, then one line-to for each subsequent point. *)
Definition spec_path (points : list Point.t) : string :=
  match finals points with
  | [] => ""
  | c :: cs => command "M" c ++ join (map (command "L") cs)
  end.

(** [r] is [c] rounded to one decimal place. *)
Definition rounded (c r : Q) : Prop :=
  exists k : Z, r == inject_Z k / 10 /\ c - (1 # 20) < r /\ r <= c + (1 # 20).

End PathSpec.

(** ** The running element *)

Module RunSpec.
Import AWaves.

Definition clamped (p : Point.t) : Prop :=
  (-80 <= Cursor.x (Point.cursor p) /\ Cursor.x (Point.cursor p) <= 80)
  /\ (-80 <= Cursor.y (Point.cursor p) /\ Cursor.y (Point.cursor p) <= 80).

(** A [DOMRect] of an element has no negative extent. *)
Definition good_rect (r : Rect.t) : Prop :=
  0 <= Rect.width r /\ 0 <= Rect.height r.

(** A touch event names at least one touch point. *)
Definition good_event (e : event) : Prop :=
  match e with
  | Resize r => good_rect r
  | TouchMove touches _ => touches <> []
  | _ => True
  end.

Definition pointer_event (e : event) : Prop :=
  match e with
  | MouseMove _ _ _ | TouchMove _ _ => True
  | _ => False
  end.

(** What holds of every state the element reaches, whatever it is fed. *)
Record safe (st : t) : Prop := {
  safe_clamped : Forall (Forall clamped) (lines st);
  safe_vs : Mouse.vs (mouse st) <= 100
}.

(** What keeps the handlers from throwing. *)
Record live (st : t) : Prop := {
  live_noise : NoiseSpec.wf (noise st);
  live_paths : length (paths st) = length (lines st);
  live_lines : Forall (fun points => points <> []) (lines st)
}.

End RunSpec.

(** ** Further notions about the running element *)

Module MoreSpec.
Import AWaves.

(** The base positions of the points, line by line. *)
Definition base (st : t) : list (list (Q * Q)) :=
  map (map (fun p => (Point.x p, Point.y p))) (lines st).

Definition resize_event (e : event) : Prop :=
  match e with
  | Resize _ => True
  | _ => False
  end.

(** What an event leaves in [isVisible]. *)
Definition visible_next (visible : bool) (e : event) : bool :=
  match e with
  | VisibilityChange hidden => negb hidden
  | _ => visible
  end.

(** Whether the page is visible after the events of a connected element:
    what the last visibility change said, and [true], the value that
    [connectedCallback] sets, when there was none. *)
Definition visible_after (evs : list event) : bool :=
  fold_left visible_next evs true.

(** All four components of a cursor state are zero. *)
Definition at_rest (c : Cursor.t) : Prop :=
  Cursor.x c == 0 /\ Cursor.y c == 0 /\ Cursor.vx c == 0 /\ Cursor.vy c == 0.

(** The functions of the [Math] object stay within their range. *)
Definition bounded_math (M : MathLib) : Prop :=
  (forall a, -1 <= Math_cos a /\ Math_cos a <= 1)
  /\ (forall a, -1 <= Math_sin a /\ Math_sin a <= 1).

(** The state after [hidden] was written to [isVisible]. *)
Definition with_visible (st : t) (visible : bool) : t :=
  mk (bounding st) (mouse st) (lines st) (paths st) (noise st) visible.

End MoreSpec.

(** ** The element in the page *)

Module LifecycleSpec.
Import Lifecycle.

(** A listener for [visibilitychange] on the document. *)
Definition doc_listener (l : listener) : Prop :=
  exists id, l = (Document, visibilitychange, Arrow id).

(** The numbers of the function objects in use are below [n]. *)
Definition ids_below (n : nat) (l : listener) : Prop :=
  match l with
  | (_, _, Bound _ id) | (_, _, Arrow id) => (id < n)%nat
  | (_, _, Method _) => True
  end.

(** The page holds nothing of the element but [visibilitychange]
    listeners: the element was never connected, or it was disconnected. *)
Record detached (w : t) : Prop := {
  detached_frames : frames w = [];
  detached_docs : Forall doc_listener (listeners w);
  detached_ids : Forall (ids_below (fresh w)) (listeners w);
  detached_fresh : (0 < fresh w)%nat
}.

(** The four listeners that [bindEvents] registers when the next free
    number is [k]. *)
Definition bound_listeners (k : nat) : list listener :=
  [ (Window, resize, Bound OnResize k);
    (Window, mousemove, Bound OnMouseMove (S k));
    (Element, touchmove, Bound OnTouchMove (S (S k)));
    (Document, visibilitychange, Arrow (S (S (S k)))) ].

(** The element is connected and running, on top of the listeners [docs]
    that earlier connections left behind. *)
Record attached (docs : list listener) (st : AWaves.t) (w : t) : Prop := {
  attached_fields : fields w = Some st;
  attached_frame : exists handle,
    animationFrame w = Some handle /\ frames w = [handle]
    /\ (0 < handle < fresh w)%nat;
  attached_listeners : exists k,
    onResize w = Bound OnResize k /\ onMouseMove w = Bound OnMouseMove (S k)
    /\ onTouchMove w = Bound OnTouchMove (S (S k))
    /\ listeners w = docs ++ bound_listeners k
    /\ (S (S (S k)) < fresh w)%nat;
  attached_docs : Forall doc_listener docs;
  attached_ids : Forall (ids_below (fresh w)) docs
}.

(** How the page delivers an event of the element. *)
Definition input_of (e : AWaves.event) : input :=
  match e with
  | AWaves.Resize r => WindowResize r
  | AWaves.MouseMove pageX pageY scrollY => WindowMouseMove pageX pageY scrollY
  | AWaves.TouchMove touches scrollY => ElementTouchMove touches scrollY
  | AWaves.VisibilityChange hidden => DocumentVisibilityChange hidden
  | AWaves.Frame time => AnimationFrame time
  end.

(** The inputs that reach no code of a disconnected element. *)
Definition quiet (i : input) : Prop :=
  match i with
  | Connect _ _ _ | DocumentVisibilityChange _ => False
  | _ => True
  end.

(** An input other than the connection of an element with a [.js-svg]
    child. *)
Definition no_svg (i : input) : Prop :=
  match i with
  | Connect true _ _ => False
  | _ => True
  end.

(** An element that has set no field, in a page that holds nothing of it. *)
Record inert (w : t) : Prop := {
  inert_fields : fields w = None;
  inert_listeners : listeners w = [];
  inert_frames : frames w = []
}.

(** The element is connected and disconnected [n] times. *)
Definition visits (n : nat) (r : Rect.t) (seed : Q) : list input :=
  concat (repeat [Connect true r seed; Disconnect] n).

End LifecycleSpec.

(** ** Sample inputs *)

(** The generator for seed 0. *)
Definition noise0 : Noise.t :=
  let table := NoiseSpec.base_table 0 ++ NoiseSpec.base_table 0 in
  Noise.mk Noise.grad3_table (NoiseSpec.base_table 0) table
    (map (fun e => Z.rem e 12) table).

(** Two pages: a new one whose [Math.random] returns 0, and one that has
    an instance and has drawn three numbers. *)
Definition page0 : Program.world := Program.mk (fun _ => 0) 0 [].
Definition page1 : Program.world := Program.mk (fun _ => 1 # 2) 3 [noise0].

(** What a program does after it constructed an instance, and the samples
    it gets. *)
Definition prog0 : list Program.instr :=
  [ Program.Sample 0 (1 # 2) (1 # 3); Program.New None;
    Program.Sample 1 (5 # 2) 7; Program.Sample 0 (1 # 2) (1 # 3) ].
Definition prog1 : list Program.instr :=
  [ Program.Sample 0 1 1; Program.Sample 1 (1 # 2) (1 # 3) ].

Definition samples0 : list Q :=
  Eval vm_compute in
    match Program.exec prog0 (Program.mk (fun _ => 0) 0 [noise0]) with
    | Ok (outs, _) => outs
    | Err _ => []
    end.
Definition samples1 : list Q :=
  Eval vm_compute in
    match Program.exec prog1 (Program.mk (fun _ => 1 # 2) 3 [noise0; noise0])
    with
    | Ok (outs, _) => outs
    | Err _ => []
    end.

(** The element as [connectedCallback] has it when it calls [setLines], for
    seed 0 and bounding box [r]. *)
Definition blank (r : Rect.t) : AWaves.t :=
  AWaves.mk r (Mouse.mk (-10) 0 0 0 0 0 0 0 0 false) [] [] noise0 true.

(** A stand-in for the four [Math] functions, to run the model on concrete
    inputs: cosine and sine as at angle 0, the taxicab norm for [hypot],
    [atan2] as for a movement along the positive x axis.  No theorem
    depends on it. *)
Definition coarse_math : MathLib :=
  {| Math_cos := fun _ => 1;
     Math_sin := fun _ => 0;
     Math_hypot := fun a b => Qabs a + Qabs b;
     Math_atan2 := fun _ _ => 0 |}.

(** * Proofs *)

(** ** The primitives on sample inputs *)

Example js_rem_sign : js_rem (-7) 3 = Ok (-1) /\ js_rem 7 3 = Ok 1.
Proof. split; reflexivity. Qed.

Example Math_round_ties :
  Math_round (5 # 2) = 3%Z /\ Math_round (-5 # 2) = (-2)%Z
  /\ Math_round (-4 # 10) = 0%Z.
Proof. repeat split. Qed.

Example land_negative : Z.land (-1) 255 = 255%Z /\ Z.land 256 255 = 0%Z.
Proof. split; reflexivity. Qed.

Example Number_toString_samples :
  Number_toString (-5 # 10) = "-0.5"%string
  /\ Number_toString 12 = "12"%string
  /\ Number_toString (-1234 # 10) = "-123.4"%string
  /\ Number_toString 0 = "0"%string.
Proof. repeat split. Qed.

Example aset_samples :
  aset [1; 2; 3]%Z 1 9%Z = Ok [1; 9; 3]%Z
  /\ aset [1; 2; 3]%Z 3 9%Z = Ok [1; 2; 3; 9]%Z
  /\ aset [1; 2; 3]%Z 4 9%Z = Err Undefined.
Proof. repeat split. Qed.

Example upto_samples :
  AWaves.upto 3 = [0; 1; 2; 3]%Z /\ AWaves.upto 0 = [0%Z]
  /\ AWaves.upto (-1) = [].
Proof. repeat split. Qed.

Example perlin2_sample :
  res_eq Qeq (Noise.perlin2 noise0 (1 # 4) (1025 # 4)) (Ok (75 # 256)).
Proof. vm_compute. reflexivity. Qed.

(** ** Basic facts about the arithmetic *)

Lemma bind_Ok {A B} (m : res A) (k : A -> res B) a : m = Ok a -> bind m k = k a.
Proof. intros ->. reflexivity. Qed.

Lemma bind_inv {A B} (m : res A) (k : A -> res B) b :
  bind m k = Ok b -> exists a, m = Ok a /\ k a = Ok b.
Proof. destruct m as [a|e]; simpl; [eauto | discriminate]. Qed.

Lemma fdiv_Ok a b : Qeq_bool b 0 = false -> fdiv a b = Ok (a / b).
Proof. unfold fdiv. intros ->. reflexivity. Qed.

Lemma fdiv_nonzero a b : ~ b == 0 -> fdiv a b = Ok (a / b).
Proof.
  intros H. apply fdiv_Ok. destruct (Qeq_bool b 0) eqn:E; [|reflexivity].
  apply Qeq_bool_iff in E. contradiction.
Qed.

Lemma Qfloor_unique (x : Q) (z : Z) :
  inject_Z z <= x -> x < inject_Z (z + 1) -> Qfloor x = z.
Proof.
  intros Hlo Hhi.
  pose proof (Qfloor_le x) as H1. pose proof (Qlt_floor x) as H2.
  assert (Qfloor x < z + 1)%Z.
  { rewrite Zlt_Qlt. eapply Qle_lt_trans; eassumption. }
  assert (z < Qfloor x + 1)%Z.
  { rewrite Zlt_Qlt. eapply Qle_lt_trans; eassumption. }
  lia.
Qed.

Lemma Qfloor_unit (x : Q) : 0 <= x -> x < 1 -> Qfloor x = 0%Z.
Proof. intros. apply Qfloor_unique; assumption. Qed.

Lemma Qtrunc_unit (x : Q) : 0 <= x -> x < 1 -> Qtrunc x = 0%Z.
Proof.
  intros H0 H1. unfold Qtrunc.
  destruct (Qle_bool 0 x) eqn:E.
  - apply Qfloor_unit; assumption.
  - apply Qle_bool_iff in H0. congruence.
Qed.

(** Below the modulus [%] changes nothing. *)
Lemma js_rem_small (a m : Q) :
  0 <= a -> a < m -> exists r, js_rem a m = Ok r /\ r == a.
Proof.
  intros H0 H1. unfold js_rem.
  assert (Hm : 0 < m) by lra.
  rewrite fdiv_nonzero by lra. simpl.
  eexists. split; [reflexivity|].
  rewrite Qtrunc_unit.
  - ring.
  - apply Qle_shift_div_l; lra.
  - apply Qlt_shift_div_r; lra.
Qed.

(** ** The table the constructor builds *)

Module NoiseFacts.
Import Noise NoiseSpec.

Lemma pow2_pos k : 1 <= pow2 k.
Proof.
  unfold pow2. change 1 with (inject_Z 1). rewrite <- Zle_Qle.
  assert (0 < 2 ^ Z.of_nat k)%Z by (apply Z.pow_pos_nonneg; lia). lia.
Qed.

Lemma pow2_add a b : pow2 (a + b) == pow2 a * pow2 b.
Proof.
  unfold pow2. rewrite Nat2Z.inj_add, Z.pow_add_r by lia.
  rewrite inject_Z_mult. reflexivity.
Qed.

Lemma pow2_le a b : (a <= b)%nat -> pow2 a <= pow2 b.
Proof.
  intros H. unfold pow2. rewrite <- Zle_Qle.
  apply Z.pow_le_mono_r; lia.
Qed.

Lemma small_lt_1 k seed : small k seed -> seed <= 1.
Proof.
  intros [H0 H1]. pose proof (pow2_pos (16 * k)). nra.
Qed.

Lemma next_seed (seed : Q) :
  0 <= seed -> seed <= 1 ->
  exists s', (s <- js_rem (seed * 16807) 2147483647 ;; fdiv s 2147483647) = Ok s'
             /\ s' == seed * 16807 / 2147483647.
Proof.
  intros H0 H1.
  destruct (js_rem_small (seed * 16807) 2147483647) as (r & Hr & Hr'); [lra|lra|].
  rewrite Hr. simpl. rewrite fdiv_Ok by reflexivity.
  eexists. split; [reflexivity|]. rewrite Hr'. reflexivity.
Qed.

Lemma next_seed_small k seed s' :
  small k seed -> s' == seed * 16807 / 2147483647 -> small (S k) s'.
Proof.
  intros [H0 H1] E. unfold small.
  replace (16 * S k)%nat with (16 * k + 16)%nat by lia.
  rewrite pow2_add, E.
  pose proof (pow2_pos (16 * k)) as Hp.
  change (pow2 16) with 65536.
  split.
  - apply Qle_shift_div_l; lra.
  - assert (Er : seed * 16807 / 2147483647 * (pow2 (16 * k) * 65536)
                 == (seed * pow2 (16 * k)) * (1101463552 / 2147483647)) by field.
    rewrite Er.
    assert (0 <= seed * pow2 (16 * k)) by nra.
    assert (1101463552 / 2147483647 <= 1) by (apply Qle_shift_div_r; lra).
    nra.
Qed.

Lemma aset_end {A} (l : list A) (v : A) :
  aset l (Z.of_nat (length l)) v = Ok (l ++ [v]).
Proof.
  unfold aset. rewrite Nat2Z.id.
  destruct (Z.ltb_spec (Z.of_nat (length l)) 0); [lia|].
  rewrite Nat.ltb_irrefl, Nat.eqb_refl. reflexivity.
Qed.

Lemma fill_zeros (n k : nat) : forall (p : list Z) (seed : Q),
  (1 <= k)%nat -> small k seed ->
  exists seed',
    fill n (Z.of_nat (length p)) p seed = Ok (p ++ repeat 0%Z n, seed')
    /\ small (k + n) seed'.
Proof.
  revert k. induction n as [|n IH]; intros k p seed Hk Hs.
  - exists seed. simpl. rewrite app_nil_r, Nat.add_0_r. auto.
  - cbn [fill].
    rewrite aset_end. cbn [bind].
    assert (Hf : Math_floor (seed * 256) = 0%Z).
    { destruct Hs as [H0 H1]. apply Qfloor_unit; [lra|].
      assert (pow2 16 <= pow2 (16 * k)) by (apply pow2_le; lia).
      change (pow2 16) with 65536 in *. nra. }
    rewrite Hf.
    destruct (next_seed seed) as (s' & Hs' & E);
      [apply Hs | eapply small_lt_1; eassumption|].
    unfold bind in Hs' |- *.
    destruct (js_rem (seed * 16807) 2147483647) as [r|]; [|discriminate].
    rewrite Hs'.
    pose proof (next_seed_small _ _ _ Hs E) as Hs1.
    destruct (IH (S k) (p ++ [0%Z]) s') as (seed' & HF & HS); [lia|assumption|].
    rewrite length_app, Nat2Z.inj_add in HF. cbn [length] in HF.
    change (Z.of_nat 1) with 1%Z in HF.
    rewrite HF. exists seed'. split.
    + rewrite <- app_assoc. reflexivity.
    + replace (k + S n)%nat with (S k + n)%nat by lia. assumption.
Qed.

Lemma fill_256 (seed : Q) :
  0 <= seed -> seed < 1 ->
  exists seed',
    fill 256 0 [] seed = Ok (Math_floor (seed * 256) :: repeat 0%Z 255, seed')
    /\ small 256 seed'.
Proof.
  intros H0 H1.
  change (fill 256 0 [] seed) with
    (p <- aset [] 0 (Math_floor (seed * 256)) ;;
     s <- js_rem (seed * 16807) 2147483647 ;;
     s <- fdiv s 2147483647 ;;
     fill 255 1 p s).
  change (aset [] 0 (Math_floor (seed * 256))) with (Ok [Math_floor (seed * 256)]).
  cbn [bind].
  destruct (next_seed seed) as (s' & Hs' & E); [lra|lra|].
  unfold bind in Hs' |- *.
  destruct (js_rem (seed * 16807) 2147483647) as [r|]; [|discriminate].
  rewrite Hs'.
  assert (Hs1 : small 1 s').
  { apply (next_seed_small 0 seed); [|assumption].
    split; [assumption|]. change (pow2 (16 * 0)) with 1. lra. }
  destruct (fill_zeros 255 1 [Math_floor (seed * 256)] s') as (seed' & HF & HS);
    [lia|assumption|].
  exists seed'. split; [exact HF | exact HS].
Qed.

Lemma shuffle_step (i : nat) (seed : Q) :
  (i < 1000)%nat -> tiny (S i) seed ->
  exists s', js_rem (seed * 16807) 2147483647 = Ok s'
    /\ tiny i s'
    /\ (r <- fdiv s' 2147483647 ;;
        Ok (Math_floor (r * inject_Z (Z.of_nat (S i) + 1)))) = Ok 0%Z.
Proof.
  intros Hi [H0 H1].
  replace (15 * S i)%nat with (15 * i + 15)%nat in H1 by lia.
  rewrite pow2_add in H1. change (pow2 15) with 32768 in H1.
  pose proof (pow2_pos (15 * i)) as Hp.
  destruct (js_rem_small (seed * 16807) 2147483647) as (s' & Hs' & E);
    [nra|nra|].
  exists s'. split; [assumption|]. split.
  - split; rewrite E; nra.
  - rewrite fdiv_Ok by reflexivity. cbn [bind]. f_equal.
    apply Qfloor_unit.
    + rewrite E. apply Qmult_le_0_compat.
      * apply Qle_shift_div_l; nra.
      * change 0 with (inject_Z 0). rewrite <- Zle_Qle. lia.
    + assert (Hb : inject_Z (Z.of_nat (S i) + 1) <= 1001).
      { change 1001 with (inject_Z 1001). rewrite <- Zle_Qle. lia. }
      assert (Hb0 : 0 <= inject_Z (Z.of_nat (S i) + 1)).
      { change 0 with (inject_Z 0). rewrite <- Zle_Qle. lia. }
      assert (Hs1 : s' <= 1) by (rewrite E; nra).
      assert (Hs0 : 0 <= s') by (rewrite E; nra).
      assert (Hq : s' / 2147483647 <= 1 / 2147483647).
      { apply Qle_shift_div_r; [lra|].
        assert (Em : 1 / 2147483647 * 2147483647 == 1) by reflexivity.
        rewrite Em. assumption. }
      assert (Hq0 : 0 <= s' / 2147483647) by (apply Qle_shift_div_l; lra).
      assert (1 / 2147483647 * 1001 < 1) by reflexivity.
      nra.
Qed.

Lemma shuffle_is_shuffle0 (n : nat) : forall (p p' : list Z) (seed : Q),
  (n < 1000)%nat -> tiny n seed -> shuffle0 n p = Ok p' ->
  exists seed', shuffle n p seed = Ok (p', seed').
Proof.
  induction n as [|n IH]; intros p p' seed Hn Ht H0.
  - simpl in *. inversion H0; subst. eauto.
  - destruct (shuffle_step n seed) as (s' & Hs' & Ht' & Hj); [lia|assumption|].
    cbn [shuffle]. rewrite Hs'. cbn [bind].
    unfold bind in Hj.
    destruct (fdiv s' 2147483647) as [r|]; [|discriminate].
    assert (Hj' : Math_floor (r * inject_Z (Z.of_nat (S n) + 1)) = 0%Z)
      by (injection Hj; trivial).
    cbn [bind]. rewrite Hj'.
    cbn [shuffle0] in H0.
    unfold bind in H0 |- *.
    destruct (aget_int p 0) as [pj|]; [|discriminate].
    destruct (aget_int p (Z.of_nat (S n))) as [pi|]; [|discriminate].
    destruct (aset p (Z.of_nat (S n)) pj) as [p1|]; [|discriminate].
    destruct (aset p1 0 pi) as [p2|]; [|discriminate].
    apply (IH p2 p' s'); [lia|assumption|assumption].
Qed.

Lemma shuffle0_255 (s0 : Z) :
  shuffle0 255 (s0 :: repeat 0%Z 255) = Ok (base_table s0).
Proof. vm_compute. reflexivity. Qed.

Lemma double_base (s0 : Z) :
  double (base_table s0) = Ok (base_table s0 ++ base_table s0).
Proof. vm_compute. reflexivity. Qed.

Lemma small_tiny seed : small 256 seed -> tiny 255 seed.
Proof.
  intros [H0 H1]. split; [assumption|].
  assert (pow2 (15 * 255) <= pow2 (16 * 256)) by (apply pow2_le; lia).
  pose proof (pow2_pos (15 * 255)). nra.
Qed.

(** For every seed of [0, 1) the table is 255 zeros followed by
    [floor (256 seed)], twice over. *)
Lemma constructor_table (seed : Q) :
  0 <= seed -> seed < 1 ->
  let s0 := Math_floor (seed * 256) in
  constructor seed =
    Ok (mk grad3_table (base_table s0) (base_table s0 ++ base_table s0)
          (map (fun e => Z.rem e 12) (base_table s0 ++ base_table s0))).
Proof.
  intros H0 H1 s0. unfold constructor.
  destruct (fill_256 seed H0 H1) as (s1 & HF & Hs1). fold s0 in HF.
  rewrite HF. cbn [bind].
  destruct (shuffle_is_shuffle0 255 _ _ s1 ltac:(lia) (small_tiny _ Hs1)
              (shuffle0_255 s0)) as (s2 & HS).
  rewrite HS. cbn [bind].
  rewrite double_base. reflexivity.
Qed.

End NoiseFacts.

(** ** Range of the noise *)

Module NoiseRange.
Import Noise NoiseSpec NoiseFacts.

Lemma Qsquare_nonneg (x : Q) : 0 <= x * x.
Proof.
  destruct (Qlt_le_dec x 0).
  - assert (E : x * x == (- x) * (- x)) by ring. rewrite E.
    apply Qmult_le_0_compat; lra.
  - apply Qmult_le_0_compat; assumption.
Qed.

Lemma fade_nonneg t : 0 <= t -> 0 <= fade t.
Proof.
  intros H. unfold fade.
  assert (0 <= t * t * t) by (repeat apply Qmult_le_0_compat; assumption).
  assert (0 <= t * (t * 6 - 15) + 10).
  { pose proof (Qsquare_nonneg (t - (5#4))). lra. }
  apply Qmult_le_0_compat; assumption.
Qed.

Lemma fade_sym t : fade (1 - t) == 1 - fade t.
Proof. unfold fade. ring. Qed.

Lemma fade_le_1 t : t <= 1 -> fade t <= 1.
Proof.
  intros H. assert (0 <= fade (1 - t)) by (apply fade_nonneg; lra).
  rewrite fade_sym in *. lra.
Qed.

(** The fade curve lies on the far side of [1/2] from its argument. *)
Lemma fade_half t :
  0 <= t -> t <= 1 -> 0 <= (t - (1#2)) * (fade t - (1#2)).
Proof.
  intros H0 H1.
  assert (E : (t - (1#2)) * (fade t - (1#2))
              == (t - (1#2)) * (t - (1#2))
                 * (6 * (t * (1 - t)) * (t * (1 - t)) + 2 * (t * (1 - t)) + 1))
    by (unfold fade; ring).
  rewrite E.
  assert (0 <= t * (1 - t)) by (apply Qmult_le_0_compat; lra).
  apply Qmult_le_0_compat.
  - apply Qsquare_nonneg.
  - pose proof (Qsquare_nonneg (t * (1 - t))). lra.
Qed.

Lemma lerp_le t a b a' b' :
  0 <= t -> t <= 1 -> a <= a' -> b <= b' -> lerp t a b <= lerp t a' b'.
Proof.
  intros. unfold lerp.
  assert (0 <= (1 - t) * (a' - a)) by (apply Qmult_le_0_compat; lra).
  assert (0 <= t * (b' - b)) by (apply Qmult_le_0_compat; lra).
  lra.
Qed.

(** Bilinear blend of four corner values, each bounded by the taxicab
    distance to its corner. *)
Lemma blend_le x y a b c d :
  0 <= x -> x <= 1 -> 0 <= y -> y <= 1 ->
  a <= x + y -> b <= (1 - x) + y -> c <= x + (1 - y) -> d <= (1 - x) + (1 - y) ->
  lerp (fade y) (lerp (fade x) a b) (lerp (fade x) c d) <= 1.
Proof.
  intros Hx0 Hx1 Hy0 Hy1 Ha Hb Hc Hd.
  pose proof (fade_nonneg x Hx0). pose proof (fade_le_1 x Hx1).
  pose proof (fade_nonneg y Hy0). pose proof (fade_le_1 y Hy1).
  pose proof (fade_half x Hx0 Hx1) as Gx.
  pose proof (fade_half y Hy0 Hy1) as Gy.
  eapply Qle_trans.
  - apply lerp_le; [assumption|assumption| |].
    + apply (lerp_le _ a b (x + y) (1 - x + y)); assumption.
    + apply (lerp_le _ c d (x + (1 - y)) (1 - x + (1 - y))); assumption.
  - unfold lerp. lra.
Qed.

Lemma lerp_opp t a b : lerp t (- a) (- b) == - lerp t a b.
Proof. unfold lerp. ring. Qed.

Lemma blend_ge x y a b c d :
  0 <= x -> x <= 1 -> 0 <= y -> y <= 1 ->
  - (x + y) <= a -> - ((1 - x) + y) <= b ->
  - (x + (1 - y)) <= c -> - ((1 - x) + (1 - y)) <= d ->
  -1 <= lerp (fade y) (lerp (fade x) a b) (lerp (fade x) c d).
Proof.
  intros Hx0 Hx1 Hy0 Hy1 Ha Hb Hc Hd.
  assert (H : lerp (fade y) (lerp (fade x) (- a) (- b)) (lerp (fade x) (- c) (- d)) <= 1)
    by (apply blend_le; lra).
  unfold lerp in *. lra.
Qed.

Lemma dot_bound g dx dy bx by_ :
  unit_grad g -> - bx <= dx -> dx <= bx -> - by_ <= dy -> dy <= by_ ->
  - (bx + by_) <= dot g dx dy /\ dot g dx dy <= bx + by_.
Proof.
  destruct g as [[g0 g1] g2]. simpl. intros [H0 H1] Hx Hx' Hy Hy'.
  assert (-1 <= inject_Z g0 /\ inject_Z g0 <= 1) as [A0 A1].
  { change 1 with (inject_Z 1). change (-1) with (inject_Z (-1)).
    rewrite <- !Zle_Qle. lia. }
  assert (-1 <= inject_Z g1 /\ inject_Z g1 <= 1) as [B0 B1].
  { change 1 with (inject_Z 1). change (-1) with (inject_Z (-1)).
    rewrite <- !Zle_Qle. lia. }
  split; nra.
Qed.

Lemma aget_def_Forall {A} (P : A -> Prop) (l : list A) (i : Z) :
  Forall P l -> (0 <= i < Z.of_nat (length l))%Z ->
  exists a, aget_def l i = Ok a /\ P a.
Proof.
  intros HP Hi. unfold aget_def, aget.
  destruct (Z.ltb_spec i 0); [lia|].
  destruct (nth_error l (Z.to_nat i)) as [a|] eqn:E.
  - exists a. split; [reflexivity|].
    rewrite Forall_forall in HP. apply HP. eapply nth_error_In; eassumption.
  - apply nth_error_None in E. lia.
Qed.

Lemma base_table_range s0 :
  (0 <= s0 <= 255)%Z -> Forall (fun e => 0 <= e <= 255)%Z (base_table s0).
Proof.
  intros H. unfold base_table. apply Forall_app. split.
  - apply Forall_forall. intros e He. apply repeat_spec in He. lia.
  - repeat constructor; lia.
Qed.

Lemma base_table_length s0 : length (base_table s0) = 256%nat.
Proof. reflexivity. Qed.

Lemma seed_entry seed :
  0 <= seed -> seed < 1 -> (0 <= Math_floor (seed * 256) <= 255)%Z.
Proof.
  intros H0 H1. unfold Math_floor.
  pose proof (Qfloor_le (seed * 256)) as Hl.
  pose proof (Qlt_floor (seed * 256)) as Hu.
  split.
  - assert (0 < Qfloor (seed * 256) + 1)%Z; [|lia].
    rewrite Zlt_Qlt. change (inject_Z 0) with 0. lra.
  - assert (Qfloor (seed * 256) < 256)%Z; [|lia].
    rewrite Zlt_Qlt. change (inject_Z 256) with 256. lra.
Qed.

Lemma constructor_wf seed :
  0 <= seed -> seed < 1 -> exists n, constructor seed = Ok n /\ wf n.
Proof.
  intros H0 H1. eexists. split; [apply constructor_table; assumption|].
  pose proof (base_table_range _ (seed_entry seed H0 H1)) as HB.
  assert (HP : Forall (fun e => 0 <= e <= 255)%Z
                 (base_table (Math_floor (seed * 256))
                  ++ base_table (Math_floor (seed * 256))))
    by (apply Forall_app; split; assumption).
  constructor; cbn [grad3 perm permMod12].
  - reflexivity.
  - rewrite length_app, !base_table_length. reflexivity.
  - exact HP.
  - rewrite length_map, length_app, !base_table_length. reflexivity.
  - apply Forall_map. eapply Forall_impl; [|exact HP].
    intros e He. cbv beta in *.
    pose proof (Z.rem_bound_pos e 12). lia.
Qed.

Lemma gradient_unit n k :
  wf n -> (0 <= k < 512)%Z -> exists g, gradient n k = Ok g /\ unit_grad g.
Proof.
  intros W Hk. unfold gradient.
  destruct (aget_def_Forall _ (permMod12 n) k (wf_mod n W)) as (m & Hm & Rm).
  { rewrite (wf_mod_len n W). lia. }
  rewrite Hm. cbn [bind]. rewrite (wf_grad3 n W).
  assert (m = 0 \/ m = 1 \/ m = 2 \/ m = 3 \/ m = 4 \/ m = 5 \/ m = 6
          \/ m = 7 \/ m = 8 \/ m = 9 \/ m = 10 \/ m = 11)%Z as C by lia.
  repeat (destruct C as [C|C]; [subst m; eexists; split;
                                [reflexivity | simpl; lia]|]).
  subst m; eexists; split; [reflexivity | simpl; lia].
Qed.

Lemma land_255 z : (0 <= Z.land z 255 <= 255)%Z.
Proof.
  split.
  - apply Z.land_nonneg. right. lia.
  - change 255%Z with (Z.ones 8). rewrite Z.land_ones by lia.
    pose proof (Z.mod_pos_bound z (2 ^ 8)). change (Z.ones 8) with 255%Z.
    change (2 ^ 8)%Z with 256%Z in *. lia.
Qed.

Lemma frac_range x :
  0 <= x - inject_Z (Math_floor x) /\ x - inject_Z (Math_floor x) <= 1.
Proof.
  unfold Math_floor.
  pose proof (Qfloor_le x). pose proof (Qlt_floor x) as Hu.
  rewrite inject_Z_plus in Hu. change (inject_Z 1) with 1 in Hu. lra.
Qed.

(** For a well-formed table the sample exists and lies in [-1, 1]. *)
Lemma perlin2_wf n x y :
  wf n -> exists v, perlin2 n x y = Ok v /\ -1 <= v /\ v <= 1.
Proof.
  intros W. unfold perlin2.
  pose proof (land_255 (Math_floor x)) as HX.
  pose proof (land_255 (Math_floor y)) as HY.
  destruct (frac_range x) as [Hx0 Hx1]. destruct (frac_range y) as [Hy0 Hy1].
  set (X := Z.land (Math_floor x) 255) in *.
  set (Y := Z.land (Math_floor y) 255) in *.
  set (fx := x - inject_Z (Math_floor x)) in *.
  set (fy := y - inject_Z (Math_floor y)) in *.
  destruct (aget_def_Forall _ (perm n) X (wf_perm n W)) as (pX & E1 & R1).
  { rewrite (wf_perm_len n W). lia. }
  destruct (aget_def_Forall _ (perm n) (X + 1) (wf_perm n W)) as (pX1 & E2 & R2).
  { rewrite (wf_perm_len n W). lia. }
  rewrite E1. cbn [bind]. rewrite E2. cbn [bind].
  destruct (gradient_unit n (pX + Y) W) as (gA & EA & UA); [lia|].
  destruct (gradient_unit n (pX1 + Y) W) as (gB & EB & UB); [lia|].
  destruct (gradient_unit n (pX + Y + 1) W) as (gA1 & EA1 & UA1); [lia|].
  destruct (gradient_unit n (pX1 + Y + 1) W) as (gB1 & EB1 & UB1); [lia|].
  rewrite EA. cbn [bind]. rewrite EB. cbn [bind].
  rewrite EA1. cbn [bind]. rewrite EB1. cbn [bind].
  eexists. split; [reflexivity|].
  destruct (dot_bound gA fx fy fx fy UA) as [A0 A1]; try lra.
  destruct (dot_bound gB (fx - 1) fy (1 - fx) fy UB) as [B0 B1]; try lra.
  destruct (dot_bound gA1 fx (fy - 1) fx (1 - fy) UA1) as [C0 C1]; try lra.
  destruct (dot_bound gB1 (fx - 1) (fy - 1) (1 - fx) (1 - fy) UB1) as [D0 D1];
    try lra.
  split.
  - apply blend_ge; assumption.
  - apply blend_le; assumption.
Qed.

End NoiseRange.

(** ** Claims about the noise generator *)

(** C1. For every construction seed in [0,1) and every pair of finite
    coordinates, the generator is built, [perlin2] returns a value, and
    that value lies in the closed interval [-1, 1]. *)
Theorem perlin2_in_unit_interval (seed x y : Q) :
  0 <= seed -> seed < 1 ->
  exists n v, Noise.constructor seed = Ok n
              /\ Noise.perlin2 n x y = Ok v /\ -1 <= v /\ v <= 1.
Proof.
  intros H0 H1.
  destruct (NoiseRange.constructor_wf seed H0 H1) as (n & Hn & W).
  destruct (NoiseRange.perlin2_wf n x y W) as (v & Hv & Hr).
  exists n, v. auto.
Qed.

Lemma perlin2_in_unit_interval_witness :
  0 <= 1 # 2 /\ 1 # 2 < 1 /\
  exists n v, Noise.constructor (1 # 2) = Ok n
              /\ Noise.perlin2 n (37 # 10) (-5 # 4) = Ok v /\ -1 <= v /\ v <= 1.
Proof.
  assert (G0 : 0 <= 1 # 2) by discriminate.
  assert (G1 : 1 # 2 < 1) by reflexivity.
  split; [exact G0|]. split; [exact G1|].
  exact (perlin2_in_unit_interval (1 # 2) (37 # 10) (-5 # 4) G0 G1).
Defined.

(** ** Facts about the grid *)

Module GridFacts.
Import AWaves GridSpec.

(** Peels the first step off a computation known to succeed. *)
Ltac ok_step H :=
  let a := fresh "a" in
  let Ha := fresh "Ha" in
  apply bind_inv in H; destruct H as (a & Ha & H).

Lemma mapM_Forall {A B} (f : A -> res B) (P : B -> Prop) :
  (forall a b, f a = Ok b -> P b) ->
  forall l l', mapM f l = Ok l' -> Forall P l'.
Proof.
  intros Hf. induction l as [|a l IH]; intros l' H; simpl in H.
  - inversion H. constructor.
  - ok_step H. ok_step H. inversion H; subst. constructor; eauto.
Qed.

Lemma mapM_length {A B} (f : A -> res B) :
  forall l l', mapM f l = Ok l' -> length l' = length l.
Proof.
  induction l as [|a l IH]; intros l' H; simpl in H.
  - inversion H. reflexivity.
  - ok_step H. ok_step H. inversion H; subst. simpl. f_equal. eauto.
Qed.

Lemma mapM_total {A B} (f : A -> res B) (P : A -> Prop) :
  (forall a, P a -> exists b, f a = Ok b) ->
  forall l, Forall P l -> exists l', mapM f l = Ok l'.
Proof.
  intros Hf. induction l as [|a l IH]; intros HP.
  - eexists. reflexivity.
  - inversion HP; subst.
    destruct (Hf a) as (b & Hb); [assumption|].
    destruct IH as (l' & Hl'); [assumption|].
    exists (b :: l'). simpl. rewrite Hb. simpl. rewrite Hl'. reflexivity.
Qed.

Lemma upto_length n : length (upto n) = Z.to_nat (n + 1).
Proof. unfold upto. rewrite length_map, length_seq. reflexivity. Qed.

(** No divisor of [setLines] is zero: it always returns, whatever the
    bounding box. *)
Lemma setLines_grid st :
  setLines st =
  Ok (mk (bounding st) (mouse st) (grid (bounding st))
        (map (fun _ => None) (grid (bounding st))) (noise st) (isVisible st)).
Proof.
  unfold setLines. unfold xGap at 1, yGap at 1.
  rewrite !fdiv_Ok by reflexivity. cbn [bind].
  rewrite !fdiv_Ok by reflexivity. cbn [bind].
  reflexivity.
Qed.

Lemma grid_length r : length (grid r) = Z.to_nat (totalLines r + 1).
Proof. unfold grid. rewrite length_map. apply upto_length. Qed.

Lemma grid_line_length r :
  Forall (fun points => length points = Z.to_nat (totalPoints r + 1)) (grid r).
Proof.
  unfold grid. apply Forall_map, Forall_forall. intros i _.
  rewrite length_map. apply upto_length.
Qed.

Lemma grid_cursor r :
  Forall (Forall (fun p => Point.cursor p = Cursor.mk 0 0 0 0)) (grid r).
Proof.
  unfold grid. apply Forall_map, Forall_forall. intros i _.
  apply Forall_map, Forall_forall. intros j _. reflexivity.
Qed.

Lemma ceil_pos x : 0 < x -> (0 < Qceiling x)%Z.
Proof.
  intros H. pose proof (Qle_ceiling x) as Hc.
  rewrite Zlt_Qlt. change (inject_Z 0) with 0. lra.
Qed.

End GridFacts.

(** ** The sample generator *)

Lemma noise0_built : Noise.constructor 0 = Ok noise0.
Proof. apply (NoiseFacts.constructor_table 0); [apply Qle_refl | reflexivity]. Qed.

(** ** Claims about rebuilding the grid *)

Section Rebuild.
Import AWaves GridSpec GridFacts.

(** C2, as amended.  After rebuilding the grid for a container of width
    [w > 0] and height [h > 0], the grid holds [ceil ((w+200)/12) + 1]
    lines and every line holds [ceil ((h+60)/36) + 1] points: both loops
    run from 0 up to and including the count. *)
Theorem setLines_counts (st : AWaves.t) :
  0 < Rect.width (bounding st) -> 0 < Rect.height (bounding st) ->
  exists st', setLines st = Ok st'
    /\ Z.of_nat (length (lines st'))
       = (Math_ceil ((Rect.width (bounding st) + 200) / 12) + 1)%Z
    /\ Forall (fun points =>
                 Z.of_nat (length points)
                 = (Math_ceil ((Rect.height (bounding st) + 60) / 36) + 1)%Z)
         (lines st').
Proof.
  intros Hw Hh. eexists. split; [apply setLines_grid|]. cbn [lines].
  assert (0 < totalLines (bounding st))%Z
    by (apply ceil_pos, Qlt_shift_div_l; lra).
  assert (0 < totalPoints (bounding st))%Z
    by (apply ceil_pos, Qlt_shift_div_l; lra).
  split.
  - rewrite grid_length. fold (totalLines (bounding st)). lia.
  - eapply Forall_impl; [|apply grid_line_length].
    intros points E. cbv beta in E. rewrite E.
    fold (totalPoints (bounding st)). lia.
Qed.

Lemma setLines_counts_witness :
  0 < 1000 /\ 0 < 800 /\
  exists st', setLines (blank (Rect.mk 0 0 1000 800)) = Ok st'
    /\ Z.of_nat (length (lines st')) = (Math_ceil ((1000 + 200) / 12) + 1)%Z
    /\ Forall (fun points =>
                 Z.of_nat (length points)
                 = (Math_ceil ((800 + 60) / 36) + 1)%Z)
         (lines st').
Proof.
  split; [reflexivity|]. split; [reflexivity|].
  apply (setLines_counts (blank (Rect.mk 0 0 1000 800))); reflexivity.
Defined.

(** C2 as stated fails: a 1000 x 800 container gets 101 lines of 25 points,
    not [ceil (1200/12) = 100] lines of [ceil (860/36) = 24] points. *)
Lemma setLines_counts_counterexample :
  exists st', setLines (blank (Rect.mk 0 0 1000 800)) = Ok st'
    /\ length (lines st') = 101%nat
    /\ Math_ceil ((1000 + 200) / 12) = 100%Z
    /\ Forall (fun points => length points = 25%nat) (lines st')
    /\ Math_ceil ((800 + 60) / 36) = 24%Z
    /\ Z.of_nat (length (lines st')) <> Math_ceil ((1000 + 200) / 12).
Proof.
  eexists. split; [apply setLines_grid|]. cbn [lines bounding blank].
  split; [reflexivity|]. split; [reflexivity|].
  split; [|split; [reflexivity | discriminate]].
  eapply Forall_impl; [|apply grid_line_length].
  intros points E. rewrite E. reflexivity.
Qed.

(** C8.  Immediately after a rebuild of the grid, as [onResize] triggers
    it, every point's cursor state is zero, whatever the points held
    before. *)
Theorem onResize_resets_cursor (r : Rect.t) (st : AWaves.t) :
  exists st', onResize r st = Ok st'
    /\ Forall (Forall (fun p => Point.cursor p = Cursor.mk 0 0 0 0)) (lines st').
Proof.
  eexists. split; [apply setLines_grid|]. apply grid_cursor.
Qed.

(** C9, as amended.  Rebuilding the grid never divides by zero and every
    coordinate it generates is a finite number, whatever the sign of the
    dimensions; the grid has [ceil ((w+200)/12) + 1] lines when that is
    positive and none otherwise, so it is empty exactly when [w <= -212],
    a single line exactly when [-212 < w <= -200], and holds at least two
    lines for every other width, zero included. *)
Theorem setLines_degenerate (st : AWaves.t) :
  let w := Rect.width (bounding st) in
  exists st', setLines st = Ok st'
    /\ length (lines st') = Z.to_nat (Math_ceil ((w + 200) / 12) + 1)
    /\ (lines st' = [] <-> w <= -212)
    /\ (length (lines st') = 1%nat <-> -212 < w /\ w <= -200)
    /\ ((2 <= length (lines st'))%nat <-> -200 < w).
Proof.
  intros w. eexists. split; [apply setLines_grid|]. cbn [lines].
  rewrite <- length_zero_iff_nil, grid_length. fold w.
  unfold totalLines, Math_ceil. fold w.
  pose proof (Qle_ceiling ((w + 200) / 12)) as Hc.
  pose proof (Qceiling_lt ((w + 200) / 12)) as Hl.
  set (c := Qceiling ((w + 200) / 12)) in *.
  assert (E : w == 12 * ((w + 200) / 12) - 200) by field.
  assert (Hm1 : (c <= -1)%Z <-> w <= -212).
  { split; intros H.
    - rewrite Zle_Qle in H; change (inject_Z (-1)) with (-1) in H. lra.
    - assert (c - 1 < -1)%Z; [|lia].
      rewrite Zlt_Qlt; change (inject_Z (-1)) with (-1). lra. }
  assert (H0 : (c <= 0)%Z <-> w <= -200).
  { split; intros H.
    - rewrite Zle_Qle in H; change (inject_Z 0) with 0 in H. lra.
    - assert (c - 1 < 0)%Z; [|lia].
      rewrite Zlt_Qlt; change (inject_Z 0) with 0. lra. }
  split; [reflexivity|].
  split; [|split].
  - rewrite <- Hm1. lia.
  - split.
    + intros H. split.
      * apply Qnot_le_lt. intros G. apply Hm1 in G. lia.
      * apply H0. lia.
    + intros [G1 G2]. apply H0 in G2.
      assert (~ (c <= -1)%Z) by (intros G; apply Hm1 in G; lra). lia.
  - split.
    + intros H. apply Qnot_le_lt. intros G. apply H0 in G. lia.
    + intros G. assert (~ (c <= 0)%Z) by (intros G'; apply H0 in G'; lra). lia.
Qed.

(** C9 as stated fails: a 0 x 0 container gets 18 lines of 3 points, which
    is neither an empty nor a single-line grid. *)
Lemma setLines_degenerate_counterexample :
  exists st', setLines (blank (Rect.mk 0 0 0 0)) = Ok st'
    /\ length (lines st') = 18%nat
    /\ Forall (fun points => length points = 3%nat) (lines st')
    /\ ~ (length (lines st') <= 1)%nat.
Proof.
  eexists. split; [apply setLines_grid|]. cbn [lines bounding blank].
  split; [reflexivity|]. split.
  - eapply Forall_impl; [|apply grid_line_length].
    intros points E. rewrite E. reflexivity.
  - rewrite grid_length. vm_compute. lia.
Qed.

End Rebuild.

(** ** The rendered path *)

Module PathFacts.
Import AWaves PathSpec.
Local Open Scope string_scope.

Lemma append_assoc (a b c : string) : (a ++ b) ++ c = a ++ (b ++ c).
Proof. induction a as [|ch a IH]; simpl; [reflexivity | rewrite IH; reflexivity]. Qed.

Lemma append_nil_r (a : string) : a ++ "" = a.
Proof. induction a as [|ch a IH]; simpl; [reflexivity | rewrite IH; reflexivity]. Qed.

Lemma moved_final point b : moved point b = Ok (final point b).
Proof.
  unfold moved. rewrite !fdiv_Ok by reflexivity. reflexivity.
Qed.

Lemma finals_length points : length (finals points) = length points.
Proof.
  induction points as [|p [|q rest] IH]; [reflexivity | reflexivity|].
  change (finals (p :: q :: rest)) with (final p true :: finals (q :: rest)).
  simpl length in *. rewrite IH. reflexivity.
Qed.

Lemma last_cons_default {A} (l : list A) : forall a d, last (a :: l) d = last l a.
Proof.
  induction l as [|b l IH]; intros a d; [reflexivity|].
  change (last (a :: b :: l) d) with (last (b :: l) d).
  rewrite (IH b d), (IH b a). reflexivity.
Qed.

Lemma finals_last rest : forall p0 d,
  last (finals (p0 :: rest)) d = final (last rest p0) false.
Proof.
  induction rest as [|q rest IH]; intros p0 d; [reflexivity|].
  change (finals (p0 :: q :: rest)) with (final p0 true :: finals (q :: rest)).
  rewrite !last_cons_default. apply IH.
Qed.

Lemma draw_points_finals points : forall (len pIndex : Z) (d : string),
  len = (pIndex + Z.of_nat (length points))%Z ->
  draw_points len pIndex points d
  = Ok (d ++ join (map (command "L") (finals points))).
Proof.
  induction points as [|p rest IH]; intros len pIndex d Hlen.
  - cbn [draw_points finals map join fold_right]. rewrite append_nil_r.
    reflexivity.
  - cbn [draw_points]. rewrite moved_final. cbn [bind].
    destruct rest as [|q rest].
    + simpl length in Hlen.
      replace (pIndex =? len - 1)%Z with true by (symmetry; apply Z.eqb_eq; lia).
      cbn [negb draw_points finals map join fold_right].
      rewrite append_nil_r. reflexivity.
    + replace (pIndex =? len - 1)%Z with false
        by (symmetry; apply Z.eqb_neq; simpl length in Hlen; lia).
      rewrite IH by (simpl length in *; lia).
      change (finals (p :: q :: rest)) with (final p true :: finals (q :: rest)).
      cbn [map join fold_right negb]. rewrite append_assoc. reflexivity.
Qed.

Lemma draw_line_finals p0 rest :
  draw_line (p0 :: rest)
  = Ok (command "M" (final p0 false)
        ++ join (map (command "L") (finals (p0 :: rest)))).
Proof.
  unfold draw_line. cbn [aget_def aget Z.ltb Z.compare Z.to_nat nth_error].
  cbn [bind]. rewrite moved_final. cbn [bind].
  apply draw_points_finals. lia.
Qed.

Lemma round_rounded c : rounded c (inject_Z (Math_round (c * 10)) / 10).
Proof.
  exists (Math_round (c * 10)). split; [reflexivity|].
  unfold Math_round.
  pose proof (Qfloor_le (c * 10 + (1 # 2))) as Hl.
  pose proof (Qlt_floor (c * 10 + (1 # 2))) as Hu.
  rewrite inject_Z_plus in Hu. change (inject_Z 1) with 1 in Hu.
  set (k := inject_Z (Qfloor (c * 10 + (1 # 2)))) in *.
  split.
  - apply Qlt_shift_div_l; lra.
  - apply Qle_shift_div_r; lra.
Qed.

End PathFacts.

Section Render.
Import AWaves PathSpec PathFacts.
Local Open Scope string_scope.

(** C6, as amended.  The path of a line is a single move-to at the first
    point's position without its cursor offset, followed by exactly one
    line-to per point of the line, the first point included; the cursor
    offset is applied to every line-to position except the last point's,
    and every coordinate is the exact one rounded to one decimal place. *)
Theorem draw_line_shape (p0 : Point.t) (rest : list Point.t) :
  let points := p0 :: rest in
  draw_line points
  = Ok (command "M" (final p0 false) ++ join (map (command "L") (finals points)))
  /\ length (finals points) = length points
  /\ last (finals points) (final p0 false) = final (last rest p0) false
  /\ forall (p : Point.t) (b : bool),
       rounded (Point.x p + Wave.x (Point.wave p)
                + (if b then Cursor.x (Point.cursor p) else 0))
               (Coords.x (final p b))
       /\ rounded (Point.y p + Wave.y (Point.wave p)
                   + (if b then Cursor.y (Point.cursor p) else 0))
                  (Coords.y (final p b)).
Proof.
  intros points. split; [|split; [|split]].
  - apply draw_line_finals.
  - apply finals_length.
  - apply finals_last.
  - intros p b. split; apply round_rounded.
Qed.

(** C6 as stated fails: for a line of two points whose first point carries
    a cursor offset, the source starts the path at the position without
    that offset and then draws a line-to for both points, where the stated
    path starts at the offset position and has one line-to. *)
Lemma draw_line_counterexample :
  let pa := Point.mk 0 0 (Wave.mk 0 0) (Cursor.mk 5 0 0 0) in
  let pb := Point.mk 0 36 (Wave.mk 0 0) (Cursor.mk 0 0 0 0) in
  draw_line [pa; pb] = Ok "M 0 0L 5 0L 0 36"
  /\ spec_path [pa; pb] = "M 5 0L 0 36"
  /\ draw_line [pa; pb] <> Ok (spec_path [pa; pb]).
Proof.
  split; [reflexivity|]. split; [reflexivity|]. discriminate.
Qed.

End Render.

(** ** Invariants of the running element *)

Module RunFacts.
Import AWaves GridSpec GridFacts RunSpec.

Section WithMath.
Context {M : MathLib}.

Lemma clamp_range c : -80 <= clamp c /\ clamp c <= 80.
Proof.
  unfold clamp, Math_min, Math_max. split.
  - apply Q.min_glb; [lra | apply Q.le_max_l].
  - apply Q.le_min_l.
Qed.

Lemma radius_ge m : 175 <= radius m.
Proof. apply Q.le_max_l. Qed.

Lemma radius_175 m : Mouse.vs m <= 100 -> radius m = 175.
Proof.
  intros H. unfold radius, Math_max, Qmax, GenericMinMax.gmax.
  destruct (Qcompare 175 (Mouse.vs m)) eqn:E; try reflexivity.
  apply Qlt_alt in E. lra.
Qed.

Lemma track_vs m : Mouse.vs (track m) <= 100.
Proof. apply Q.le_min_l. Qed.

Lemma movePoint_clamped time m n p p' :
  movePoint time m n p = Ok p' -> clamped p'.
Proof.
  unfold movePoint. intros H.
  ok_step H. ok_step H. destruct a0 as [vx vy].
  inversion H; subst. cbn [clamped Point.cursor Cursor.x Cursor.y].
  split; apply clamp_range.
Qed.

Lemma movePoint_total time m n p :
  NoiseSpec.wf n -> exists p', movePoint time m n p = Ok p'.
Proof.
  intros W. unfold movePoint.
  destruct (NoiseRange.perlin2_wf n ((Point.x p + time * 0.015) * 0.002)
              ((Point.y p + time * 0.008) * 0.002) W) as (v & Hv & _).
  rewrite Hv. cbn [bind].
  destruct (Qlt_le_dec _ _).
  - rewrite fdiv_nonzero by (pose proof (radius_ge m); lra).
    cbn [bind]. eexists. reflexivity.
  - cbn [bind]. eexists. reflexivity.
Qed.

Lemma movePoints_spec time st st' :
  movePoints time st = Ok st' ->
  Forall (Forall clamped) (lines st')
  /\ Forall2 (fun l l' => length l' = length l) (lines st) (lines st')
  /\ mouse st' = mouse st /\ paths st' = paths st
  /\ noise st' = noise st /\ bounding st' = bounding st
  /\ isVisible st' = isVisible st.
Proof.
  unfold movePoints. intros H. ok_step H. inversion H; subst.
  cbn [lines mouse paths noise bounding isVisible].
  split; [|split; [|repeat split]].
  - eapply mapM_Forall; [|eassumption].
    intros l l' Hl. eapply mapM_Forall; [|eassumption].
    intros p p'. apply movePoint_clamped.
  - clear H. revert a Ha. induction (lines st) as [|l ls IH]; intros a Ha.
    + simpl in Ha. inversion Ha. constructor.
    + simpl in Ha. ok_step Ha. ok_step Ha. inversion Ha; subst.
      constructor; [eapply mapM_length; eassumption | apply IH; assumption].
Qed.

Lemma movePoints_total time st :
  NoiseSpec.wf (noise st) -> exists st', movePoints time st = Ok st'.
Proof.
  intros W. unfold movePoints.
  destruct (mapM_total (mapM (movePoint time (mouse st) (noise st)))
              (fun _ => True)) with (l := lines st) as (ls & Hls).
  - intros l _. apply (mapM_total _ (fun _ => True)).
    + intros p _. apply movePoint_total, W.
    + apply Forall_forall. trivial.
  - apply Forall_forall. trivial.
  - rewrite Hls. eexists. reflexivity.
Qed.

Lemma draw_line_total points :
  points <> [] -> exists d, draw_line points = Ok d.
Proof.
  destruct points as [|p0 rest]; [congruence|]. intros _.
  eexists. apply PathFacts.draw_line_finals.
Qed.

Lemma draw_all_total ls : forall ps,
  Forall (fun points => points <> []) ls -> length ps = length ls ->
  exists ps', draw_all ls ps = Ok ps' /\ length ps' = length ls.
Proof.
  induction ls as [|l ls IH]; intros ps Hne Hlen.
  - exists ps. split; [destruct ps; reflexivity | assumption].
  - destruct ps as [|pth ps]; [discriminate|]. inversion Hne; subst.
    destruct (draw_line_total l) as (d & Hd); [assumption|].
    destruct (IH ps) as (ps' & Hps & Hl); [assumption | simpl in Hlen; lia|].
    exists (Some d :: ps'). cbn [draw_all]. rewrite Hd. cbn [bind].
    rewrite Hps. cbn [bind]. split; [reflexivity | simpl; lia].
Qed.

Lemma draw_all_length ls : forall ps ps',
  draw_all ls ps = Ok ps' -> length ps' = length ps.
Proof.
  induction ls as [|l ls IH]; intros ps ps' H.
  - destruct ps; simpl in H; inversion H; reflexivity.
  - destruct ps as [|pth ps]; [discriminate|]. cbn [draw_all] in H.
    ok_step H. ok_step H. inversion H; subst. simpl. f_equal. eauto.
Qed.

Lemma drawLines_spec st st' :
  drawLines st = Ok st' ->
  lines st' = lines st /\ mouse st' = mouse st /\ noise st' = noise st
  /\ bounding st' = bounding st /\ isVisible st' = isVisible st
  /\ length (paths st') = length (paths st).
Proof.
  unfold drawLines. intros H. ok_step H. inversion H; subst.
  cbn [lines mouse paths noise bounding isVisible].
  repeat split. eapply draw_all_length; eassumption.
Qed.

Lemma tick_hidden time st : isVisible st = false -> tick time st = Ok st.
Proof. unfold tick. intros ->. reflexivity. Qed.

Lemma tick_visible time st st' :
  isVisible st = true -> tick time st = Ok st' ->
  mouse st' = track (mouse st)
  /\ Forall (Forall clamped) (lines st')
  /\ Forall2 (fun l l' => length l' = length l) (lines st) (lines st')
  /\ length (paths st') = length (paths st)
  /\ noise st' = noise st /\ bounding st' = bounding st
  /\ isVisible st' = true.
Proof.
  unfold tick. intros V H. rewrite V in H. cbn [negb] in H.
  ok_step H.
  apply movePoints_spec in Ha. apply drawLines_spec in H.
  cbn [with_mouse lines mouse paths noise bounding isVisible] in Ha.
  destruct Ha as (A1 & A2 & A3 & A4 & A5 & A6 & A7).
  destruct H as (B1 & B2 & B3 & B4 & B5 & B6).
  rewrite B1, B2, B3, B4, B5, B6, A3, A4, A5, A6, A7. auto 10.
Qed.

Lemma Forall2_nonempty (ls ls' : list (list Point.t)) :
  Forall2 (fun l l' => length l' = length l) ls ls' ->
  Forall (fun points => points <> []) ls ->
  Forall (fun points => points <> []) ls' /\ length ls' = length ls.
Proof.
  induction 1 as [|l l' ls ls' Hl H2 IH]; intros Hne.
  - split; [constructor | reflexivity].
  - inversion Hne; subst. destruct IH as [IH1 IH2]; [assumption|].
    split; [|simpl; congruence].
    constructor; [|assumption].
    destruct l'; [|discriminate]. destruct l; [congruence | discriminate].
Qed.

Lemma tick_safe time st st' : safe st -> tick time st = Ok st' -> safe st'.
Proof.
  intros S H. destruct (isVisible st) eqn:V.
  - destruct (tick_visible _ _ _ V H) as (Hm & Hc & _).
    constructor; [assumption | rewrite Hm; apply track_vs].
  - rewrite tick_hidden in H by assumption. inversion H; subst. assumption.
Qed.

Lemma tick_live time st st' : live st -> tick time st = Ok st' -> live st'.
Proof.
  intros L H. destruct (isVisible st) eqn:V.
  - destruct (tick_visible _ _ _ V H) as (_ & _ & H2 & Hp & Hn & _).
    destruct (Forall2_nonempty _ _ H2 (live_lines st L)) as [N1 N2].
    constructor.
    + rewrite Hn. apply L.
    + rewrite Hp, N2. apply L.
    + assumption.
  - rewrite tick_hidden in H by assumption. inversion H; subst. assumption.
Qed.

Lemma tick_total time st : live st -> exists st', tick time st = Ok st'.
Proof.
  intros L. unfold tick. destruct (isVisible st); cbn [negb]; [|eauto].
  destruct (movePoints_total time (with_mouse st (track (mouse st))))
    as (st1 & H1); [apply L|].
  rewrite H1. cbn [bind].
  apply movePoints_spec in H1.
  cbn [with_mouse lines mouse paths noise bounding isVisible] in H1.
  destruct H1 as (_ & A2 & _ & A4 & _).
  destruct (Forall2_nonempty _ _ A2 (live_lines st L)) as [N1 N2].
  destruct (draw_all_total (lines st1) (paths st1)) as (ps & Hps & _);
    [assumption | rewrite A4, N2; apply L|].
  unfold drawLines. rewrite Hps. cbn [bind]. eauto.
Qed.

Lemma grid_nonempty r :
  0 <= Rect.height r -> Forall (fun points => points <> []) (grid r).
Proof.
  intros H. eapply Forall_impl; [|apply grid_line_length].
  intros points E Hnil. subst points. simpl in E.
  assert (0 < totalPoints r)%Z; [|lia].
  apply ceil_pos, Qlt_shift_div_l; lra.
Qed.

Lemma grid_clamped r : Forall (Forall clamped) (grid r).
Proof.
  eapply Forall_impl; [|apply grid_cursor].
  intros l Hl. eapply Forall_impl; [|exact Hl].
  intros p E. unfold clamped. rewrite E. cbn [Cursor.x Cursor.y]. lra.
Qed.

Lemma setLines_safe st st' : safe st -> setLines st = Ok st' -> safe st'.
Proof.
  intros S H. rewrite setLines_grid in H. inversion H; subst.
  constructor; cbn [lines mouse]; [apply grid_clamped | apply S].
Qed.

Lemma setLines_live st st' :
  NoiseSpec.wf (noise st) -> 0 <= Rect.height (bounding st) ->
  setLines st = Ok st' -> live st'.
Proof.
  intros W Hh H. rewrite setLines_grid in H. inversion H; subst.
  constructor; cbn [lines paths noise].
  - assumption.
  - apply length_map.
  - apply grid_nonempty. assumption.
Qed.

Lemma updateMousePosition_same x y scrollY st :
  lines (updateMousePosition x y scrollY st) = lines st
  /\ paths (updateMousePosition x y scrollY st) = paths st
  /\ noise (updateMousePosition x y scrollY st) = noise st
  /\ Mouse.vs (mouse (updateMousePosition x y scrollY st)) = Mouse.vs (mouse st).
Proof.
  unfold updateMousePosition, with_mouse. cbn [lines paths noise mouse].
  repeat split. destruct (Mouse.set (mouse st)); reflexivity.
Qed.

Lemma updateMousePosition_first x y scrollY st :
  Mouse.set (mouse st) = false ->
  mouse (updateMousePosition x y scrollY st)
  = let mx := x - Rect.left (bounding st) in
    let my := y - Rect.top (bounding st) + scrollY in
    Mouse.mk mx my mx my mx my (Mouse.v (mouse st)) (Mouse.vs (mouse st))
      (Mouse.a (mouse st)) true.
Proof.
  unfold updateMousePosition. cbn [with_mouse mouse Mouse.set].
  intros E. rewrite E. reflexivity.
Qed.

Lemma step_safe e st st' : safe st -> step e st = Ok st' -> safe st'.
Proof.
  intros S H. destruct e as [r|px py sc|ts sc|h|time]; cbn [step] in H.
  - unfold onResize in H. eapply setLines_safe; [|eassumption].
    constructor; cbn [setSize lines mouse]; apply S.
  - inversion H; subst.
    destruct (updateMousePosition_same px py sc st) as (E1 & _ & _ & E4).
    constructor; unfold onMouseMove; [rewrite E1 | rewrite E4]; apply S.
  - unfold onTouchMove in H. ok_step H. destruct a as [cx cy].
    inversion H; subst.
    destruct (updateMousePosition_same cx cy sc st) as (E1 & _ & _ & E4).
    constructor; [rewrite E1 | rewrite E4]; apply S.
  - inversion H; subst. constructor; cbn [lines mouse]; apply S.
  - eapply tick_safe; eassumption.
Qed.

Lemma step_live e st st' :
  good_event e -> live st -> step e st = Ok st' -> live st'.
Proof.
  intros G L H. destruct e as [r|px py sc|ts sc|h|time]; cbn [step] in H.
  - unfold onResize in H. eapply setLines_live; [| |eassumption];
      cbn [setSize noise bounding]; [apply L | apply G].
  - inversion H; subst.
    destruct (updateMousePosition_same px py sc st) as (E1 & E2 & E3 & _).
    constructor; unfold onMouseMove; rewrite ?E1, ?E2, ?E3; apply L.
  - unfold onTouchMove in H. ok_step H. destruct a as [cx cy].
    inversion H; subst.
    destruct (updateMousePosition_same cx cy sc st) as (E1 & E2 & E3 & _).
    constructor; rewrite ?E1, ?E2, ?E3; apply L.
  - inversion H; subst. constructor; cbn [lines paths noise]; apply L.
  - eapply tick_live; eassumption.
Qed.

Lemma step_total e st :
  good_event e -> live st -> exists st', step e st = Ok st'.
Proof.
  intros G L. destruct e as [r|px py sc|ts sc|h|time]; cbn [step].
  - unfold onResize. rewrite setLines_grid. eauto.
  - eauto.
  - destruct ts as [|[cx cy] ts]; [contradiction G; reflexivity|].
    unfold onTouchMove. cbn. eauto.
  - eauto.
  - apply tick_total. assumption.
Qed.

Lemma run_safe evs : forall st st', safe st -> run evs st = Ok st' -> safe st'.
Proof.
  induction evs as [|e evs IH]; intros st st' S H; cbn [run] in H.
  - inversion H; subst. assumption.
  - ok_step H. eapply IH; [|eassumption]. eapply step_safe; eassumption.
Qed.

Lemma run_total evs : forall st,
  Forall good_event evs -> live st ->
  exists st', run evs st = Ok st' /\ live st'.
Proof.
  induction evs as [|e evs IH]; intros st G L; cbn [run].
  - eauto.
  - inversion G; subst.
    destruct (step_total e st) as (st1 & Hst1); [assumption..|].
    rewrite Hst1. cbn [bind]. apply IH; [assumption|].
    eapply step_live; eassumption.
Qed.

Lemma connectedCallback_safe r seed st :
  connectedCallback r seed = Ok st -> safe st.
Proof.
  unfold connectedCallback. intros H. ok_step H. ok_step H.
  eapply tick_safe; [|eassumption].
  eapply setLines_safe; [|eassumption].
  constructor; cbn [setSize lines mouse Mouse.vs]; [constructor | lra].
Qed.

Lemma connectedCallback_total r seed :
  0 <= seed -> seed < 1 -> good_rect r ->
  exists st, connectedCallback r seed = Ok st /\ live st.
Proof.
  intros Hs0 Hs1 [_ Hh]. unfold connectedCallback.
  destruct (NoiseRange.constructor_wf seed Hs0 Hs1) as (n & Hn & W).
  rewrite Hn. cbn [bind]. rewrite setLines_grid. cbn [bind].
  match goal with |- exists st, tick 0 ?s = _ /\ _ =>
    assert (L : live s) end.
  { constructor; cbn [lines paths noise setSize bounding].
    - assumption.
    - apply length_map.
    - apply grid_nonempty. assumption. }
  destruct (tick_total 0 _ L) as (st & Hst).
  exists st. split; [assumption|]. eapply tick_live; eassumption.
Qed.

Lemma connectedCallback_set r seed st :
  connectedCallback r seed = Ok st -> Mouse.set (mouse st) = false.
Proof.
  unfold connectedCallback. intros H. ok_step H.
  rewrite setLines_grid in H. cbn [bind] in H.
  apply tick_visible in H; [|reflexivity].
  destruct H as (Em & _). rewrite Em. reflexivity.
Qed.

(** Whatever the element is fed, the states it reaches are safe. *)
Lemma session_safe r seed evs st :
  (st0 <- connectedCallback r seed ;; run evs st0) = Ok st -> safe st.
Proof.
  intros H. ok_step H.
  eapply run_safe; [|eassumption]. eapply connectedCallback_safe; eassumption.
Qed.

(** Every run on well-formed input goes through, and its states are safe. *)
Lemma session_total r seed evs :
  0 <= seed -> seed < 1 -> good_rect r -> Forall good_event evs ->
  exists st, (st0 <- connectedCallback r seed ;; run evs st0) = Ok st
             /\ live st /\ safe st.
Proof.
  intros H0 H1 Gr Ge.
  destruct (connectedCallback_total r seed H0 H1 Gr) as (st0 & E0 & L0).
  destruct (run_total evs st0 Ge L0) as (st & E & L).
  exists st. rewrite E0. cbn [bind]. split; [assumption|]. split; [assumption|].
  eapply run_safe; [|eassumption]. eapply connectedCallback_safe; eassumption.
Qed.

End WithMath.
End RunFacts.

(** ** Claims about the running element *)

Section Running.
Import AWaves RunSpec RunFacts.
Context {M : MathLib}.

(** C4.  After every tick, for every point of the grid, both components of
    the cursor displacement lie in [-80, 80], whatever pointer positions
    were fed in and however many ticks have run.  ([RunFacts.session_safe]
    gives the same bound for the states of any run that returns, on
    well-formed input or not.) *)
Theorem cursor_clamped_after_tick (r : Rect.t) (seed : Q) (evs : list event)
  (time : Q) :
  0 <= seed -> seed < 1 -> good_rect r -> Forall good_event evs ->
  exists st st',
    (st0 <- connectedCallback r seed ;; run evs st0) = Ok st
    /\ tick time st = Ok st'
    /\ Forall (Forall (fun p =>
         (-80 <= Cursor.x (Point.cursor p) /\ Cursor.x (Point.cursor p) <= 80)
         /\ (-80 <= Cursor.y (Point.cursor p) /\ Cursor.y (Point.cursor p) <= 80)))
         (lines st').
Proof.
  intros H0 H1 Gr Ge.
  destruct (session_total r seed evs H0 H1 Gr Ge) as (st & E & L & S).
  destruct (tick_total time st L) as (st' & E').
  exists st, st'. split; [assumption|]. split; [assumption|].
  apply (tick_safe time st st' S E').
Qed.

(** C10.  After every tick the smoothed velocity is at most 100, so the
    influence radius that the point update of that tick computes from it is
    exactly 175: the radius never grows with the pointer velocity. *)
Theorem radius_never_grows (r : Rect.t) (seed : Q) (evs : list event)
  (time : Q) :
  0 <= seed -> seed < 1 -> good_rect r -> Forall good_event evs ->
  exists st st',
    (st0 <- connectedCallback r seed ;; run evs st0) = Ok st
    /\ tick time st = Ok st'
    /\ Mouse.vs (mouse st') <= 100
    /\ radius (mouse st') = 175
    /\ (isVisible st = true ->
        mouse st' = track (mouse st)
        /\ exists st1,
             movePoints time (with_mouse st (track (mouse st))) = Ok st1
             /\ lines st' = lines st1
             /\ radius (mouse (with_mouse st (track (mouse st)))) = 175).
Proof.
  intros H0 H1 Gr Ge.
  destruct (session_total r seed evs H0 H1 Gr Ge) as (st & E & L & S).
  destruct (tick_total time st L) as (st' & E').
  exists st, st'. split; [assumption|]. split; [assumption|].
  pose proof (tick_safe time st st' S E') as S'.
  split; [apply S'|]. split; [apply radius_175, S'|].
  intros V. split; [apply (tick_visible time st st' V E')|].
  unfold tick in E'. rewrite V in E'. cbn [negb] in E'.
  apply bind_inv in E'. destruct E' as (st1 & E1 & E2).
  exists st1. split; [assumption|]. split.
  - apply drawLines_spec in E2. apply E2.
  - apply radius_175, track_vs.
Qed.

Lemma set_stays_false evs : forall st st',
  Forall (fun e => ~ pointer_event e) evs ->
  Mouse.set (mouse st) = false -> run evs st = Ok st' ->
  Mouse.set (mouse st') = false.
Proof.
  induction evs as [|e evs IH]; intros st st' Hn Hs H; cbn [run] in H.
  - inversion H; subst. assumption.
  - inversion Hn as [|e' evs' He Hevs]; subst.
    apply bind_inv in H. destruct H as (st1 & E1 & E2).
    apply (IH st1 st' Hevs); [|assumption].
    destruct e as [r'|px py sc|ts sc|h|time]; cbn [step] in E1.
    + unfold onResize in E1. rewrite GridFacts.setLines_grid in E1.
      inversion E1; subst. exact Hs.
    + contradiction He; exact I.
    + contradiction He; exact I.
    + inversion E1; subst. exact Hs.
    + destruct (isVisible st) eqn:V.
      * destruct (tick_visible time st st1 V E1) as (Em & _).
        rewrite Em. exact Hs.
      * rewrite tick_hidden in E1 by assumption. inversion E1; subst. exact Hs.
Qed.

(** C7, as amended.  On the first pointer-position update after the
    element is connected, resizes in between or not, the smoothed position
    and the last-frame position are snapped to the raw container-local
    pointer position, so the raw movement that the next tick measures is
    zero.  ([set] is cleared when the element is connected and by nothing
    else: a rebuild of the grid leaves it alone.) *)
Theorem first_pointer_update_snaps (r : Rect.t) (seed : Q) (evs : list event)
  (x y scrollY : Q) :
  0 <= seed -> seed < 1 -> good_rect r -> Forall good_event evs ->
  Forall (fun e => ~ pointer_event e) evs ->
  exists st,
    (st0 <- connectedCallback r seed ;; run evs st0) = Ok st
    /\ let m := mouse (updateMousePosition x y scrollY st) in
       Mouse.x m = x - Rect.left (bounding st)
       /\ Mouse.y m = y - Rect.top (bounding st) + scrollY
       /\ Mouse.sx m = Mouse.x m /\ Mouse.sy m = Mouse.y m
       /\ Mouse.lx m = Mouse.x m /\ Mouse.ly m = Mouse.y m
       /\ Mouse.set m = true
       /\ Mouse.x m - Mouse.lx m == 0 /\ Mouse.y m - Mouse.ly m == 0.
Proof.
  intros H0 H1 Gr Ge Hn.
  destruct (session_total r seed evs H0 H1 Gr Ge) as (st & E & _).
  exists st. split; [assumption|].
  assert (Hs : Mouse.set (mouse st) = false).
  { apply bind_inv in E. destruct E as (st0 & E0 & E).
    apply (set_stays_false evs st0 st Hn); [|assumption].
    eapply connectedCallback_set; eassumption. }
  intros m. subst m. rewrite (updateMousePosition_first x y scrollY st Hs).
  cbn [Mouse.x Mouse.y Mouse.sx Mouse.sy Mouse.lx Mouse.ly Mouse.set].
  do 7 (split; [reflexivity|]). split; ring.
Qed.

End Running.

Lemma cursor_clamped_after_tick_witness :
  let r := Rect.mk 0 0 300 200 in
  let evs := [AWaves.MouseMove 10 10 0; AWaves.Frame 16;
              AWaves.MouseMove 100000 (-100000) 0; AWaves.Frame 32;
              AWaves.Resize (Rect.mk 0 0 640 480);
              AWaves.TouchMove [(1, 2)] 5; AWaves.Frame 48] in
  0 <= 1 # 2 /\ 1 # 2 < 1 /\ RunSpec.good_rect r
  /\ Forall RunSpec.good_event evs
  /\ exists st st',
       (st0 <- @AWaves.connectedCallback coarse_math r (1 # 2) ;;
        @AWaves.run coarse_math evs st0) = Ok st
       /\ @AWaves.tick coarse_math 64 st = Ok st'
       /\ Forall (Forall (fun p =>
            (-80 <= Cursor.x (Point.cursor p) /\ Cursor.x (Point.cursor p) <= 80)
            /\ (-80 <= Cursor.y (Point.cursor p)
                /\ Cursor.y (Point.cursor p) <= 80)))
            (AWaves.lines st').
Proof.
  intros r evs.
  assert (G0 : 0 <= 1 # 2) by discriminate.
  assert (G1 : 1 # 2 < 1) by reflexivity.
  assert (Gr : RunSpec.good_rect r) by (split; discriminate).
  assert (Ge : Forall RunSpec.good_event evs).
  { repeat constructor; discriminate. }
  split; [exact G0|]. split; [exact G1|]. split; [exact Gr|]. split; [exact Ge|].
  exact (@cursor_clamped_after_tick coarse_math r (1 # 2) evs 64 G0 G1 Gr Ge).
Defined.

(** ** Determinism of the generator *)

Module Determinism.
Import Noise.

Lemma res_eq_bind {A B} (R : A -> A -> Prop) (S : B -> B -> Prop)
  (m1 m2 : res A) (k1 k2 : A -> res B) :
  res_eq R m1 m2 -> (forall a b, R a b -> res_eq S (k1 a) (k2 b)) ->
  res_eq S (bind m1 k1) (bind m2 k2).
Proof.
  destruct m1, m2; simpl; intros H K; try contradiction; auto.
Qed.

Lemma res_eq_refl {A} (m : res A) : res_eq eq m m.
Proof. destruct m; reflexivity. Qed.

Lemma res_eq_eq {A} (m1 m2 : res A) : res_eq eq m1 m2 -> m1 = m2.
Proof. destruct m1, m2; simpl; intros H; try contradiction; congruence. Qed.

Lemma fdiv_comp a a' b b' :
  a == a' -> b == b' -> res_eq Qeq (fdiv a b) (fdiv a' b').
Proof.
  intros Ha Hb. unfold fdiv.
  assert (E : Qeq_bool b 0 = Qeq_bool b' 0).
  { destruct (Qeq_bool b 0) eqn:E1, (Qeq_bool b' 0) eqn:E2; try reflexivity.
    - apply Qeq_bool_iff in E1. rewrite Hb in E1.
      apply Qeq_bool_iff in E1. congruence.
    - apply Qeq_bool_iff in E2. rewrite <- Hb in E2.
      apply Qeq_bool_iff in E2. congruence. }
  rewrite E. destruct (Qeq_bool b' 0); simpl; [reflexivity|].
  rewrite Ha, Hb. reflexivity.
Qed.

Lemma Qtrunc_comp x x' : x == x' -> Qtrunc x = Qtrunc x'.
Proof.
  intros H. unfold Qtrunc.
  assert (E : Qle_bool 0 x = Qle_bool 0 x').
  { destruct (Qle_bool 0 x) eqn:E1, (Qle_bool 0 x') eqn:E2; try reflexivity.
    - apply Qle_bool_iff in E1. rewrite H in E1.
      apply Qle_bool_iff in E1. congruence.
    - apply Qle_bool_iff in E2. rewrite <- H in E2.
      apply Qle_bool_iff in E2. congruence. }
  rewrite E. destruct (Qle_bool 0 x');
    [apply Qfloor_comp | apply Qceiling_comp]; assumption.
Qed.

Lemma js_rem_comp a a' m :
  a == a' -> res_eq Qeq (js_rem a m) (js_rem a' m).
Proof.
  intros H. unfold js_rem.
  apply (res_eq_bind Qeq); [apply fdiv_comp; [assumption | reflexivity]|].
  intros q q' Hq. simpl. rewrite (Qtrunc_comp q q' Hq), H. reflexivity.
Qed.

Lemma floor_comp x x' : x == x' -> Math_floor x = Math_floor x'.
Proof. apply Qfloor_comp. Qed.

Lemma fill_comp n : forall i p seed seed',
  seed == seed' -> res_eq same_loop (fill n i p seed) (fill n i p seed').
Proof.
  induction n as [|n IH]; intros i p seed seed' H; cbn [fill].
  - simpl. split; [reflexivity | assumption].
  - rewrite (floor_comp (seed * 256) (seed' * 256)) by (rewrite H; reflexivity).
    apply (res_eq_bind eq); [apply res_eq_refl|]. intros p1 p2 <-.
    apply (res_eq_bind Qeq); [apply js_rem_comp; rewrite H; reflexivity|].
    intros s s' Hs.
    apply (res_eq_bind Qeq); [apply fdiv_comp; [assumption | reflexivity]|].
    intros t t' Ht. apply IH. assumption.
Qed.

Lemma shuffle_comp n : forall p seed seed',
  seed == seed' -> res_eq same_loop (shuffle n p seed) (shuffle n p seed').
Proof.
  induction n as [|n IH]; intros p seed seed' H; cbn [shuffle].
  - simpl. split; [reflexivity | assumption].
  - apply (res_eq_bind Qeq); [apply js_rem_comp; rewrite H; reflexivity|].
    intros s s' Hs.
    apply (res_eq_bind Qeq); [apply fdiv_comp; [assumption | reflexivity]|].
    intros t t' Ht.
    rewrite (floor_comp (t * inject_Z (Z.of_nat (S n) + 1))
               (t' * inject_Z (Z.of_nat (S n) + 1))) by (rewrite Ht; reflexivity).
    apply (res_eq_bind eq); [apply res_eq_refl|]. intros pj pj' <-.
    apply (res_eq_bind eq); [apply res_eq_refl|]. intros pi pi' <-.
    apply (res_eq_bind eq); [apply res_eq_refl|]. intros p1 p1' <-.
    apply (res_eq_bind eq); [apply res_eq_refl|]. intros p2 p2' <-.
    apply IH. assumption.
Qed.

Lemma constructor_comp seed seed' :
  seed == seed' -> constructor seed = constructor seed'.
Proof.
  intros H. apply res_eq_eq. unfold constructor.
  apply (res_eq_bind same_loop); [apply fill_comp; assumption|].
  intros [p s] [p' s'] [Hp Hs]. simpl in Hp, Hs. subst p'.
  apply (res_eq_bind same_loop); [apply shuffle_comp; assumption|].
  intros [q t] [q' t'] [Hq Ht]. simpl in Hq. subst q'.
  apply res_eq_refl.
Qed.

Lemma fade_comp t t' : t == t' -> fade t == fade t'.
Proof. intros H. unfold fade. rewrite H. reflexivity. Qed.

Lemma lerp_comp t t' a a' b b' :
  t == t' -> a == a' -> b == b' -> lerp t a b == lerp t' a' b'.
Proof. intros Ht Ha Hb. unfold lerp. rewrite Ht, Ha, Hb. reflexivity. Qed.

Lemma dot_comp g x x' y y' : x == x' -> y == y' -> dot g x y == dot g x' y'.
Proof.
  intros Hx Hy. destruct g as [[g0 g1] g2]. simpl. rewrite Hx, Hy. reflexivity.
Qed.

Lemma perlin2_comp n x x' y y' :
  x == x' -> y == y' -> res_eq Qeq (perlin2 n x y) (perlin2 n x' y').
Proof.
  intros Hx Hy. unfold perlin2.
  rewrite <- (floor_comp x x' Hx), <- (floor_comp y y' Hy).
  apply (res_eq_bind eq); [apply res_eq_refl|]. intros pX ? <-.
  apply (res_eq_bind eq); [apply res_eq_refl|]. intros pX1 ? <-.
  apply (res_eq_bind eq); [apply res_eq_refl|]. intros gA ? <-.
  apply (res_eq_bind eq); [apply res_eq_refl|]. intros gB ? <-.
  apply (res_eq_bind eq); [apply res_eq_refl|]. intros gA1 ? <-.
  apply (res_eq_bind eq); [apply res_eq_refl|]. intros gB1 ? <-.
  simpl.
  assert (Ex : x - inject_Z (Math_floor x) == x' - inject_Z (Math_floor x))
    by lra.
  assert (Ey : y - inject_Z (Math_floor y) == y' - inject_Z (Math_floor y))
    by lra.
  repeat first [ apply lerp_comp | apply fade_comp | apply dot_comp
               | assumption | lra ].
Qed.

End Determinism.

Module ProgramFacts.
Import Program.

Lemma new_seeded seed w a u :
  new (Some seed) w = Ok (a, u) ->
  exists n, Noise.constructor seed = Ok n
    /\ a = length (instances w)
    /\ u = mk (random w) (drawn w) (instances w ++ [n]).
Proof.
  unfold new, bindM, ret, lift.
  destruct (Noise.constructor seed) as [n|e]; [|discriminate].
  intros H. inversion H; subst. exists n. repeat split.
Qed.

(** Without a seed the constructor takes the next number of
    [Math.random]. *)
Lemma new_unseeded w :
  new None w
  = match Noise.constructor (random w (drawn w)) with
    | Ok n => Ok (length (instances w),
                  mk (random w) (S (drawn w)) (instances w ++ [n]))
    | Err e => Err e
    end.
Proof.
  unfold new, bindM, Math_random, lift.
  destruct (Noise.constructor (random w (drawn w))); reflexivity.
Qed.

Lemma this_perm_read obj k w n :
  nth_error (instances w) obj = Some n ->
  this_perm obj k w
  = match aget_def (Noise.perm n) k with
    | Ok a => Ok (a, w)
    | Err e => Err e
    end.
Proof. intros E. unfold this_perm, bindM, this, lift. rewrite E. reflexivity. Qed.

Lemma this_gradient_read obj k w n :
  nth_error (instances w) obj = Some n ->
  this_gradient obj k w
  = match Noise.gradient n k with
    | Ok a => Ok (a, w)
    | Err e => Err e
    end.
Proof.
  intros E. unfold this_gradient, bindM, this, lift. rewrite E. reflexivity.
Qed.

(** [perlin2] only reads: it returns what the tables of the instance give
    and leaves the world as it was. *)
Lemma perlin2_reads_only obj x y w :
  perlin2 obj x y w
  = match nth_error (instances w) obj with
    | Some n => v <- Noise.perlin2 n x y ;; Ok (v, w)
    | None => Err TypeError
    end.
Proof.
  unfold perlin2, Noise.perlin2. cbv zeta. unfold bindM.
  destruct (nth_error (instances w) obj) as [n|] eqn:E.
  2:{ unfold this_perm, bindM, this. rewrite E. reflexivity. }
  rewrite (this_perm_read _ _ _ _ E).
  destruct (aget_def (Noise.perm n) (Z.land (Math_floor x) 255)) as [pX|];
    [|reflexivity].
  cbv beta iota. cbn [bind]. rewrite (this_perm_read _ _ _ _ E).
  destruct (aget_def (Noise.perm n) (Z.land (Math_floor x) 255 + 1)) as [pX1|];
    [|reflexivity].
  cbv beta iota. cbn [bind]. rewrite (this_gradient_read _ _ _ _ E).
  destruct (Noise.gradient n (pX + Z.land (Math_floor y) 255)) as [gA|];
    [|reflexivity].
  cbv beta iota. cbn [bind]. rewrite (this_gradient_read _ _ _ _ E).
  destruct (Noise.gradient n (pX1 + Z.land (Math_floor y) 255)) as [gB|];
    [|reflexivity].
  cbv beta iota. cbn [bind]. rewrite (this_gradient_read _ _ _ _ E).
  destruct (Noise.gradient n (pX + Z.land (Math_floor y) 255 + 1)) as [gA1|];
    [|reflexivity].
  cbv beta iota. cbn [bind]. rewrite (this_gradient_read _ _ _ _ E).
  destruct (Noise.gradient n (pX1 + Z.land (Math_floor y) 255 + 1)) as [gB1|];
    reflexivity.
Qed.

(** No instruction touches an instance that exists. *)
Lemma step_keeps i w out w' a n :
  nth_error (instances w) a = Some n -> step i w = Ok (out, w') ->
  nth_error (instances w') a = Some n.
Proof.
  intros Hn. destruct i as [seed|obj x y]; unfold step, bindM, ret.
  - assert (K : forall s u b,
               (n0 <~ lift (Noise.constructor s) ;;
                (fun w0 => Ok (length (instances w0),
                               mk (random w0) (drawn w0) (instances w0 ++ [n0]))))
                 u = Ok (b, w') ->
               nth_error (instances u) a = Some n ->
               nth_error (instances w') a = Some n).
    { intros s u b. unfold bindM, lift.
      destruct (Noise.constructor s) as [n0|]; [|discriminate].
      intros H Hu. inversion H; subst. cbn [instances].
      rewrite nth_error_app1; [assumption|].
      apply nth_error_Some. rewrite Hu. discriminate. }
    unfold new, bindM at 1.
    destruct seed as [s|].
    + unfold ret at 1.
      destruct ((n0 <~ lift (Noise.constructor s) ;;
                 (fun w0 => Ok (length (instances w0),
                                mk (random w0) (drawn w0)
                                  (instances w0 ++ [n0])))) w)
        as [[b u]|] eqn:E; [|discriminate].
      intros H. inversion H; subst. eapply K; eassumption.
    + unfold Math_random at 1.
      destruct ((n0 <~ lift (Noise.constructor (random w (drawn w))) ;;
                 (fun w0 => Ok (length (instances w0),
                                mk (random w0) (drawn w0)
                                  (instances w0 ++ [n0]))))
                  (mk (random w) (S (drawn w)) (instances w)))
        as [[b u]|] eqn:E; [|discriminate].
      intros H. inversion H; subst. eapply K; [eassumption|]. exact Hn.
  - rewrite perlin2_reads_only.
    destruct (nth_error (instances w) obj) as [m|]; [|discriminate].
    destruct (Noise.perlin2 m x y) as [v|]; [|discriminate].
    cbn [bind]. intros H. inversion H; subst. exact Hn.
Qed.

Lemma exec_keeps prog : forall w outs w' a n,
  nth_error (instances w) a = Some n -> exec prog w = Ok (outs, w') ->
  nth_error (instances w') a = Some n.
Proof.
  induction prog as [|i prog IH]; intros w outs w' a n Hn H.
  - inversion H; subst. exact Hn.
  - cbn [exec] in H. unfold bindM at 1 in H.
    destruct (step i w) as [[out u]|] eqn:E; [|discriminate].
    unfold bindM at 1 in H.
    destruct (exec prog u) as [[outs' u']|] eqn:E'; [|discriminate].
    inversion H; subst.
    eapply IH; [|eassumption]. eapply step_keeps; eassumption.
Qed.

(** Two instances built without a seed need not agree: the page decides. *)
Lemma unseeded_instances_differ :
  exists w1 w2 a1 a2 u1 u2 n1 n2,
    instances w1 = instances w2 /\ drawn w1 = drawn w2
    /\ new None w1 = Ok (a1, u1) /\ new None w2 = Ok (a2, u2)
    /\ nth_error (instances u1) a1 = Some n1
    /\ nth_error (instances u2) a2 = Some n2
    /\ Noise.perm n1 <> Noise.perm n2.
Proof.
  assert (G0 : 0 <= 0) by discriminate.
  assert (G1 : 0 < 1) by reflexivity.
  assert (H0 : 0 <= 1 # 2) by discriminate.
  assert (H1 : 1 # 2 < 1) by reflexivity.
  pose proof (NoiseFacts.constructor_table 0 G0 G1) as E1.
  pose proof (NoiseFacts.constructor_table (1 # 2) H0 H1) as E2.
  cbv zeta in E1, E2.
  eexists (mk (fun _ => 0) 0 []), (mk (fun _ => 1 # 2) 0 []), 0%nat, 0%nat.
  eexists _, _, _, _.
  split; [reflexivity|]. split; [reflexivity|].
  rewrite !new_unseeded. cbn [random drawn instances]. rewrite E1, E2.
  cbn [length app].
  split; [reflexivity|]. split; [reflexivity|].
  split; [reflexivity|]. split; [reflexivity|].
  cbn [Noise.perm]. intros H.
  apply (f_equal (fun l => nth 255 l 0%Z)) in H. vm_compute in H. discriminate.
Qed.

End ProgramFacts.

(** C3.  The generator is deterministic in its seed.  Take two instances
    constructed with equal seeds, in two pages that may differ in
    everything: the numbers [Math.random] returns, the instances that exist
    already, and what each program does after the construction (further
    constructions, with a seed or without, and samples of any instance, the
    new one included).  Then neither construction consults [Math.random],
    both instances hold the same tables, those that the seed alone
    determines, and still hold them after the programs ran; and for equal
    coordinates [perlin2] ends alike on both: the same sample, each call
    leaving its page as it was, so that a repeated call returns the same
    again, or the same error.  For a seed of [0, 1) the calls return.
    Equality of rationals is [==]: two representations of one Number are
    the same seed or coordinate. *)
Theorem noise_deterministic (seed1 seed2 x1 y1 x2 y2 : Q)
    (w1 w2 : Program.world) (prog1 prog2 : list Program.instr)
    (a1 a2 : nat) (u1 u2 : Program.world) (outs1 outs2 : list Q)
    (v1 v2 : Program.world) :
  seed1 == seed2 -> x1 == x2 -> y1 == y2 ->
  Program.new (Some seed1) w1 = Ok (a1, u1) ->
  Program.exec prog1 u1 = Ok (outs1, v1) ->
  Program.new (Some seed2) w2 = Ok (a2, u2) ->
  Program.exec prog2 u2 = Ok (outs2, v2) ->
  (Program.drawn u1 = Program.drawn w1 /\ Program.drawn u2 = Program.drawn w2)
  /\ (exists n,
        Noise.constructor seed1 = Ok n
        /\ nth_error (Program.instances v1) a1 = Some n
        /\ nth_error (Program.instances v2) a2 = Some n)
  /\ same_outcome (Program.perlin2 a1 x1 y1 v1) (Program.perlin2 a2 x2 y2 v2)
       v1 v2
  /\ (0 <= seed1 -> seed1 < 1 ->
      exists s, Program.perlin2 a1 x1 y1 v1 = Ok (s, v1)).
Proof.
  intros Hs Hx Hy N1 R1 N2 R2.
  destruct (ProgramFacts.new_seeded _ _ _ _ N1) as (n1 & C1 & A1 & U1).
  destruct (ProgramFacts.new_seeded _ _ _ _ N2) as (n2 & C2 & A2 & U2).
  rewrite (Determinism.constructor_comp seed1 seed2 Hs), C2 in C1.
  inversion C1; subst n2. clear C1.
  assert (I1 : nth_error (Program.instances v1) a1 = Some n1).
  { eapply ProgramFacts.exec_keeps; [|exact R1]. rewrite U1, A1.
    cbn [Program.instances]. rewrite nth_error_app2 by lia.
    rewrite Nat.sub_diag. reflexivity. }
  assert (I2 : nth_error (Program.instances v2) a2 = Some n1).
  { eapply ProgramFacts.exec_keeps; [|exact R2]. rewrite U2, A2.
    cbn [Program.instances]. rewrite nth_error_app2 by lia.
    rewrite Nat.sub_diag. reflexivity. }
  split.
  { rewrite U1, U2. split; reflexivity. }
  split.
  { exists n1. rewrite (Determinism.constructor_comp seed1 seed2 Hs).
    split; [exact C2|]. split; assumption. }
  rewrite !ProgramFacts.perlin2_reads_only, I1, I2.
  split.
  - pose proof (Determinism.perlin2_comp n1 x1 x2 y1 y2 Hx Hy) as E.
    destruct (Noise.perlin2 n1 x1 y1) as [s1|e1],
             (Noise.perlin2 n1 x2 y2) as [s2|e2];
      cbn [res_eq] in E; cbn [bind same_outcome]; try contradiction.
    + split; [exact E|]. split; reflexivity.
    + exact E.
  - intros H0 H1.
    rewrite <- (Determinism.constructor_comp seed1 seed2 Hs) in C2.
    destruct (NoiseRange.constructor_wf seed1 H0 H1) as (n & En & Wn).
    rewrite C2 in En. inversion En; subst n.
    destruct (NoiseRange.perlin2_wf n1 x1 y1 Wn) as (s & Es & _).
    exists s. rewrite Es. reflexivity.
Qed.

Lemma noise_deterministic_witness :
  let u1 := Program.mk (fun _ => 0) 0 [noise0] in
  let v1 := Program.mk (fun _ => 0) 1 [noise0; noise0] in
  let u2 := Program.mk (fun _ => 1 # 2) 3 [noise0; noise0] in
  0 == 0 # 7 /\ 37 # 10 == 74 # 20 /\ -5 # 4 == -10 # 8
  /\ Program.new (Some 0) page0 = Ok (0%nat, u1)
  /\ Program.exec prog0 u1 = Ok (samples0, v1)
  /\ Program.new (Some (0 # 7)) page1 = Ok (1%nat, u2)
  /\ Program.exec prog1 u2 = Ok (samples1, u2)
  /\ (Program.drawn u1 = Program.drawn page0
      /\ Program.drawn u2 = Program.drawn page1)
  /\ (exists n,
        Noise.constructor 0 = Ok n
        /\ nth_error (Program.instances v1) 0 = Some n
        /\ nth_error (Program.instances u2) 1 = Some n)
  /\ same_outcome (Program.perlin2 0 (37 # 10) (-5 # 4) v1)
       (Program.perlin2 1 (74 # 20) (-10 # 8) u2) v1 u2
  /\ (0 <= 0 -> 0 < 1 ->
      exists s, Program.perlin2 0 (37 # 10) (-5 # 4) v1 = Ok (s, v1)).
Proof.
  intros u1 v1 u2.
  assert (H1 : 0 == 0 # 7) by reflexivity.
  assert (H2 : 37 # 10 == 74 # 20) by reflexivity.
  assert (H3 : -5 # 4 == -10 # 8) by reflexivity.
  assert (N1 : Program.new (Some 0) page0 = Ok (0%nat, u1))
    by (vm_compute; reflexivity).
  assert (R1 : Program.exec prog0 u1 = Ok (samples0, v1))
    by (vm_compute; reflexivity).
  assert (N2 : Program.new (Some (0 # 7)) page1 = Ok (1%nat, u2))
    by (vm_compute; reflexivity).
  assert (R2 : Program.exec prog1 u2 = Ok (samples1, u2))
    by (vm_compute; reflexivity).
  split; [exact H1|]. split; [exact H2|]. split; [exact H3|].
  split; [exact N1|]. split; [exact R1|]. split; [exact N2|].
  split; [exact R2|].
  exact (noise_deterministic 0 (0 # 7) (37 # 10) (-5 # 4) (74 # 20) (-10 # 8)
           page0 page1 prog0 prog1 0 1 u1 u2 samples0 samples1 v1 u2
           H1 H2 H3 N1 R1 N2 R2).
Defined.

(** ** The permutation table *)

(** C5, as the source has it.  For every seed of [0, 1) the 512-entry
    table is the 256-entry base table twice over and every entry is an
    integer of [0, 255]; but the base table is 255 zeros followed by
    [floor (256 seed)], which is not a permutation of [0 .. 255].  The first
    loop stores [floor (256 seed)] where a shuffle of [0 .. 255] would start
    from [i], and it divides the seed by 2147483647 in every round, so that
    the seed is below [2^-16] from the second round on and every index the
    second loop draws is 0. *)
Theorem permutation_table_degenerate (seed : Q) :
  0 <= seed -> seed < 1 ->
  exists n, Noise.constructor seed = Ok n
    /\ length (Noise.perm n) = 512%nat
    /\ (forall i, (0 <= i < 256)%Z ->
          aget (Noise.perm n) (i + 256) = aget (Noise.perm n) i
          /\ aget (Noise.perm n) i = aget (Noise.p n) i)
    /\ Forall (fun e => 0 <= e <= 255)%Z (Noise.perm n)
    /\ Noise.p n = repeat 0%Z 255 ++ [Math_floor (seed * 256)]
    /\ ~ Permutation (Noise.p n) (map Z.of_nat (seq 0 256)).
Proof.
  intros H0 H1.
  pose proof (NoiseFacts.constructor_table seed H0 H1) as E. cbv zeta in E.
  set (s0 := Math_floor (seed * 256)) in *.
  eexists. split; [exact E|]. cbn [Noise.perm Noise.p].
  split; [reflexivity|]. split; [|split; [|split; [reflexivity|]]].
  - intros i Hi. unfold aget.
    destruct (Z.ltb_spec (i + 256) 0); [lia|].
    destruct (Z.ltb_spec i 0); [lia|].
    assert (Hl : (Z.to_nat i < length (NoiseSpec.base_table s0))%nat)
      by (rewrite NoiseRange.base_table_length; lia).
    rewrite nth_error_app2 by (rewrite NoiseRange.base_table_length; lia).
    rewrite nth_error_app1 by assumption.
    rewrite NoiseRange.base_table_length.
    replace (Z.to_nat (i + 256) - 256)%nat with (Z.to_nat i) by lia.
    split; reflexivity.
  - pose proof (NoiseRange.base_table_range s0
                  (NoiseRange.seed_entry seed H0 H1)) as HB.
    apply Forall_app. split; assumption.
  - intros HP.
    assert (In1 : In 1%Z (NoiseSpec.base_table s0)).
    { eapply Permutation_in; [apply Permutation_sym; exact HP|].
      apply in_map_iff. exists 1%nat. split; [reflexivity|].
      apply in_seq. lia. }
    assert (In2 : In 2%Z (NoiseSpec.base_table s0)).
    { eapply Permutation_in; [apply Permutation_sym; exact HP|].
      apply in_map_iff. exists 2%nat. split; [reflexivity|].
      apply in_seq. lia. }
    unfold NoiseSpec.base_table in In1, In2.
    apply in_app_or in In1. apply in_app_or in In2.
    destruct In1 as [In1|[In1|[]]]; [apply repeat_spec in In1; discriminate|].
    destruct In2 as [In2|[In2|[]]]; [apply repeat_spec in In2; discriminate|].
    congruence.
Qed.

Lemma permutation_table_degenerate_witness :
  0 <= 1 # 2 /\ 1 # 2 < 1 /\
  exists n, Noise.constructor (1 # 2) = Ok n
    /\ length (Noise.perm n) = 512%nat
    /\ (forall i, (0 <= i < 256)%Z ->
          aget (Noise.perm n) (i + 256) = aget (Noise.perm n) i
          /\ aget (Noise.perm n) i = aget (Noise.p n) i)
    /\ Forall (fun e => 0 <= e <= 255)%Z (Noise.perm n)
    /\ Noise.p n = repeat 0%Z 255 ++ [128%Z]
    /\ ~ Permutation (Noise.p n) (map Z.of_nat (seq 0 256)).
Proof.
  assert (G0 : 0 <= 1 # 2) by discriminate.
  assert (G1 : 1 # 2 < 1) by reflexivity.
  split; [exact G0|]. split; [exact G1|].
  exact (permutation_table_degenerate (1 # 2) G0 G1).
Defined.

(** ** Further samples of the running element *)

Lemma radius_never_grows_witness :
  let r := Rect.mk 0 0 300 200 in
  let evs := [AWaves.MouseMove 10 10 0; AWaves.Frame 16;
              AWaves.MouseMove 100000 (-100000) 0; AWaves.Frame 32] in
  0 <= 1 # 2 /\ 1 # 2 < 1 /\ RunSpec.good_rect r
  /\ Forall RunSpec.good_event evs
  /\ exists st st',
       (st0 <- @AWaves.connectedCallback coarse_math r (1 # 2) ;;
        @AWaves.run coarse_math evs st0) = Ok st
       /\ @AWaves.tick coarse_math 48 st = Ok st'
       /\ Mouse.vs (AWaves.mouse st') <= 100
       /\ AWaves.radius (AWaves.mouse st') = 175
       /\ (AWaves.isVisible st = true ->
           AWaves.mouse st' = @AWaves.track coarse_math (AWaves.mouse st)
           /\ exists st1,
                @AWaves.movePoints coarse_math 48
                  (AWaves.with_mouse st
                     (@AWaves.track coarse_math (AWaves.mouse st))) = Ok st1
                /\ AWaves.lines st' = AWaves.lines st1
                /\ AWaves.radius
                     (AWaves.mouse
                        (AWaves.with_mouse st
                           (@AWaves.track coarse_math (AWaves.mouse st))))
                   = 175).
Proof.
  intros r evs.
  assert (G0 : 0 <= 1 # 2) by discriminate.
  assert (G1 : 1 # 2 < 1) by reflexivity.
  assert (Gr : RunSpec.good_rect r) by (split; discriminate).
  assert (Ge : Forall RunSpec.good_event evs) by (repeat constructor).
  split; [exact G0|]. split; [exact G1|]. split; [exact Gr|]. split; [exact Ge|].
  exact (@radius_never_grows coarse_math r (1 # 2) evs 48 G0 G1 Gr Ge).
Defined.

Lemma first_pointer_update_snaps_witness :
  let r := Rect.mk 20 30 300 200 in
  let evs := [AWaves.Frame 16; AWaves.Resize (Rect.mk 40 50 640 480);
              AWaves.VisibilityChange true; AWaves.Frame 32] in
  0 <= 1 # 2 /\ 1 # 2 < 1 /\ RunSpec.good_rect r
  /\ Forall RunSpec.good_event evs
  /\ Forall (fun e => ~ RunSpec.pointer_event e) evs
  /\ exists st,
       (st0 <- @AWaves.connectedCallback coarse_math r (1 # 2) ;;
        @AWaves.run coarse_math evs st0) = Ok st
       /\ let m := AWaves.mouse (AWaves.updateMousePosition 500 400 25 st) in
          Mouse.x m = 500 - Rect.left (AWaves.bounding st)
          /\ Mouse.y m = 400 - Rect.top (AWaves.bounding st) + 25
          /\ Mouse.sx m = Mouse.x m /\ Mouse.sy m = Mouse.y m
          /\ Mouse.lx m = Mouse.x m /\ Mouse.ly m = Mouse.y m
          /\ Mouse.set m = true
          /\ Mouse.x m - Mouse.lx m == 0 /\ Mouse.y m - Mouse.ly m == 0.
Proof.
  intros r evs.
  assert (G0 : 0 <= 1 # 2) by discriminate.
  assert (G1 : 1 # 2 < 1) by reflexivity.
  assert (Gr : RunSpec.good_rect r) by (split; discriminate).
  assert (Ge : Forall RunSpec.good_event evs).
  { repeat constructor; discriminate. }
  assert (Gp : Forall (fun e => ~ RunSpec.pointer_event e) evs).
  { repeat constructor; intros []. }
  split; [exact G0|]. split; [exact G1|]. split; [exact Gr|]. split; [exact Ge|].
  split; [exact Gp|].
  exact (@first_pointer_update_snaps coarse_math r (1 # 2) evs 500 400 25
           G0 G1 Gr Ge Gp).
Defined.

(** C7 as stated fails after a rebuild: the pointer is set at (10, 10), the
    window is resized, which rebuilds the grid, and the pointer moves to
    (500, 500); the smoothed and the last position stay at (10, 10). *)
Lemma pointer_snap_counterexample :
  let r := Rect.mk 0 0 0 0 in
  let evs := [AWaves.MouseMove 10 10 0; AWaves.Resize r;
              AWaves.MouseMove 500 500 0] in
  exists st,
    (st0 <- @AWaves.connectedCallback coarse_math r 0 ;;
     @AWaves.run coarse_math evs st0) = Ok st
    /\ (Mouse.x (AWaves.mouse st), Mouse.y (AWaves.mouse st)) = (500, 500)
    /\ (Mouse.sx (AWaves.mouse st), Mouse.sy (AWaves.mouse st)) = (10, 10)
    /\ (Mouse.lx (AWaves.mouse st), Mouse.ly (AWaves.mouse st)) = (10, 10)
    /\ ~ Mouse.sx (AWaves.mouse st) == Mouse.x (AWaves.mouse st).
Proof.
  intros r evs.
  assert (H : match (st0 <- @AWaves.connectedCallback coarse_math r 0 ;;
                     @AWaves.run coarse_math evs st0) with
              | Ok st =>
                  (Mouse.x (AWaves.mouse st), Mouse.y (AWaves.mouse st)) = (500, 500)
                  /\ (Mouse.sx (AWaves.mouse st), Mouse.sy (AWaves.mouse st)) = (10, 10)
                  /\ (Mouse.lx (AWaves.mouse st), Mouse.ly (AWaves.mouse st)) = (10, 10)
              | Err _ => False
              end).
  { vm_compute. repeat split. }
  destruct (st0 <- @AWaves.connectedCallback coarse_math r 0 ;;
            @AWaves.run coarse_math evs st0) as [st|e]; [|contradiction].
  exists st. split; [reflexivity|].
  destruct H as (Hx & Hs & Hl). repeat (split; [assumption|]).
  injection Hx as Hx _. injection Hs as Hs _. rewrite Hx, Hs. discriminate.
Qed.

(** * Further properties of the source *)

(** ** The interpolation curves *)

Module CurveFacts.
Import Noise.

(** The difference of two values of the fade curve, as the integral of its
    derivative [30 u^2 (1-u)^2] written as a sum of squares. *)
Lemma fade_diff s t :
  fade t - fade s
  == 30 * (t - s)
     * ((s * (1 - s) + (t - s) * (1 - 2 * s) / 2 - (t - s) * (t - s) / 3)
        * (s * (1 - s) + (t - s) * (1 - 2 * s) / 2 - (t - s) * (t - s) / 3)
        + ((t - s) * (1 - 2 * s) - (t - s) * (t - s))
          * ((t - s) * (1 - 2 * s) - (t - s) * (t - s)) / 12
        + ((t - s) * (t - s)) * ((t - s) * (t - s)) / 180).
Proof. unfold fade. field. Qed.

Lemma fade_mono s t : s <= t -> fade s <= fade t.
Proof.
  intros H. pose proof (fade_diff s t) as E.
  set (u := s * (1 - s) + (t - s) * (1 - 2 * s) / 2 - (t - s) * (t - s) / 3) in *.
  set (v := (t - s) * (1 - 2 * s) - (t - s) * (t - s)) in *.
  set (w := (t - s) * (t - s)) in *.
  pose proof (NoiseRange.Qsquare_nonneg u) as Hu.
  pose proof (NoiseRange.Qsquare_nonneg v) as Hv.
  pose proof (NoiseRange.Qsquare_nonneg w) as Hw.
  assert (Hs : 0 <= u * u + v * v / 12 + w * w / 180).
  { assert (0 <= v * v / 12) by (apply Qle_shift_div_l; lra).
    assert (0 <= w * w / 180) by (apply Qle_shift_div_l; lra). lra. }
  assert (Hp : 0 <= 30 * (t - s) * (u * u + v * v / 12 + w * w / 180)).
  { apply Qmult_le_0_compat; [lra | assumption]. }
  lra.
Qed.

Lemma fade_0 : fade 0 == 0.
Proof. reflexivity. Qed.

Lemma fade_1 : fade 1 == 1.
Proof. reflexivity. Qed.

End CurveFacts.

(** X1.  On the unit interval the fade curve is nondecreasing, stays in
    [0, 1], fixes 0 and 1, and is symmetric about the centre:
    [fade (1 - t) = 1 - fade t]. *)
Theorem fade_unit_interval (s t : Q) :
  0 <= s -> s <= t -> t <= 1 ->
  0 <= Noise.fade s /\ Noise.fade s <= Noise.fade t /\ Noise.fade t <= 1
  /\ Noise.fade 0 == 0 /\ Noise.fade 1 == 1
  /\ Noise.fade (1 - t) == 1 - Noise.fade t.
Proof.
  intros H0 Hst H1.
  split; [apply NoiseRange.fade_nonneg; assumption|].
  split; [apply CurveFacts.fade_mono; assumption|].
  split; [apply NoiseRange.fade_le_1; assumption|].
  split; [apply CurveFacts.fade_0|]. split; [apply CurveFacts.fade_1|].
  apply NoiseRange.fade_sym.
Qed.

Lemma fade_unit_interval_witness :
  0 <= 1 # 4 /\ 1 # 4 <= 3 # 4 /\ 3 # 4 <= 1
  /\ 0 <= Noise.fade (1 # 4) /\ Noise.fade (1 # 4) <= Noise.fade (3 # 4)
  /\ Noise.fade (3 # 4) <= 1
  /\ Noise.fade 0 == 0 /\ Noise.fade 1 == 1
  /\ Noise.fade (1 - (3 # 4)) == 1 - Noise.fade (3 # 4).
Proof.
  assert (G0 : 0 <= 1 # 4) by discriminate.
  assert (G1 : 1 # 4 <= 3 # 4) by discriminate.
  assert (G2 : 3 # 4 <= 1) by discriminate.
  split; [exact G0|]. split; [exact G1|]. split; [exact G2|].
  exact (fade_unit_interval (1 # 4) (3 # 4) G0 G1 G2).
Defined.

(** X2.  For a weight in [0, 1] the interpolation lies between its two
    ends, whichever of them is the larger; weight 0 gives the first end and
    weight 1 the second. *)
Theorem lerp_between (t a b : Q) :
  0 <= t -> t <= 1 ->
  Qmin a b <= Noise.lerp t a b /\ Noise.lerp t a b <= Qmax a b
  /\ Noise.lerp 0 a b == a /\ Noise.lerp 1 a b == b.
Proof.
  intros H0 H1. unfold Noise.lerp.
  pose proof (Q.le_min_l a b). pose proof (Q.le_min_r a b).
  pose proof (Q.le_max_l a b). pose proof (Q.le_max_r a b).
  assert (E : a + t * (b - a) == (1 - t) * a + t * b) by ring.
  assert (0 <= (1 - t) * (a - Qmin a b)) by (apply Qmult_le_0_compat; lra).
  assert (0 <= t * (b - Qmin a b)) by (apply Qmult_le_0_compat; lra).
  assert (0 <= (1 - t) * (Qmax a b - a)) by (apply Qmult_le_0_compat; lra).
  assert (0 <= t * (Qmax a b - b)) by (apply Qmult_le_0_compat; lra).
  split; [lra|]. split; [lra|]. split; ring.
Qed.

Lemma lerp_between_witness :
  0 <= 1 # 4 /\ 1 # 4 <= 1
  /\ Qmin 8 (-4) <= Noise.lerp (1 # 4) 8 (-4)
  /\ Noise.lerp (1 # 4) 8 (-4) <= Qmax 8 (-4)
  /\ Noise.lerp 0 8 (-4) == 8 /\ Noise.lerp 1 8 (-4) == -4.
Proof.
  assert (G0 : 0 <= 1 # 4) by discriminate.
  assert (G1 : 1 # 4 <= 1) by discriminate.
  split; [exact G0|]. split; [exact G1|].
  exact (lerp_between (1 # 4) 8 (-4) G0 G1).
Defined.

(** ** The noise field *)

Module FieldFacts.
Import Noise NoiseSpec NoiseFacts NoiseRange.

(** The sample for a well-formed table, with the gradients it reads. *)
Lemma perlin2_blend n x y :
  wf n ->
  exists gA gB gA1 gB1,
    let fx := x - inject_Z (Math_floor x) in
    let fy := y - inject_Z (Math_floor y) in
    perlin2 n x y
    = Ok (lerp (fade fy)
            (lerp (fade fx) (dot gA fx fy) (dot gB (fx - 1) fy))
            (lerp (fade fx) (dot gA1 fx (fy - 1)) (dot gB1 (fx - 1) (fy - 1)))).
Proof.
  intros W. unfold perlin2.
  pose proof (land_255 (Math_floor x)) as HX.
  pose proof (land_255 (Math_floor y)) as HY.
  set (X := Z.land (Math_floor x) 255) in *.
  set (Y := Z.land (Math_floor y) 255) in *.
  destruct (aget_def_Forall _ (perm n) X (wf_perm n W)) as (pX & E1 & R1).
  { rewrite (wf_perm_len n W). lia. }
  destruct (aget_def_Forall _ (perm n) (X + 1) (wf_perm n W)) as (pX1 & E2 & R2).
  { rewrite (wf_perm_len n W). lia. }
  rewrite E1. cbn [bind]. rewrite E2. cbn [bind].
  destruct (gradient_unit n (pX + Y) W) as (gA & EA & _); [lia|].
  destruct (gradient_unit n (pX1 + Y) W) as (gB & EB & _); [lia|].
  destruct (gradient_unit n (pX + Y + 1) W) as (gA1 & EA1 & _); [lia|].
  destruct (gradient_unit n (pX1 + Y + 1) W) as (gB1 & EB1 & _); [lia|].
  rewrite EA. cbn [bind]. rewrite EB. cbn [bind].
  rewrite EA1. cbn [bind]. rewrite EB1. cbn [bind].
  exists gA, gB, gA1, gB1. reflexivity.
Qed.

Lemma dot_origin g : dot g 0 0 == 0.
Proof. destruct g as [[g0 g1] g2]. simpl. ring. Qed.

Lemma floor_shift x z : Math_floor (x + inject_Z z) = (Math_floor x + z)%Z.
Proof.
  unfold Math_floor. apply Qfloor_unique.
  - rewrite inject_Z_plus. pose proof (Qfloor_le x). lra.
  - pose proof (Qlt_floor x) as H. rewrite !inject_Z_plus in *. lra.
Qed.

Lemma land_shift a k : Z.land (a + 256 * k) 255 = Z.land a 255.
Proof.
  change 255%Z with (Z.ones 8). rewrite !Z.land_ones by lia.
  change (2 ^ 8)%Z with 256%Z. rewrite Z.mul_comm. apply Z_mod_plus_full.
Qed.

(** Entry [i] of the doubled table of a seed below 1 is 0 unless [i] is
    255 or 511. *)
Lemma table_zero s0 i :
  (0 <= i < 255)%Z ->
  aget_def (base_table s0 ++ base_table s0) i = Ok 0%Z
  /\ aget_def (map (fun e => Z.rem e 12) (base_table s0 ++ base_table s0)) i
     = Ok 0%Z.
Proof.
  intros Hi. unfold aget_def, aget.
  destruct (Z.ltb_spec i 0); [lia|].
  assert (E : nth_error (base_table s0 ++ base_table s0) (Z.to_nat i) = Some 0%Z).
  { unfold base_table. rewrite <- app_assoc.
    rewrite nth_error_app1 by (rewrite repeat_length; lia).
    apply nth_error_repeat. lia. }
  rewrite nth_error_map, E. split; reflexivity.
Qed.

End FieldFacts.

(** X3.  At every point with integer coordinates the sample is 0, for every
    seed of [0, 1). *)
Theorem perlin2_lattice_zero (seed : Q) (a b : Z) :
  0 <= seed -> seed < 1 ->
  exists n v, Noise.constructor seed = Ok n
    /\ Noise.perlin2 n (inject_Z a) (inject_Z b) = Ok v /\ v == 0.
Proof.
  intros H0 H1.
  destruct (NoiseRange.constructor_wf seed H0 H1) as (n & Hn & W).
  destruct (FieldFacts.perlin2_blend n (inject_Z a) (inject_Z b) W)
    as (gA & gB & gA1 & gB1 & E).
  cbv zeta in E. exists n. eexists. split; [exact Hn|]. split; [exact E|].
  unfold Math_floor. rewrite !Qfloor_Z.
  assert (Ea : inject_Z a - inject_Z a == 0) by ring.
  assert (Eb : inject_Z b - inject_Z b == 0) by ring.
  rewrite (Determinism.lerp_comp _ (Noise.fade 0) _ (Noise.dot gA 0 0) _
             (Noise.lerp (Noise.fade (inject_Z a - inject_Z a))
                (Noise.dot gA1 (inject_Z a - inject_Z a)
                   (inject_Z b - inject_Z b - 1))
                (Noise.dot gB1 (inject_Z a - inject_Z a - 1)
                   (inject_Z b - inject_Z b - 1)))).
  - unfold Noise.lerp. rewrite CurveFacts.fade_0, FieldFacts.dot_origin. ring.
  - apply Determinism.fade_comp. exact Eb.
  - rewrite (Determinism.lerp_comp _ (Noise.fade 0) _ (Noise.dot gA 0 0) _
               (Noise.dot gB (inject_Z a - inject_Z a - 1)
                  (inject_Z b - inject_Z b))).
    + unfold Noise.lerp. rewrite CurveFacts.fade_0. ring.
    + apply Determinism.fade_comp. exact Ea.
    + apply Determinism.dot_comp; assumption.
    + reflexivity.
  - reflexivity.
Qed.

Lemma perlin2_lattice_zero_witness :
  0 <= 1 # 2 /\ 1 # 2 < 1 /\
  exists n v, Noise.constructor (1 # 2) = Ok n
    /\ Noise.perlin2 n (inject_Z 255) (inject_Z (-3)) = Ok v /\ v == 0.
Proof.
  assert (G0 : 0 <= 1 # 2) by discriminate.
  assert (G1 : 1 # 2 < 1) by reflexivity.
  split; [exact G0|]. split; [exact G1|].
  exact (perlin2_lattice_zero (1 # 2) 255 (-3) G0 G1).
Defined.

(** X4.  The sample has period 256 in both coordinates, for every table:
    shifting a coordinate by a multiple of 256 changes neither the value
    nor, where the lookup fails, the error. *)
Theorem perlin2_period_256 (n : Noise.t) (x y : Q) (k l : Z) :
  res_eq Qeq
    (Noise.perlin2 n (x + inject_Z (256 * k)) (y + inject_Z (256 * l)))
    (Noise.perlin2 n x y).
Proof.
  unfold Noise.perlin2.
  rewrite !FieldFacts.floor_shift, !FieldFacts.land_shift.
  apply (Determinism.res_eq_bind eq); [apply Determinism.res_eq_refl|].
  intros pX ? <-.
  apply (Determinism.res_eq_bind eq); [apply Determinism.res_eq_refl|].
  intros pX1 ? <-.
  apply (Determinism.res_eq_bind eq); [apply Determinism.res_eq_refl|].
  intros gA ? <-.
  apply (Determinism.res_eq_bind eq); [apply Determinism.res_eq_refl|].
  intros gB ? <-.
  apply (Determinism.res_eq_bind eq); [apply Determinism.res_eq_refl|].
  intros gA1 ? <-.
  apply (Determinism.res_eq_bind eq); [apply Determinism.res_eq_refl|].
  intros gB1 ? <-.
  cbn [res_eq].
  set (dk := (256 * k)%Z). set (dl := (256 * l)%Z).
  assert (Ex : x + inject_Z dk - inject_Z (Math_floor x + dk)
               == x - inject_Z (Math_floor x))
    by (rewrite inject_Z_plus; ring).
  assert (Ey : y + inject_Z dl - inject_Z (Math_floor y + dl)
               == y - inject_Z (Math_floor y))
    by (rewrite inject_Z_plus; ring).
  repeat first [ apply Determinism.lerp_comp | apply Determinism.fade_comp
               | apply Determinism.dot_comp | assumption | lra ].
Qed.

(** X5.  For a seed of [0, 1) the field is the same in every cell whose
    column and row (modulo 256) are below 254, and does not depend on the
    seed there: with [fx] and [fy] the fractional parts of the coordinates
    the sample is [fx + fy - fade fx - fade fy], every corner reading the
    gradient (1, 1). *)
Theorem perlin2_same_in_every_cell (seed x y : Q) :
  0 <= seed -> seed < 1 ->
  (Z.land (Math_floor x) 255 < 254)%Z -> (Z.land (Math_floor y) 255 < 254)%Z ->
  exists n v, Noise.constructor seed = Ok n
    /\ Noise.perlin2 n x y = Ok v
    /\ let fx := x - inject_Z (Math_floor x) in
       let fy := y - inject_Z (Math_floor y) in
       v == fx + fy - Noise.fade fx - Noise.fade fy.
Proof.
  intros H0 H1 HX HY.
  pose proof (NoiseFacts.constructor_table seed H0 H1) as E. cbv zeta in E.
  set (s0 := Math_floor (seed * 256)) in *.
  pose proof (NoiseRange.land_255 (Math_floor x)) as BX.
  pose proof (NoiseRange.land_255 (Math_floor y)) as BY.
  eexists. eexists. split; [exact E|].
  unfold Noise.perlin2, Noise.gradient. cbn [Noise.perm Noise.permMod12 Noise.grad3].
  set (X := Z.land (Math_floor x) 255) in *.
  set (Y := Z.land (Math_floor y) 255) in *.
  destruct (FieldFacts.table_zero s0 X) as [EX _]; [lia|].
  destruct (FieldFacts.table_zero s0 (X + 1)) as [EX1 _]; [lia|].
  destruct (FieldFacts.table_zero s0 Y) as [_ EY]; [lia|].
  destruct (FieldFacts.table_zero s0 (Y + 1)) as [_ EY1]; [lia|].
  rewrite EX. cbn [bind]. rewrite EX1. cbn [bind].
  change (0 + Y)%Z with Y. rewrite EY. cbn [bind].
  rewrite EY1. cbn [bind].
  change (aget_def Noise.grad3_table 0) with (@Ok (Z * Z * Z) (1, 1, 0)%Z).
  cbn [bind]. split; [reflexivity|].
  cbv zeta. unfold Noise.lerp, Noise.dot. ring.
Qed.

Lemma perlin2_same_in_every_cell_witness :
  0 <= 1 # 2 /\ 1 # 2 < 1
  /\ (Z.land (Math_floor (37 # 10)) 255 < 254)%Z
  /\ (Z.land (Math_floor (-1033 # 4)) 255 < 254)%Z
  /\ exists n v, Noise.constructor (1 # 2) = Ok n
       /\ Noise.perlin2 n (37 # 10) (-1033 # 4) = Ok v
       /\ let fx := (37 # 10) - inject_Z (Math_floor (37 # 10)) in
          let fy := (-1033 # 4) - inject_Z (Math_floor (-1033 # 4)) in
          v == fx + fy - Noise.fade fx - Noise.fade fy.
Proof.
  assert (G0 : 0 <= 1 # 2) by discriminate.
  assert (G1 : 1 # 2 < 1) by reflexivity.
  assert (G2 : (Z.land (Math_floor (37 # 10)) 255 < 254)%Z) by reflexivity.
  assert (G3 : (Z.land (Math_floor (-1033 # 4)) 255 < 254)%Z) by reflexivity.
  split; [exact G0|]. split; [exact G1|]. split; [exact G2|]. split; [exact G3|].
  exact (perlin2_same_in_every_cell (1 # 2) (37 # 10) (-1033 # 4) G0 G1 G2 G3).
Defined.

(** ** Seeds outside [0, 1) *)

Module SeedFacts.
Import Noise NoiseSpec NoiseFacts NoiseRange.

(** For a dividend that is not negative [%] returns a value below the
    modulus. *)
Lemma js_rem_range (a m : Q) :
  0 <= a -> 0 < m -> exists r, js_rem a m = Ok r /\ 0 <= r /\ r < m.
Proof.
  intros Ha Hm. unfold js_rem. rewrite fdiv_nonzero by lra. cbn [bind].
  eexists. split; [reflexivity|].
  assert (Hq : 0 <= a / m) by (apply Qle_shift_div_l; lra).
  unfold Qtrunc. apply Qle_bool_iff in Hq. rewrite Hq.
  pose proof (Qfloor_le (a / m)) as Hl.
  pose proof (Qlt_floor (a / m)) as Hu.
  rewrite inject_Z_plus in Hu. change (inject_Z 1) with 1 in Hu.
  set (k := inject_Z (Qfloor (a / m))) in *.
  assert (E : a == m * (a / m)) by (field; lra).
  assert (m * k <= m * (a / m)) by (apply Qmult_le_l; assumption).
  assert (m * (a / m) < m * (k + 1)) by (apply Qmult_lt_l; assumption).
  split; lra.
Qed.

(** One round of the first loop takes any seed that is not negative into
    [0, 1). *)
Lemma first_round (seed : Q) :
  0 <= seed ->
  exists s', (s <- js_rem (seed * 16807) 2147483647 ;; fdiv s 2147483647) = Ok s'
             /\ 0 <= s' /\ s' < 1.
Proof.
  intros H.
  destruct (js_rem_range (seed * 16807) 2147483647) as (r & Hr & R0 & R1);
    [lra | reflexivity|].
  rewrite Hr. cbn [bind]. rewrite fdiv_Ok by reflexivity.
  eexists. split; [reflexivity|]. split.
  - apply Qle_shift_div_l; lra.
  - apply Qlt_shift_div_r; lra.
Qed.

Lemma fill_256_nonneg (seed : Q) :
  0 <= seed ->
  exists b seed',
    fill 256 0 [] seed
    = Ok (Math_floor (seed * 256) :: b :: repeat 0%Z 254, seed')
    /\ (0 <= b <= 255)%Z /\ small 255 seed'.
Proof.
  intros H0.
  change (fill 256 0 [] seed) with
    (p <- aset [] 0 (Math_floor (seed * 256)) ;;
     s <- js_rem (seed * 16807) 2147483647 ;;
     s <- fdiv s 2147483647 ;;
     fill 255 1 p s).
  change (aset [] 0 (Math_floor (seed * 256))) with (Ok [Math_floor (seed * 256)]).
  cbn [bind].
  destruct (first_round seed H0) as (s1 & Hs1 & A0 & A1).
  unfold bind in Hs1 |- *.
  destruct (js_rem (seed * 16807) 2147483647) as [r|]; [|discriminate].
  rewrite Hs1. clear r Hs1.
  set (a := Math_floor (seed * 256)).
  change (fill 255 1 [a] s1) with
    (p <- aset [a] 1 (Math_floor (s1 * 256)) ;;
     s <- js_rem (s1 * 16807) 2147483647 ;;
     s <- fdiv s 2147483647 ;;
     fill 254 2 p s).
  change (aset [a] 1 (Math_floor (s1 * 256))) with (Ok [a; Math_floor (s1 * 256)]).
  cbn [bind].
  destruct (next_seed s1) as (s2 & Hs2 & E2); [lra | lra|].
  unfold bind in Hs2 |- *.
  destruct (js_rem (s1 * 16807) 2147483647) as [r|]; [|discriminate].
  rewrite Hs2. clear r Hs2.
  assert (S2 : small 1 s2).
  { apply (next_seed_small 0 s1); [|assumption].
    split; [assumption|]. change (pow2 (16 * 0)) with 1. lra. }
  destruct (fill_zeros 254 1 [a; Math_floor (s1 * 256)] s2) as (seed' & HF & HS);
    [lia | assumption|].
  exists (Math_floor (s1 * 256)), seed'.
  split; [exact HF|]. split; [apply seed_entry; assumption | exact HS].
Qed.

Lemma shuffle0_wide (a b : Z) :
  shuffle0 255 (a :: b :: repeat 0%Z 254) = Ok (wide_table a b).
Proof. vm_compute. reflexivity. Qed.

Lemma double_wide (a b : Z) :
  double (wide_table a b) = Ok (wide_table a b ++ wide_table a b).
Proof. vm_compute. reflexivity. Qed.

Lemma constructor_nonneg (seed : Q) :
  0 <= seed ->
  exists b, (0 <= b <= 255)%Z /\
    constructor seed =
    Ok (mk grad3_table (wide_table (Math_floor (seed * 256)) b)
          (wide_table (Math_floor (seed * 256)) b
           ++ wide_table (Math_floor (seed * 256)) b)
          (map (fun e => Z.rem e 12)
             (wide_table (Math_floor (seed * 256)) b
              ++ wide_table (Math_floor (seed * 256)) b))).
Proof.
  intros H0. unfold constructor.
  destruct (fill_256_nonneg seed H0) as (b & s1 & HF & Hb & Hs1).
  exists b. split; [assumption|].
  rewrite HF. cbn [bind].
  assert (T : tiny 255 s1).
  { destruct Hs1 as [G0 G1]. split; [assumption|].
    assert (pow2 (15 * 255) <= pow2 (16 * 255)) by (apply pow2_le; lia).
    pose proof (pow2_pos (15 * 255)). nra. }
  destruct (shuffle_is_shuffle0 255 _ _ s1 ltac:(lia) T
              (shuffle0_wide (Math_floor (seed * 256)) b)) as (s2 & HS).
  rewrite HS. cbn [bind]. rewrite double_wide. reflexivity.
Qed.

Lemma wide_table_length a b : length (wide_table a b) = 256%nat.
Proof. reflexivity. Qed.

Lemma wide_table_nonneg a b :
  (0 <= a)%Z -> (0 <= b)%Z -> Forall (fun e => 0 <= e)%Z (wide_table a b).
Proof.
  intros Ha Hb. unfold wide_table. constructor; [assumption|].
  apply Forall_app. split.
  - apply Forall_forall. intros e He. apply repeat_spec in He. lia.
  - repeat constructor; assumption.
Qed.

Lemma wide_lookup a b :
  aget_def (wide_table a b ++ wide_table a b) 255 = Ok a
  /\ aget_def (wide_table a b ++ wide_table a b) 256 = Ok b.
Proof. split; reflexivity. Qed.

Lemma aget_def_beyond {A} (l : list A) (i : Z) :
  (Z.of_nat (length l) <= i)%Z -> aget_def l i = Err TypeError.
Proof.
  intros H. unfold aget_def, aget.
  destruct (Z.ltb_spec i 0); [reflexivity|].
  destruct (nth_error l (Z.to_nat i)) eqn:E; [|reflexivity].
  assert (nth_error l (Z.to_nat i) <> None) as N by congruence.
  apply nth_error_Some in N. lia.
Qed.

(** Inside a table of 512 entries that are not negative every gradient
    lookup succeeds; beyond it the lookup throws. *)
Lemma gradient_inside (n : t) (k : Z) :
  grad3 n = grad3_table -> length (perm n) = 512%nat ->
  Forall (fun e => 0 <= e)%Z (perm n) ->
  permMod12 n = map (fun e => Z.rem e 12) (perm n) ->
  (0 <= k < 512)%Z -> exists g, gradient n k = Ok g.
Proof.
  intros Hg Hl Hp Hm Hk. unfold gradient.
  assert (HF : Forall (fun m => 0 <= m <= 11)%Z (permMod12 n)).
  { rewrite Hm. apply Forall_map. eapply Forall_impl; [|exact Hp].
    intros e He. cbv beta in *. pose proof (Z.rem_bound_pos e 12). lia. }
  destruct (aget_def_Forall _ (permMod12 n) k HF) as (m & Em & Rm).
  { rewrite Hm, length_map, Hl. lia. }
  rewrite Em. cbn [bind]. rewrite Hg.
  assert (m = 0 \/ m = 1 \/ m = 2 \/ m = 3 \/ m = 4 \/ m = 5 \/ m = 6
          \/ m = 7 \/ m = 8 \/ m = 9 \/ m = 10 \/ m = 11)%Z as C by lia.
  repeat (destruct C as [C|C]; [subst m; eexists; reflexivity|]).
  subst m; eexists; reflexivity.
Qed.

Lemma gradient_beyond (n : t) (k : Z) :
  length (permMod12 n) = 512%nat -> (512 <= k)%Z ->
  gradient n k = Err TypeError.
Proof.
  intros Hl Hk. unfold gradient.
  rewrite aget_def_beyond by (rewrite Hl; lia). reflexivity.
Qed.

End SeedFacts.

(** X6.  For every seed that is not negative and keeps the constructor
    within the finite doubles, that is with [seed * 16807] below the
    overflow bound (seeds up to about 1.07e304), the constructor returns.
    The base table holds [floor (256 seed)] at index 255, a value of
    [0, 255] at index 0 and zero everywhere else, and the 512-entry table is
    the base table twice over; for a seed of 1 or more the entry at 255 is
    256 or more.  Of the value at index 0, the remainder of the first round,
    only the range is stated: which value it is depends on how the source
    rounds the product. *)
Theorem constructor_nonnegative_seed (seed : Q) :
  NoiseSpec.finite_seed seed ->
  exists n b, Noise.constructor seed = Ok n
    /\ (0 <= b <= 255)%Z
    /\ Noise.p n = b :: repeat 0%Z 254 ++ [Math_floor (seed * 256)]
    /\ Noise.perm n = Noise.p n ++ Noise.p n
    /\ Noise.permMod12 n = map (fun e => Z.rem e 12) (Noise.perm n)
    /\ (256 * Qfloor seed <= Math_floor (seed * 256))%Z.
Proof.
  intros [H0 _].
  destruct (SeedFacts.constructor_nonneg seed H0) as (b & Hb & E).
  eexists. exists b. split; [exact E|]. cbn [Noise.p Noise.perm Noise.permMod12].
  split; [assumption|]. split; [reflexivity|]. split; [reflexivity|].
  split; [reflexivity|].
  unfold Math_floor.
  pose proof (Qfloor_le seed) as Hl.
  pose proof (Qlt_floor (seed * 256)) as Hu.
  assert (256 * Qfloor seed < Qfloor (seed * 256) + 1)%Z; [|lia].
  rewrite Zlt_Qlt. rewrite inject_Z_mult. change (inject_Z 256) with 256. lra.
Qed.

Lemma constructor_nonnegative_seed_witness :
  NoiseSpec.finite_seed (5 # 2) /\
  exists n b, Noise.constructor (5 # 2) = Ok n
    /\ (0 <= b <= 255)%Z
    /\ Noise.p n = b :: repeat 0%Z 254 ++ [Math_floor ((5 # 2) * 256)]
    /\ Noise.perm n = Noise.p n ++ Noise.p n
    /\ Noise.permMod12 n = map (fun e => Z.rem e 12) (Noise.perm n)
    /\ (256 * Qfloor (5 # 2) <= Math_floor ((5 # 2) * 256))%Z.
Proof.
  assert (G0 : NoiseSpec.finite_seed (5 # 2)).
  { split; [discriminate | vm_compute; reflexivity]. }
  split; [exact G0|].
  exact (constructor_nonnegative_seed (5 # 2) G0).
Defined.

(** X7.  A seed that is too large makes [perlin2] throw.  When the column
    of the sampled cell is 255 (modulo 256) and [floor (256 seed)] plus the
    row (modulo 256) is 511 or more, which holds in every row for a seed of
    2 or more, a gradient index falls beyond the 512-entry table and the
    dot product reads a component of [undefined]. *)
Theorem perlin2_throws_for_large_seed (seed x y : Q) :
  0 <= seed ->
  Z.land (Math_floor x) 255 = 255%Z ->
  (511 <= Math_floor (seed * 256) + Z.land (Math_floor y) 255)%Z ->
  exists n, Noise.constructor seed = Ok n
    /\ Noise.perlin2 n x y = Err TypeError.
Proof.
  intros H0 HX HA.
  destruct (SeedFacts.constructor_nonneg seed H0) as (b & Hb & E).
  eexists. split; [exact E|].
  pose proof (NoiseRange.land_255 (Math_floor y)) as HY.
  set (a := Math_floor (seed * 256)) in *.
  set (Y := Z.land (Math_floor y) 255) in *.
  set (n := Noise.mk _ _ _ _).
  assert (Ha : (0 <= a)%Z).
  { unfold a, Math_floor. pose proof (Qlt_floor (seed * 256)) as Hu.
    assert (0 < Qfloor (seed * 256) + 1)%Z; [|lia].
    rewrite Zlt_Qlt. change (inject_Z 0) with 0. lra. }
  assert (Hlen : length (Noise.perm n) = 512%nat) by reflexivity.
  assert (Hmlen : length (Noise.permMod12 n) = 512%nat) by reflexivity.
  assert (Hnn : Forall (fun e => 0 <= e)%Z (Noise.perm n)).
  { cbn [n Noise.perm]. apply Forall_app.
    split; apply SeedFacts.wide_table_nonneg; lia. }
  unfold Noise.perlin2. rewrite HX.
  destruct (SeedFacts.wide_lookup a b) as [L255 L256].
  change (Noise.perm n) with (NoiseSpec.wide_table a b ++ NoiseSpec.wide_table a b).
  rewrite L255. cbn [bind].
  change (255 + 1)%Z with 256%Z. rewrite L256. cbn [bind].
  fold Y.
  destruct (Z_lt_le_dec (a + Y) 512) as [Hin|Hout].
  - destruct (SeedFacts.gradient_inside n (a + Y)) as (gA & EA);
      [reflexivity | assumption | assumption | reflexivity | lia|].
    destruct (SeedFacts.gradient_inside n (b + Y)) as (gB & EB);
      [reflexivity | assumption | assumption | reflexivity | lia|].
    rewrite EA. cbn [bind]. rewrite EB. cbn [bind].
    rewrite SeedFacts.gradient_beyond by (assumption || lia). reflexivity.
  - rewrite SeedFacts.gradient_beyond by (assumption || lia). reflexivity.
Qed.

Lemma perlin2_throws_for_large_seed_witness :
  0 <= 2 /\ Z.land (Math_floor (511 # 2)) 255 = 255%Z
  /\ (511 <= Math_floor (2 * 256) + Z.land (Math_floor (1 # 3)) 255)%Z
  /\ exists n, Noise.constructor 2 = Ok n
       /\ Noise.perlin2 n (511 # 2) (1 # 3) = Err TypeError.
Proof.
  assert (G0 : 0 <= 2) by discriminate.
  assert (G1 : Z.land (Math_floor (511 # 2)) 255 = 255%Z) by reflexivity.
  assert (G2 : (511 <= Math_floor (2 * 256) + Z.land (Math_floor (1 # 3)) 255)%Z)
    by discriminate.
  split; [exact G0|]. split; [exact G1|]. split; [exact G2|].
  exact (perlin2_throws_for_large_seed 2 (511 # 2) (1 # 3) G0 G1 G2).
Defined.

(** ** The geometry of the grid *)

Module GeometryFacts.
Import AWaves GridSpec GridFacts.

Lemma nth_error_seq_in (len : nat) : forall s k,
  (k < len)%nat -> nth_error (seq s len) k = Some (s + k)%nat.
Proof.
  induction len as [|len IH]; intros s k H; [lia|].
  destruct k as [|k]; simpl.
  - f_equal. lia.
  - rewrite IH by lia. f_equal. lia.
Qed.

Lemma upto_lookup (total i : Z) :
  (0 <= i <= total)%Z -> aget (upto total) i = Some i.
Proof.
  intros H. unfold aget, upto.
  destruct (Z.ltb_spec i 0); [lia|].
  rewrite nth_error_map, nth_error_seq_in by lia.
  simpl. f_equal. lia.
Qed.

Lemma aget_map {A B} (f : A -> B) (l : list A) (i : Z) :
  aget (map f l) i = option_map f (aget l i).
Proof.
  unfold aget. destruct (i <? 0)%Z; [reflexivity|]. apply nth_error_map.
Qed.

(** The point in line [i] at position [j]. *)
Lemma grid_lookup r i j :
  (0 <= i <= totalLines r)%Z -> (0 <= j <= totalPoints r)%Z ->
  exists line, aget (grid r) i = Some line
    /\ aget line j = Some (new_point (xStart r) (yStart r) i j).
Proof.
  intros Hi Hj. unfold grid.
  eexists. split.
  - rewrite aget_map, upto_lookup by assumption. reflexivity.
  - rewrite aget_map, upto_lookup by assumption. reflexivity.
Qed.

Lemma ceil_covers (a : Q) (g : Q) :
  0 < g -> a <= g * inject_Z (Math_ceil (a / g)).
Proof.
  intros Hg. unfold Math_ceil. pose proof (Qle_ceiling (a / g)) as H.
  assert (E : a == g * (a / g)) by (field; lra).
  assert (g * (a / g) <= g * inject_Z (Qceiling (a / g)))
    by (apply Qmult_le_l; assumption).
  lra.
Qed.

End GeometryFacts.

(** X8.  The grid that [setLines] builds is regular, centred and larger
    than the container.  The point at position [j] of line [i] lies at
    [(x0 + 12 i, y0 + 36 j)], so the points of a line share their x
    coordinate; the first and the last line are mirror images about the
    vertical centre line of the container and lie at least 100 outside it,
    and the first and the last point of a line do the same vertically with
    at least 30. *)
Theorem setLines_geometry (st : AWaves.t) (i j : Z) :
  let w := Rect.width (AWaves.bounding st) in
  let h := Rect.height (AWaves.bounding st) in
  let tl := Math_ceil ((w + 200) / 12) in
  let tp := Math_ceil ((h + 60) / 36) in
  let x0 := (w - 12 * inject_Z tl) / 2 in
  let y0 := (h - 36 * inject_Z tp) / 2 in
  (0 <= i <= tl)%Z -> (0 <= j <= tp)%Z ->
  exists st' line p,
    AWaves.setLines st = Ok st'
    /\ aget (AWaves.lines st') i = Some line /\ aget line j = Some p
    /\ Point.x p = x0 + 12 * inject_Z i /\ Point.y p = y0 + 36 * inject_Z j
    /\ Point.wave p = Wave.mk 0 0
    /\ x0 <= -100 /\ w + 100 <= x0 + 12 * inject_Z tl
    /\ x0 + (x0 + 12 * inject_Z tl) == w
    /\ y0 <= -30 /\ h + 30 <= y0 + 36 * inject_Z tp
    /\ y0 + (y0 + 36 * inject_Z tp) == h.
Proof.
  intros w h tl tp x0 y0 Hi Hj.
  destruct (GeometryFacts.grid_lookup (AWaves.bounding st) i j Hi Hj)
    as (line & Hl & Hp).
  eexists. exists line. eexists.
  split; [apply GridFacts.setLines_grid|]. cbn [AWaves.lines].
  split; [exact Hl|]. split; [exact Hp|].
  split; [reflexivity|]. split; [reflexivity|]. split; [reflexivity|].
  pose proof (GeometryFacts.ceil_covers (w + 200) 12 ltac:(reflexivity)) as Cw.
  pose proof (GeometryFacts.ceil_covers (h + 60) 36 ltac:(reflexivity)) as Ch.
  fold tl in Cw. fold tp in Ch.
  assert (Ex : x0 == (w - 12 * inject_Z tl) * (1 # 2)) by (unfold x0; field).
  assert (Ey : y0 == (h - 36 * inject_Z tp) * (1 # 2)) by (unfold y0; field).
  repeat split; lra.
Qed.

Lemma setLines_geometry_witness :
  let st := blank (Rect.mk 0 0 1000 800) in
  (0 <= 100 <= Math_ceil ((1000 + 200) / 12))%Z
  /\ (0 <= 24 <= Math_ceil ((800 + 60) / 36))%Z
  /\ exists st' line p,
       AWaves.setLines st = Ok st'
       /\ aget (AWaves.lines st') 100 = Some line /\ aget line 24 = Some p
       /\ Point.x p
          = (1000 - 12 * inject_Z (Math_ceil ((1000 + 200) / 12))) / 2
            + 12 * inject_Z 100
       /\ Point.y p
          = (800 - 36 * inject_Z (Math_ceil ((800 + 60) / 36))) / 2
            + 36 * inject_Z 24
       /\ Point.wave p = Wave.mk 0 0
       /\ (1000 - 12 * inject_Z (Math_ceil ((1000 + 200) / 12))) / 2 <= -100
       /\ 1000 + 100
          <= (1000 - 12 * inject_Z (Math_ceil ((1000 + 200) / 12))) / 2
             + 12 * inject_Z (Math_ceil ((1000 + 200) / 12))
       /\ (1000 - 12 * inject_Z (Math_ceil ((1000 + 200) / 12))) / 2
          + ((1000 - 12 * inject_Z (Math_ceil ((1000 + 200) / 12))) / 2
             + 12 * inject_Z (Math_ceil ((1000 + 200) / 12))) == 1000
       /\ (800 - 36 * inject_Z (Math_ceil ((800 + 60) / 36))) / 2 <= -30
       /\ 800 + 30
          <= (800 - 36 * inject_Z (Math_ceil ((800 + 60) / 36))) / 2
             + 36 * inject_Z (Math_ceil ((800 + 60) / 36))
       /\ (800 - 36 * inject_Z (Math_ceil ((800 + 60) / 36))) / 2
          + ((800 - 36 * inject_Z (Math_ceil ((800 + 60) / 36))) / 2
             + 36 * inject_Z (Math_ceil ((800 + 60) / 36))) == 800.
Proof.
  intros st.
  assert (G1 : (0 <= 100 <= Math_ceil ((1000 + 200) / 12))%Z)
    by (split; discriminate).
  assert (G2 : (0 <= 24 <= Math_ceil ((800 + 60) / 36))%Z)
    by (split; discriminate).
  split; [exact G1|]. split; [exact G2|].
  exact (setLines_geometry st 100 24 G1 G2).
Defined.

(** ** More about the running element *)

Module MoreFacts.
Import AWaves GridSpec GridFacts RunSpec RunFacts MoreSpec.

Section WithMath.
Context {M : MathLib}.

Lemma mapM_map {A B C} (f : A -> res B) (g : A -> C) (g' : B -> C) :
  (forall a b, f a = Ok b -> g' b = g a) ->
  forall l l', mapM f l = Ok l' -> map g' l' = map g l.
Proof.
  intros Hf. induction l as [|a l IH]; intros l' H; simpl in H.
  - inversion H. reflexivity.
  - ok_step H. ok_step H. inversion H; subst. simpl. f_equal; eauto.
Qed.

Lemma movePoint_base time m n p p' :
  movePoint time m n p = Ok p' ->
  (Point.x p', Point.y p') = (Point.x p, Point.y p).
Proof.
  unfold movePoint. intros H.
  ok_step H. ok_step H. destruct a0 as [vx vy].
  inversion H; subst. reflexivity.
Qed.

Lemma movePoints_base time st st' :
  movePoints time st = Ok st' -> base st' = base st.
Proof.
  unfold movePoints, base. intros H. ok_step H. inversion H; subst.
  cbn [lines].
  eapply mapM_map; [|eassumption].
  intros l l' Hl. eapply mapM_map; [|eassumption].
  intros p p'. apply movePoint_base.
Qed.

Lemma tick_base time st st' : tick time st = Ok st' -> base st' = base st.
Proof.
  intros H. destruct (isVisible st) eqn:V.
  - unfold tick in H. rewrite V in H. cbn [negb] in H. ok_step H.
    apply movePoints_base in Ha. apply drawLines_spec in H.
    destruct H as (E & _). unfold base in *. rewrite E. exact Ha.
  - rewrite tick_hidden in H by assumption. inversion H; subst. reflexivity.
Qed.

Lemma step_base e st st' :
  ~ resize_event e -> step e st = Ok st' -> base st' = base st.
Proof.
  intros N H. destruct e as [r|px py sc|ts sc|h|time]; cbn [step] in H.
  - contradiction N; exact I.
  - inversion H; subst. reflexivity.
  - unfold onTouchMove in H. ok_step H. destruct a as [cx cy].
    inversion H; subst. reflexivity.
  - inversion H; subst. reflexivity.
  - eapply tick_base; eassumption.
Qed.

Lemma run_base evs : forall st st',
  Forall (fun e => ~ resize_event e) evs -> run evs st = Ok st' ->
  base st' = base st.
Proof.
  induction evs as [|e evs IH]; intros st st' N H; cbn [run] in H.
  - inversion H; subst. reflexivity.
  - inversion N; subst. ok_step H.
    rewrite (IH a st') by assumption. eapply step_base; eassumption.
Qed.

Lemma connectedCallback_base r seed st :
  connectedCallback r seed = Ok st ->
  base st = map (map (fun p => (Point.x p, Point.y p))) (grid r).
Proof.
  unfold connectedCallback. intros H. ok_step H.
  rewrite setLines_grid in H. cbn [bind] in H.
  apply tick_base in H. rewrite H. reflexivity.
Qed.

Lemma step_visibility e st st' :
  step e st = Ok st' -> isVisible st' = visible_next (isVisible st) e.
Proof.
  intros H. destruct e as [r|px py sc|ts sc|h|time];
    cbn [step] in H; cbn [visible_next].
  - unfold onResize in H. rewrite setLines_grid in H. inversion H; subst.
    reflexivity.
  - inversion H; subst. reflexivity.
  - unfold onTouchMove in H. ok_step H. destruct a as [cx cy].
    inversion H; subst. reflexivity.
  - inversion H; subst. reflexivity.
  - destruct (isVisible st) eqn:V.
    + apply (tick_visible time st st' V H).
    + rewrite tick_hidden in H by assumption. inversion H; subst. exact V.
Qed.

Lemma run_visibility evs : forall st st',
  run evs st = Ok st' -> isVisible st' = fold_left visible_next evs (isVisible st).
Proof.
  induction evs as [|e evs IH]; intros st st' H; cbn [run] in H.
  - inversion H; subst. reflexivity.
  - ok_step H. cbn [fold_left].
    rewrite <- (step_visibility e st a Ha). apply IH. assumption.
Qed.

Lemma connectedCallback_visible r seed st :
  connectedCallback r seed = Ok st -> isVisible st = true.
Proof.
  unfold connectedCallback. intros H. ok_step H.
  rewrite setLines_grid in H. cbn [bind] in H.
  apply tick_visible in H; [|reflexivity]. apply H.
Qed.

(** After [connectedCallback] and the events the element knows whether the
    page is visible. *)
Lemma session_visibility r seed evs st :
  (st0 <- connectedCallback r seed ;; run evs st0) = Ok st ->
  isVisible st = visible_after evs.
Proof.
  intros E. apply bind_inv in E. destruct E as (st0 & E0 & E).
  rewrite (run_visibility evs st0 st E).
  rewrite (connectedCallback_visible r seed st0 E0). reflexivity.
Qed.

Lemma draw_all_Forall2 ls : forall ps ps',
  length ps = length ls -> draw_all ls ps = Ok ps' ->
  Forall2 (fun points path => exists d, draw_line points = Ok d /\ path = Some d)
    ls ps'.
Proof.
  induction ls as [|l ls IH]; intros ps ps' Hlen H.
  - destruct ps; [|discriminate]. simpl in H. inversion H. constructor.
  - destruct ps as [|pth ps]; [discriminate|]. cbn [draw_all] in H.
    ok_step H. ok_step H. inversion H; subst.
    constructor; [eauto|]. apply (IH ps); [simpl in Hlen; lia | assumption].
Qed.

End WithMath.
End MoreFacts.

Section RunningMore.
Import AWaves GridSpec RunSpec RunFacts MoreSpec MoreFacts.
Context {M : MathLib}.

(** X9.  As long as the window is not resized, every point keeps the base
    position that [setLines] gave it: frames, pointer events and visibility
    changes move the wave and cursor offsets only. *)
Theorem base_positions_fixed (r : Rect.t) (seed : Q) (evs : list event) :
  0 <= seed -> seed < 1 -> good_rect r -> Forall good_event evs ->
  Forall (fun e => ~ resize_event e) evs ->
  exists st,
    (st0 <- connectedCallback r seed ;; run evs st0) = Ok st
    /\ base st = map (map (fun p => (Point.x p, Point.y p))) (grid r)
    /\ Z.of_nat (length (lines st))
       = (Math_ceil ((Rect.width r + 200) / 12) + 1)%Z.
Proof.
  intros H0 H1 Gr Ge Nr.
  destruct (session_total r seed evs H0 H1 Gr Ge) as (st & E & _).
  exists st. split; [assumption|].
  apply bind_inv in E. destruct E as (st0 & E0 & E).
  assert (B : base st = map (map (fun p => (Point.x p, Point.y p))) (grid r)).
  { rewrite (run_base evs st0 st Nr E). apply connectedCallback_base with seed.
    assumption. }
  split; [exact B|].
  assert (L : length (lines st) = length (grid r)).
  { unfold base in B. apply (f_equal (@length _)) in B.
    rewrite !length_map in B. exact B. }
  rewrite L, GridFacts.grid_length.
  assert (0 < totalLines r)%Z.
  { apply GridFacts.ceil_pos, Qlt_shift_div_l; [reflexivity|].
    destruct Gr as [Gw _]. lra. }
  unfold totalLines in *. lia.
Qed.

(** X10.  After every frame drawn while the page is visible each path
    carries the rendering of its own line: there is one path per line, in
    the same order, and the [d] attribute of each is what [drawLines]
    computes from that line's points.  The page is visible when the last
    visibility change said so, however often it was hidden before, and when
    there was none. *)
Theorem paths_follow_lines (r : Rect.t) (seed : Q) (evs : list event)
  (time : Q) :
  0 <= seed -> seed < 1 -> good_rect r -> Forall good_event evs ->
  visible_after evs = true ->
  exists st st',
    (st0 <- connectedCallback r seed ;; run evs st0) = Ok st
    /\ tick time st = Ok st'
    /\ Forall2 (fun points path =>
                  exists d, draw_line points = Ok d /\ path = Some d)
         (lines st') (paths st').
Proof.
  intros H0 H1 Gr Ge Nh.
  destruct (session_total r seed evs H0 H1 Gr Ge) as (st & E & L & _).
  destruct (tick_total time st L) as (st' & E').
  exists st, st'. split; [assumption|]. split; [assumption|].
  assert (V : isVisible st = true).
  { rewrite (session_visibility r seed evs st E). exact Nh. }
  unfold tick in E'. rewrite V in E'. cbn [negb] in E'.
  apply bind_inv in E'. destruct E' as (st1 & E1 & E2).
  pose proof (movePoints_spec _ _ _ E1) as (_ & F2 & _ & P1 & _).
  cbn [with_mouse lines paths] in F2, P1.
  destruct (Forall2_nonempty _ _ F2 (live_lines st L)) as [_ N2].
  unfold drawLines in E2. apply bind_inv in E2. destruct E2 as (ps & Eps & E2).
  inversion E2; subst. cbn [lines paths].
  apply (draw_all_Forall2 (lines st1) (paths st1) ps); [|assumption].
  rewrite P1, N2. apply L.
Qed.

End RunningMore.

(** ** Forces, bounds and the pointer *)

Module ForceFacts.
Import AWaves GridSpec GridFacts RunSpec RunFacts MoreSpec MoreFacts.

Section WithMath.
Context {M : MathLib}.

Lemma clamp_zero c : c == 0 -> clamp c == 0.
Proof.
  intros H. unfold clamp, Math_min, Math_max.
  destruct (Q.max_spec (-80) c) as [[K E]|[K E]];
    destruct (Q.min_spec 80 (Qmax (-80) c)) as [[L F]|[L F]]; lra.
Qed.

Lemma clamp_inside c : -80 <= c -> c <= 80 -> clamp c == c.
Proof.
  intros H0 H1. unfold clamp, Math_min, Math_max.
  destruct (Q.max_spec (-80) c) as [[K E]|[K E]];
    destruct (Q.min_spec 80 (Qmax (-80) c)) as [[L F]|[L F]]; lra.
Qed.

(** The point a successful [movePoint] returns; [ax] and [ay] are what the
    pointer adds to the velocity. *)
Lemma movePoint_result time m n p p' :
  movePoint time m n p = Ok p' ->
  exists nv ax ay,
    let c := Point.cursor p in
    let c' := Point.cursor p' in
    Point.wave p' = Wave.mk (Math_cos (nv * 12) * 28) (Math_sin (nv * 12) * 14)
    /\ Cursor.vx c' == (Cursor.vx c + ax + (0 - Cursor.x c) * 0.004) * 0.92
    /\ Cursor.vy c' == (Cursor.vy c + ay + (0 - Cursor.y c) * 0.004) * 0.92
    /\ Cursor.x c' = clamp (Cursor.x c + Cursor.vx c' * 2)
    /\ Cursor.y c' = clamp (Cursor.y c + Cursor.vy c' * 2)
    /\ ((radius m <= Math_hypot (Point.x p - Mouse.sx m) (Point.y p - Mouse.sy m)
         \/ Mouse.vs m == 0) -> ax == 0 /\ ay == 0).
Proof.
  unfold movePoint. intros H. ok_step H.
  destruct (Qlt_le_dec (Math_hypot (Point.x p - Mouse.sx m)
                          (Point.y p - Mouse.sy m)) (radius m)) as [Hlt|Hge].
  - ok_step H. ok_step Ha0. inversion Ha0; subst a0. clear Ha0.
    cbv zeta beta in H. inversion H; subst p'. clear H.
    exists a. eexists. eexists. cbv zeta. cbn [Point.wave Point.cursor
      Cursor.x Cursor.y Cursor.vx Cursor.vy].
    split; [reflexivity|]. split; [reflexivity|]. split; [reflexivity|].
    split; [reflexivity|]. split; [reflexivity|].
    intros [Hfar|Hvs]; [exfalso; lra|]. split; rewrite Hvs; ring.
  - cbn [bind] in H. inversion H; subst p'. clear H.
    exists a, 0, 0. cbv zeta. cbn [Point.wave Point.cursor
      Cursor.x Cursor.y Cursor.vx Cursor.vy].
    split; [reflexivity|]. split; [ring|]. split; [ring|].
    split; [reflexivity|]. split; [reflexivity|].
    intros _. split; reflexivity.
Qed.

Lemma clamp_comp c c' : c == c' -> clamp c == clamp c'.
Proof.
  intros H. unfold clamp, Math_min, Math_max.
  destruct (Q.max_spec (-80) c) as [[K E]|[K E]];
    destruct (Q.max_spec (-80) c') as [[K' E']|[K' E']];
    destruct (Q.min_spec 80 (Qmax (-80) c)) as [[L F]|[L F]];
    destruct (Q.min_spec 80 (Qmax (-80) c')) as [[L' F']|[L' F']]; lra.
Qed.

End WithMath.
End ForceFacts.

Module PointerFacts.
Import AWaves RunSpec RunFacts MoreSpec MoreFacts.

Section WithMath.
Context {M : MathLib}.

Lemma run_app evs1 : forall evs2 st,
  run (evs1 ++ evs2) st = (st1 <- run evs1 st ;; run evs2 st1).
Proof.
  induction evs1 as [|e evs1 IH]; intros evs2 st; [reflexivity|].
  cbn [app run]. destruct (step e st) as [st1|err]; [|reflexivity].
  cbn [bind]. apply IH.
Qed.

Lemma updateMousePosition_set x y scrollY st :
  Mouse.set (mouse (updateMousePosition x y scrollY st)) = true.
Proof.
  unfold updateMousePosition. cbn [with_mouse mouse Mouse.set].
  destruct (Mouse.set (mouse st)); reflexivity.
Qed.

Lemma updateMousePosition_later x y scrollY st :
  Mouse.set (mouse st) = true ->
  mouse (updateMousePosition x y scrollY st)
  = Mouse.mk (x - Rect.left (bounding st)) (y - Rect.top (bounding st) + scrollY)
      (Mouse.lx (mouse st)) (Mouse.ly (mouse st))
      (Mouse.sx (mouse st)) (Mouse.sy (mouse st))
      (Mouse.v (mouse st)) (Mouse.vs (mouse st)) (Mouse.a (mouse st)) true.
Proof.
  unfold updateMousePosition. cbn [with_mouse mouse Mouse.set].
  intros E. rewrite E. reflexivity.
Qed.

Lemma step_set e st st' :
  Mouse.set (mouse st) = true \/ pointer_event e ->
  step e st = Ok st' -> Mouse.set (mouse st') = true.
Proof.
  intros S H. destruct e as [r|px py sc|ts sc|h|time]; cbn [step] in H.
  - destruct S as [S|[]]. unfold onResize in H.
    rewrite GridFacts.setLines_grid in H. inversion H; subst. exact S.
  - inversion H; subst. apply updateMousePosition_set.
  - unfold onTouchMove in H. apply bind_inv in H.
    destruct H as ([cx cy] & _ & H). inversion H; subst.
    apply updateMousePosition_set.
  - destruct S as [S|[]]. inversion H; subst. exact S.
  - destruct S as [S|[]]. destruct (isVisible st) eqn:V.
    + destruct (tick_visible time st st' V H) as (Em & _). rewrite Em. exact S.
    + rewrite tick_hidden in H by assumption. inversion H; subst. exact S.
Qed.

Lemma run_set evs : forall st st',
  Mouse.set (mouse st) = true \/ Exists pointer_event evs ->
  run evs st = Ok st' -> Mouse.set (mouse st') = true.
Proof.
  induction evs as [|e evs IH]; intros st st' S H; cbn [run] in H.
  - inversion H; subst. destruct S as [S|S]; [exact S | inversion S].
  - apply bind_inv in H. destruct H as (st1 & E1 & H).
    apply (IH st1 st'); [|assumption].
    destruct S as [S|S].
    + left. eapply step_set; [left; exact S | eassumption].
    + apply Exists_cons in S. destruct S as [Hp|Hex].
      * left. eapply step_set; [right; exact Hp | eassumption].
      * right. exact Hex.
Qed.

Lemma Qpower_step (a : Q) (n : nat) :
  ~ a == 0 -> a ^ Z.of_nat (S n) == a * a ^ Z.of_nat n.
Proof.
  intros H. rewrite Nat2Z.inj_succ. unfold Z.succ.
  rewrite Qpower_plus by assumption. simpl (a ^ 1). ring.
Qed.

(** [n] frames in a row on a visible, live element: the mouse state goes
    through [track] once per frame. *)
Lemma frames_track times : forall st,
  live st -> isVisible st = true ->
  exists st', run (map Frame times) st = Ok st'
    /\ mouse st' = Nat.iter (length times) track (mouse st).
Proof.
  induction times as [|time times IH]; intros st L V.
  - exists st. split; reflexivity.
  - destruct (tick_total time st L) as (st1 & E1).
    pose proof (tick_live time st st1 L E1) as L1.
    destruct (tick_visible time st st1 V E1) as (Em & _ & _ & _ & _ & _ & V1).
    destruct (IH st1 L1 V1) as (st' & E' & Em').
    exists st'. cbn [map run step]. rewrite E1. cbn [bind].
    split; [exact E'|]. rewrite Em', Em.
    cbn [length]. rewrite Nat.iter_succ_r. reflexivity.
Qed.

Lemma iter_track_gap (n : nat) : forall m,
  Mouse.x (Nat.iter n track m) = Mouse.x m
  /\ Mouse.y (Nat.iter n track m) = Mouse.y m
  /\ Mouse.x m - Mouse.sx (Nat.iter n track m)
     == (23 # 25) ^ Z.of_nat n * (Mouse.x m - Mouse.sx m)
  /\ Mouse.y m - Mouse.sy (Nat.iter n track m)
     == (23 # 25) ^ Z.of_nat n * (Mouse.y m - Mouse.sy m).
Proof.
  induction n as [|n IH]; intros m.
  - cbn [Nat.iter nat_rect]. split; [reflexivity|]. split; [reflexivity|].
    change ((23 # 25) ^ Z.of_nat 0) with 1. split; ring.
  - rewrite Nat.iter_succ. destruct (IH m) as (Ex & Ey & Gx & Gy).
    set (mn := Nat.iter n track m) in *.
    cbn [track Mouse.x Mouse.y Mouse.sx Mouse.sy].
    split; [exact Ex|]. split; [exact Ey|].
    rewrite Qpower_step by discriminate. rewrite Ex, Ey.
    split.
    + assert (E : Mouse.x m - (Mouse.sx mn + (Mouse.x m - Mouse.sx mn) * 0.08)
                  == (23 # 25) * (Mouse.x m - Mouse.sx mn)) by ring.
      rewrite E, Gx. ring.
    + assert (E : Mouse.y m - (Mouse.sy mn + (Mouse.y m - Mouse.sy mn) * 0.08)
                  == (23 # 25) * (Mouse.y m - Mouse.sy mn)) by ring.
      rewrite E, Gy. ring.
Qed.

End WithMath.
End PointerFacts.

Section Forces.
Import AWaves RunSpec RunFacts MoreSpec MoreFacts ForceFacts PointerFacts.
Context {M : MathLib}.

(** X12.  A point at rest stays at rest when the pointer exerts no force on
    it, which is the case when the point is at least the influence radius
    away from the smoothed pointer position, and also, at any distance,
    when the smoothed velocity is zero. *)
Theorem idle_point_stays_at_rest (seed time : Q) (m : Mouse.t) (p : Point.t) :
  0 <= seed -> seed < 1 ->
  at_rest (Point.cursor p) ->
  radius m <= Math_hypot (Point.x p - Mouse.sx m) (Point.y p - Mouse.sy m)
  \/ Mouse.vs m == 0 ->
  exists n p', Noise.constructor seed = Ok n
    /\ movePoint time m n p = Ok p'
    /\ at_rest (Point.cursor p').
Proof.
  intros H0 H1 (Rx & Ry & Rvx & Rvy) Hidle.
  destruct (NoiseRange.constructor_wf seed H0 H1) as (n & Hn & W).
  destruct (movePoint_total time m n p W) as (p' & E).
  exists n, p'. split; [assumption|]. split; [assumption|].
  destruct (movePoint_result time m n p p' E)
    as (nv & ax & ay & _ & Evx & Evy & Ex & Ey & Hforce).
  cbv zeta in *. destruct (Hforce Hidle) as [Ax Ay].
  assert (Vx : Cursor.vx (Point.cursor p') == 0) by (rewrite Evx; lra).
  assert (Vy : Cursor.vy (Point.cursor p') == 0) by (rewrite Evy; lra).
  unfold at_rest. rewrite Ex, Ey.
  split; [apply clamp_zero; lra|]. split; [apply clamp_zero; lra|].
  split; assumption.
Qed.

(** X13.  When cosine and sine stay within [-1, 1], the wave offset of a
    moved point stays within 28 horizontally and 14 vertically, and the
    position drawn for the point, rounding included, stays within 108.05
    of its base position horizontally and 94.05 vertically, with the
    cursor offset or without. *)
Theorem drawn_position_bounded (seed time : Q) (m : Mouse.t) (p : Point.t)
  (b : bool) :
  bounded_math M -> 0 <= seed -> seed < 1 ->
  exists n p', Noise.constructor seed = Ok n
    /\ movePoint time m n p = Ok p'
    /\ (-28 <= Wave.x (Point.wave p') /\ Wave.x (Point.wave p') <= 28)
    /\ (-14 <= Wave.y (Point.wave p') /\ Wave.y (Point.wave p') <= 14)
    /\ (Point.x p - (2161 # 20) <= Coords.x (PathSpec.final p' b)
        /\ Coords.x (PathSpec.final p' b) <= Point.x p + (2161 # 20))
    /\ (Point.y p - (1881 # 20) <= Coords.y (PathSpec.final p' b)
        /\ Coords.y (PathSpec.final p' b) <= Point.y p + (1881 # 20)).
Proof.
  intros [Bc Bs] H0 H1.
  destruct (NoiseRange.constructor_wf seed H0 H1) as (n & Hn & W).
  destruct (movePoint_total time m n p W) as (p' & E).
  exists n, p'. split; [assumption|]. split; [assumption|].
  destruct (movePoint_result time m n p p' E) as (nv & ax & ay & Ew & _).
  pose proof (movePoint_clamped time m n p p' E) as [[Cx0 Cx1] [Cy0 Cy1]].
  pose proof (movePoint_base time m n p p' E) as Eb.
  injection Eb as Ebx Eby.
  cbv zeta in Ew. rewrite Ew. cbn [Wave.x Wave.y].
  destruct (Bc (nv * 12)) as [c0 c1]. destruct (Bs (nv * 12)) as [s0 s1].
  split; [split; lra|]. split; [split; lra|].
  unfold PathSpec.final. cbn [Coords.x Coords.y]. rewrite Ew, Ebx, Eby.
  cbn [Wave.x Wave.y].
  split.
  - destruct (PathFacts.round_rounded
                (Point.x p + Math_cos (nv * 12) * 28
                 + (if b then Cursor.x (Point.cursor p') else 0)))
      as (k & _ & R0 & R1).
    destruct b; split; lra.
  - destruct (PathFacts.round_rounded
                (Point.y p + Math_sin (nv * 12) * 14
                 + (if b then Cursor.y (Point.cursor p') else 0)))
      as (k & _ & R0 & R1).
    destruct b; split; lra.
Qed.

(** X14.  A touch event with an empty touch list makes the handler throw,
    whatever well-formed events were handled before it. *)
Theorem empty_touch_list_throws (r : Rect.t) (seed : Q)
  (evs rest : list event) (scrollY : Q) :
  0 <= seed -> seed < 1 -> good_rect r -> Forall good_event evs ->
  (st0 <- connectedCallback r seed ;;
   run (evs ++ TouchMove [] scrollY :: rest) st0) = Err TypeError.
Proof.
  intros H0 H1 Gr Ge.
  destruct (session_total r seed evs H0 H1 Gr Ge) as (st & E & _).
  apply bind_inv in E. destruct E as (st0 & E0 & E).
  rewrite E0. cbn [bind]. rewrite run_app, E. reflexivity.
Qed.

(** X15.  Over consecutive frames of a visible page without pointer input
    the smoothed pointer position closes in on the raw position
    geometrically: each frame leaves 0.92 of the gap, on both axes, and the
    raw position does not move.  The page is visible when the last
    visibility change said so, however often it was hidden before, and when
    there was none. *)
Theorem smoothed_position_converges (r : Rect.t) (seed : Q)
  (evs : list event) (times : list Q) :
  0 <= seed -> seed < 1 -> good_rect r -> Forall good_event evs ->
  visible_after evs = true ->
  exists st st',
    (st0 <- connectedCallback r seed ;; run evs st0) = Ok st
    /\ run (map Frame times) st = Ok st'
    /\ Mouse.x (mouse st') = Mouse.x (mouse st)
    /\ Mouse.y (mouse st') = Mouse.y (mouse st)
    /\ Mouse.x (mouse st') - Mouse.sx (mouse st')
       == (23 # 25) ^ Z.of_nat (length times)
          * (Mouse.x (mouse st) - Mouse.sx (mouse st))
    /\ Mouse.y (mouse st') - Mouse.sy (mouse st')
       == (23 # 25) ^ Z.of_nat (length times)
          * (Mouse.y (mouse st) - Mouse.sy (mouse st)).
Proof.
  intros H0 H1 Gr Ge Nh.
  destruct (session_total r seed evs H0 H1 Gr Ge) as (st & E & L & _).
  assert (V : isVisible st = true).
  { rewrite (session_visibility r seed evs st E). exact Nh. }
  destruct (frames_track times st L V) as (st' & E' & Em).
  exists st, st'. split; [assumption|]. split; [assumption|].
  destruct (iter_track_gap (length times) (mouse st)) as (Ex & Ey & Gx & Gy).
  rewrite Em. rewrite Ex, Ey.
  split; [reflexivity|]. split; [reflexivity|]. split; assumption.
Qed.

(** X16.  The snap of the smoothed position happens once.  After the first
    pointer event [set] is true in every later state, and a pointer update
    then changes the raw position only: the smoothed and the last position
    stay where they were. *)
Theorem pointer_snap_happens_once (r : Rect.t) (seed : Q) (evs : list event)
  (x y scrollY : Q) :
  0 <= seed -> seed < 1 -> good_rect r -> Forall good_event evs ->
  Exists pointer_event evs ->
  exists st,
    (st0 <- connectedCallback r seed ;; run evs st0) = Ok st
    /\ Mouse.set (mouse st) = true
    /\ let m' := mouse (updateMousePosition x y scrollY st) in
       Mouse.x m' = x - Rect.left (bounding st)
       /\ Mouse.y m' = y - Rect.top (bounding st) + scrollY
       /\ Mouse.sx m' = Mouse.sx (mouse st) /\ Mouse.sy m' = Mouse.sy (mouse st)
       /\ Mouse.lx m' = Mouse.lx (mouse st) /\ Mouse.ly m' = Mouse.ly (mouse st).
Proof.
  intros H0 H1 Gr Ge Hp.
  destruct (session_total r seed evs H0 H1 Gr Ge) as (st & E & _).
  exists st. split; [assumption|].
  assert (S : Mouse.set (mouse st) = true).
  { apply bind_inv in E. destruct E as (st0 & E0 & E).
    apply (run_set evs st0 st); [right; assumption | assumption]. }
  split; [exact S|].
  intros m'. subst m'. rewrite (updateMousePosition_later x y scrollY st S).
  cbn [Mouse.x Mouse.y Mouse.sx Mouse.sy Mouse.lx Mouse.ly].
  do 5 (split; [reflexivity|]). reflexivity.
Qed.

End Forces.

(** ** Samples for the further properties *)

Lemma base_positions_fixed_witness :
  let r := Rect.mk 0 0 300 200 in
  let evs := [AWaves.MouseMove 10 10 0; AWaves.Frame 16;
              AWaves.VisibilityChange true; AWaves.Frame 32;
              AWaves.VisibilityChange false; AWaves.TouchMove [(1, 2)] 0;
              AWaves.Frame 48] in
  0 <= 1 # 2 /\ 1 # 2 < 1 /\ RunSpec.good_rect r
  /\ Forall RunSpec.good_event evs
  /\ Forall (fun e => ~ MoreSpec.resize_event e) evs
  /\ exists st,
       (st0 <- @AWaves.connectedCallback coarse_math r (1 # 2) ;;
        @AWaves.run coarse_math evs st0) = Ok st
       /\ MoreSpec.base st
          = map (map (fun p => (Point.x p, Point.y p))) (GridSpec.grid r)
       /\ Z.of_nat (length (AWaves.lines st))
          = (Math_ceil ((Rect.width r + 200) / 12) + 1)%Z.
Proof.
  intros r evs.
  assert (G0 : 0 <= 1 # 2) by discriminate.
  assert (G1 : 1 # 2 < 1) by reflexivity.
  assert (Gr : RunSpec.good_rect r) by (split; discriminate).
  assert (Ge : Forall RunSpec.good_event evs).
  { repeat constructor; discriminate. }
  assert (Gn : Forall (fun e => ~ MoreSpec.resize_event e) evs).
  { repeat constructor; intros []. }
  split; [exact G0|]. split; [exact G1|]. split; [exact Gr|]. split; [exact Ge|].
  split; [exact Gn|].
  exact (@base_positions_fixed coarse_math r (1 # 2) evs G0 G1 Gr Ge Gn).
Defined.

Lemma paths_follow_lines_witness :
  let r := Rect.mk 0 0 300 200 in
  let evs := [AWaves.MouseMove 10 10 0; AWaves.Frame 16;
              AWaves.VisibilityChange true; AWaves.Frame 24;
              AWaves.Resize (Rect.mk 0 0 640 480);
              AWaves.VisibilityChange false] in
  0 <= 1 # 2 /\ 1 # 2 < 1 /\ RunSpec.good_rect r
  /\ Forall RunSpec.good_event evs
  /\ MoreSpec.visible_after evs = true
  /\ exists st st',
       (st0 <- @AWaves.connectedCallback coarse_math r (1 # 2) ;;
        @AWaves.run coarse_math evs st0) = Ok st
       /\ @AWaves.tick coarse_math 32 st = Ok st'
       /\ Forall2 (fun points path =>
                     exists d, AWaves.draw_line points = Ok d /\ path = Some d)
            (AWaves.lines st') (AWaves.paths st').
Proof.
  intros r evs.
  assert (G0 : 0 <= 1 # 2) by discriminate.
  assert (G1 : 1 # 2 < 1) by reflexivity.
  assert (Gr : RunSpec.good_rect r) by (split; discriminate).
  assert (Ge : Forall RunSpec.good_event evs).
  { repeat constructor; discriminate. }
  assert (Gn : MoreSpec.visible_after evs = true) by reflexivity.
  split; [exact G0|]. split; [exact G1|]. split; [exact Gr|]. split; [exact Ge|].
  split; [exact Gn|].
  exact (@paths_follow_lines coarse_math r (1 # 2) evs 32 G0 G1 Gr Ge Gn).
Defined.

Lemma idle_point_stays_at_rest_witness :
  let m := Mouse.mk 500 400 500 400 480 390 0 0 0 true in
  let p := Point.mk 470 380 (Wave.mk 3 (-2)) (Cursor.mk 0 0 0 0) in
  0 <= 1 # 2 /\ 1 # 2 < 1
  /\ MoreSpec.at_rest (Point.cursor p)
  /\ (AWaves.radius m
      <= @Math_hypot coarse_math (Point.x p - Mouse.sx m) (Point.y p - Mouse.sy m)
      \/ Mouse.vs m == 0)
  /\ exists n p', Noise.constructor (1 # 2) = Ok n
       /\ @AWaves.movePoint coarse_math 16 m n p = Ok p'
       /\ MoreSpec.at_rest (Point.cursor p').
Proof.
  intros m p.
  assert (G0 : 0 <= 1 # 2) by discriminate.
  assert (G1 : 1 # 2 < 1) by reflexivity.
  assert (Gp : MoreSpec.at_rest (Point.cursor p)) by (repeat split).
  assert (Gi : AWaves.radius m
               <= @Math_hypot coarse_math (Point.x p - Mouse.sx m)
                    (Point.y p - Mouse.sy m)
               \/ Mouse.vs m == 0) by (right; reflexivity).
  split; [exact G0|]. split; [exact G1|]. split; [exact Gp|]. split; [exact Gi|].
  exact (@idle_point_stays_at_rest coarse_math (1 # 2) 16 m p G0 G1 Gp Gi).
Defined.

Lemma coarse_math_bounded : MoreSpec.bounded_math coarse_math.
Proof. split; intros a; split; discriminate. Defined.

Lemma drawn_position_bounded_witness :
  let m := Mouse.mk 500 400 490 400 480 390 10 40 0 true in
  let p := Point.mk 470 380 (Wave.mk 3 (-2)) (Cursor.mk 79 (-80) 5 (-5)) in
  MoreSpec.bounded_math coarse_math /\ 0 <= 1 # 2 /\ 1 # 2 < 1
  /\ exists n p', Noise.constructor (1 # 2) = Ok n
       /\ @AWaves.movePoint coarse_math 16 m n p = Ok p'
       /\ (-28 <= Wave.x (Point.wave p') /\ Wave.x (Point.wave p') <= 28)
       /\ (-14 <= Wave.y (Point.wave p') /\ Wave.y (Point.wave p') <= 14)
       /\ (Point.x p - (2161 # 20) <= Coords.x (PathSpec.final p' true)
           /\ Coords.x (PathSpec.final p' true) <= Point.x p + (2161 # 20))
       /\ (Point.y p - (1881 # 20) <= Coords.y (PathSpec.final p' true)
           /\ Coords.y (PathSpec.final p' true) <= Point.y p + (1881 # 20)).
Proof.
  intros m p.
  assert (G0 : 0 <= 1 # 2) by discriminate.
  assert (G1 : 1 # 2 < 1) by reflexivity.
  split; [exact coarse_math_bounded|]. split; [exact G0|]. split; [exact G1|].
  exact (@drawn_position_bounded coarse_math (1 # 2) 16 m p true
           coarse_math_bounded G0 G1).
Defined.

Lemma empty_touch_list_throws_witness :
  let r := Rect.mk 0 0 300 200 in
  let evs := [AWaves.MouseMove 10 10 0; AWaves.Frame 16] in
  0 <= 1 # 2 /\ 1 # 2 < 1 /\ RunSpec.good_rect r
  /\ Forall RunSpec.good_event evs
  /\ (st0 <- @AWaves.connectedCallback coarse_math r (1 # 2) ;;
      @AWaves.run coarse_math
        (evs ++ AWaves.TouchMove [] 0 :: [AWaves.Frame 32]) st0)
     = Err TypeError.
Proof.
  intros r evs.
  assert (G0 : 0 <= 1 # 2) by discriminate.
  assert (G1 : 1 # 2 < 1) by reflexivity.
  assert (Gr : RunSpec.good_rect r) by (split; discriminate).
  assert (Ge : Forall RunSpec.good_event evs) by (repeat constructor).
  split; [exact G0|]. split; [exact G1|]. split; [exact Gr|]. split; [exact Ge|].
  exact (@empty_touch_list_throws coarse_math r (1 # 2) evs [AWaves.Frame 32] 0
           G0 G1 Gr Ge).
Defined.

Lemma smoothed_position_converges_witness :
  let r := Rect.mk 0 0 300 200 in
  let evs := [AWaves.MouseMove 10 10 0; AWaves.Frame 16;
              AWaves.VisibilityChange true; AWaves.Frame 24;
              AWaves.VisibilityChange false;
              AWaves.MouseMove 250 120 0] in
  let times := [32; 48; 64] in
  0 <= 1 # 2 /\ 1 # 2 < 1 /\ RunSpec.good_rect r
  /\ Forall RunSpec.good_event evs
  /\ MoreSpec.visible_after evs = true
  /\ exists st st',
       (st0 <- @AWaves.connectedCallback coarse_math r (1 # 2) ;;
        @AWaves.run coarse_math evs st0) = Ok st
       /\ @AWaves.run coarse_math (map AWaves.Frame times) st = Ok st'
       /\ Mouse.x (AWaves.mouse st') = Mouse.x (AWaves.mouse st)
       /\ Mouse.y (AWaves.mouse st') = Mouse.y (AWaves.mouse st)
       /\ Mouse.x (AWaves.mouse st') - Mouse.sx (AWaves.mouse st')
          == (23 # 25) ^ Z.of_nat (length times)
             * (Mouse.x (AWaves.mouse st) - Mouse.sx (AWaves.mouse st))
       /\ Mouse.y (AWaves.mouse st') - Mouse.sy (AWaves.mouse st')
          == (23 # 25) ^ Z.of_nat (length times)
             * (Mouse.y (AWaves.mouse st) - Mouse.sy (AWaves.mouse st)).
Proof.
  intros r evs times.
  assert (G0 : 0 <= 1 # 2) by discriminate.
  assert (G1 : 1 # 2 < 1) by reflexivity.
  assert (Gr : RunSpec.good_rect r) by (split; discriminate).
  assert (Ge : Forall RunSpec.good_event evs) by (repeat constructor).
  assert (Gn : MoreSpec.visible_after evs = true) by reflexivity.
  split; [exact G0|]. split; [exact G1|]. split; [exact Gr|]. split; [exact Ge|].
  split; [exact Gn|].
  exact (@smoothed_position_converges coarse_math r (1 # 2) evs times
           G0 G1 Gr Ge Gn).
Defined.

Lemma pointer_snap_happens_once_witness :
  let r := Rect.mk 20 30 300 200 in
  let evs := [AWaves.Frame 16; AWaves.MouseMove 10 10 0; AWaves.Frame 32;
              AWaves.Resize (Rect.mk 40 50 640 480)] in
  0 <= 1 # 2 /\ 1 # 2 < 1 /\ RunSpec.good_rect r
  /\ Forall RunSpec.good_event evs
  /\ Exists RunSpec.pointer_event evs
  /\ exists st,
       (st0 <- @AWaves.connectedCallback coarse_math r (1 # 2) ;;
        @AWaves.run coarse_math evs st0) = Ok st
       /\ Mouse.set (AWaves.mouse st) = true
       /\ let m' := AWaves.mouse (AWaves.updateMousePosition 500 400 25 st) in
          Mouse.x m' = 500 - Rect.left (AWaves.bounding st)
          /\ Mouse.y m' = 400 - Rect.top (AWaves.bounding st) + 25
          /\ Mouse.sx m' = Mouse.sx (AWaves.mouse st)
          /\ Mouse.sy m' = Mouse.sy (AWaves.mouse st)
          /\ Mouse.lx m' = Mouse.lx (AWaves.mouse st)
          /\ Mouse.ly m' = Mouse.ly (AWaves.mouse st).
Proof.
  intros r evs.
  assert (G0 : 0 <= 1 # 2) by discriminate.
  assert (G1 : 1 # 2 < 1) by reflexivity.
  assert (Gr : RunSpec.good_rect r) by (split; discriminate).
  assert (Ge : Forall RunSpec.good_event evs).
  { repeat constructor; discriminate. }
  assert (Gp : Exists RunSpec.pointer_event evs).
  { apply Exists_cons_tl, Exists_cons_hd. exact I. }
  split; [exact G0|]. split; [exact G1|]. split; [exact Gr|]. split; [exact Ge|].
  split; [exact Gp|].
  exact (@pointer_snap_happens_once coarse_math r (1 # 2) evs 500 400 25
           G0 G1 Gr Ge Gp).
Defined.

(** ** The element in the page *)

Module LifecycleFacts.
Import Lifecycle LifecycleSpec.

Lemma add_new (l : listener) (w : t) :
  ~ In l (listeners w) ->
  addEventListener l w
  = mk (fields w) (animationFrame w) (onResize w) (onMouseMove w)
      (onTouchMove w) (listeners w ++ [l]) (frames w) (fresh w).
Proof.
  intros H. unfold addEventListener.
  destruct (in_dec listener_eq_dec l (listeners w)); [contradiction | reflexivity].
Qed.

Lemma doc_not_bound docs tg ty m k :
  Forall doc_listener docs -> ~ In (tg, ty, Bound m k) docs.
Proof.
  intros H Hin. rewrite Forall_forall in H.
  destruct (H _ Hin) as (id & E). discriminate.
Qed.

Lemma doc_not_fresh docs n id :
  Forall (ids_below n) docs -> (n <= id)%nat ->
  ~ In (Document, visibilitychange, Arrow id) docs.
Proof.
  intros H Hn Hin. rewrite Forall_forall in H.
  specialize (H _ Hin). simpl in H. lia.
Qed.

Lemma remove_absent (l : listener) (ls : list listener) :
  ~ In l ls -> remove listener_eq_dec l ls = ls.
Proof. apply notin_remove. Qed.

Lemma bindEvents_spec (w : t) :
  Forall doc_listener (listeners w) ->
  Forall (ids_below (fresh w)) (listeners w) ->
  bindEvents w
  = mk (fields w) (animationFrame w) (Bound OnResize (fresh w))
      (Bound OnMouseMove (S (fresh w))) (Bound OnTouchMove (S (S (fresh w))))
      (listeners w ++ bound_listeners (fresh w)) (frames w)
      (S (S (S (S (fresh w))))).
Proof.
  intros Hd Hi. unfold bindEvents. cbv zeta.
  cbn [listeners onResize onMouseMove onTouchMove fields animationFrame frames
       fresh].
  rewrite (add_new (Window, resize, Bound OnResize (fresh w)));
    cbn [listeners onResize onMouseMove onTouchMove fields animationFrame
         frames fresh].
  2:{ apply doc_not_bound. assumption. }
  rewrite (add_new (Window, mousemove, Bound OnMouseMove (S (fresh w))));
    cbn [listeners onResize onMouseMove onTouchMove fields animationFrame
         frames fresh].
  2:{ intros Hin. apply in_app_or in Hin. destruct Hin as [Hin|[Hin|[]]].
      - revert Hin. apply doc_not_bound. assumption.
      - discriminate. }
  rewrite (add_new (Element, touchmove, Bound OnTouchMove (S (S (fresh w)))));
    cbn [listeners onResize onMouseMove onTouchMove fields animationFrame
         frames fresh].
  2:{ intros Hin. apply in_app_or in Hin. destruct Hin as [Hin|[Hin|[]]].
      - apply in_app_or in Hin. destruct Hin as [Hin|[Hin|[]]].
        + revert Hin. apply doc_not_bound. assumption.
        + discriminate.
      - discriminate. }
  rewrite add_new;
    cbn [listeners onResize onMouseMove onTouchMove fields animationFrame
         frames fresh].
  2:{ intros Hin. apply in_app_or in Hin. destruct Hin as [Hin|[Hin|[]]].
      - apply in_app_or in Hin. destruct Hin as [Hin|[Hin|[]]].
        + apply in_app_or in Hin. destruct Hin as [Hin|[Hin|[]]].
          * revert Hin. apply (doc_not_fresh _ (fresh w)); [assumption | lia].
          * discriminate.
        + discriminate.
      - discriminate. }
  unfold bound_listeners. rewrite <- !app_assoc. reflexivity.
Qed.

Lemma ids_below_mono n n' l : (n <= n')%nat -> ids_below n l -> ids_below n' l.
Proof.
  intros H. destruct l as [[tg ty] [m|m id|id]]; simpl; intros; try lia; trivial.
Qed.

Lemma Forall_ids_mono n n' ls :
  (n <= n')%nat -> Forall (ids_below n) ls -> Forall (ids_below n') ls.
Proof.
  intros H. apply Forall_impl. intros l. apply ids_below_mono. assumption.
Qed.

(** Listeners of the document are not reached by window and touch events. *)
Lemma dispatch_docs_skip docs i st :
  Forall doc_listener docs ->
  (forall hidden, i <> DocumentVisibilityChange hidden) ->
  dispatch docs i st = Ok st.
Proof.
  intros Hd Hi. induction Hd as [|l docs (id & El) _ IH]; [reflexivity|].
  subst l. cbn [dispatch].
  destruct i; cbn [reached]; try exact IH.
  contradiction (Hi hidden). reflexivity.
Qed.

(** However many of them there are, the [visibilitychange] listeners write
    the same value to [isVisible]. *)
Lemma dispatch_docs_visibility docs hidden : forall st,
  Forall doc_listener docs ->
  exists v,
    dispatch docs (DocumentVisibilityChange hidden) st
    = Ok (AWaves.mk (AWaves.bounding st) (AWaves.mouse st) (AWaves.lines st)
            (AWaves.paths st) (AWaves.noise st) v).
Proof.
  induction docs as [|l docs IH]; intros st Hd.
  - exists (AWaves.isVisible st). destruct st; reflexivity.
  - inversion Hd as [|l' docs' (id & El) Hd']; subst.
    cbn [dispatch reached snd call bind].
    destruct (IH (AWaves.mk (AWaves.bounding st) (AWaves.mouse st)
                    (AWaves.lines st) (AWaves.paths st) (AWaves.noise st)
                    (negb hidden)) Hd') as (v & E).
    exists v. exact E.
Qed.

Lemma dispatch_app ls1 : forall ls2 i st,
  dispatch (ls1 ++ ls2) i st = (st1 <- dispatch ls1 i st ;; dispatch ls2 i st1).
Proof.
  induction ls1 as [|l ls1 IH]; intros ls2 i st; [reflexivity|].
  cbn [app dispatch]. destruct (reached i l); [|apply IH].
  destruct (call (snd l) i st) as [st1|e]; [|reflexivity].
  cbn [bind]. apply IH.
Qed.

Lemma bind_ret {A} (m : res A) : (a <- m ;; Ok a) = m.
Proof. destruct m; reflexivity. Qed.

Section WithMath.
Context {M : MathLib}.

(** The page delivers an event to the handler that [AWaves.step] runs. *)
Lemma dispatch_attached docs k (e : AWaves.event) st :
  Forall doc_listener docs ->
  (forall time, e <> AWaves.Frame time) ->
  dispatch (docs ++ bound_listeners k) (input_of e) st = AWaves.step e st.
Proof.
  intros Hd Hf. rewrite dispatch_app.
  destruct e as [r|px py sc|ts sc|h|time]; cbn [input_of].
  - rewrite dispatch_docs_skip by (assumption || discriminate).
    cbn [bind bound_listeners dispatch reached snd call AWaves.step].
    apply bind_ret.
  - rewrite dispatch_docs_skip by (assumption || discriminate). reflexivity.
  - rewrite dispatch_docs_skip by (assumption || discriminate).
    cbn [bind bound_listeners dispatch reached snd call AWaves.step].
    apply bind_ret.
  - destruct (dispatch_docs_visibility docs h st Hd) as (v & E).
    rewrite E. reflexivity.
  - contradiction (Hf time). reflexivity.
Qed.

Lemma tick_fields time w st st' :
  fields w = Some st -> AWaves.tick time st = Ok st' ->
  tick time w
  = Ok (mk (Some st') (Some (fresh w)) (onResize w) (onMouseMove w)
          (onTouchMove w) (listeners w) (frames w ++ [fresh w]) (S (fresh w))).
Proof.
  intros Ef Et. unfold tick. rewrite Ef, Et. reflexivity.
Qed.

(** Connecting a detached element. *)
Lemma connect_detached r seed w st :
  detached w -> AWaves.connectedCallback r seed = Ok st ->
  exists w', connectedCallback true r seed w = Ok w'
    /\ attached (listeners w) st w'.
Proof.
  intros D. unfold AWaves.connectedCallback, connectedCallback. cbn [negb].
  intros H. apply bind_inv in H. destruct H as (n & En & H).
  apply bind_inv in H. destruct H as (st1 & E1 & H).
  rewrite En. cbn [bind]. rewrite E1. cbn [bind].
  rewrite bindEvents_spec;
    cbn [listeners fresh fields animationFrame frames onResize onMouseMove
         onTouchMove]; [|apply D|apply D].
  erewrite tick_fields; [|reflexivity|exact H].
  cbn [listeners fresh fields animationFrame frames onResize onMouseMove
       onTouchMove].
  eexists. split; [reflexivity|].
  pose proof (detached_fresh w D) as Hfresh.
  constructor; cbn [listeners fresh fields animationFrame frames onResize
                    onMouseMove onTouchMove].
  - reflexivity.
  - eexists. split; [reflexivity|]. rewrite (detached_frames w D).
    split; [reflexivity | lia].
  - exists (fresh w). repeat split; lia.
  - apply D.
  - eapply Forall_ids_mono; [|apply D]. lia.
Qed.

(** An event of the running element, delivered by the page. *)
Lemma step_attached docs (e : AWaves.event) st st' w :
  attached docs st w -> AWaves.step e st = Ok st' ->
  exists w', step (input_of e) w = Ok w' /\ attached docs st' w'.
Proof.
  intros A E.
  destruct (attached_frame _ _ _ A) as (h & Ea & Ef & Hh).
  destruct (attached_listeners _ _ _ A) as (k & P1 & P2 & P3 & El & Hk).
  pose proof (attached_fields _ _ _ A) as Est.
  assert (Generic : (forall time, e <> AWaves.Frame time) ->
            exists w', step (input_of e) w = Ok w' /\ attached docs st' w').
  { intros Hf.
    assert (S : step (input_of e) w
                = (s <- dispatch (listeners w) (input_of e) st ;;
                   Ok (with_fields w s))).
    { destruct e; cbn [input_of step]; rewrite Est; try reflexivity.
      contradiction (Hf time). reflexivity. }
    rewrite S, El, dispatch_attached by (assumption || apply A).
    rewrite E. cbn [bind]. eexists. split; [reflexivity|].
    constructor; cbn [with_fields listeners fresh fields animationFrame frames
                      onResize onMouseMove onTouchMove].
    - reflexivity.
    - exists h. auto.
    - exists k. auto.
    - apply A.
    - apply A. }
  destruct e as [r|px py sc|ts sc|hd|time]; try (apply Generic; discriminate).
  cbn [input_of step]. rewrite Ef.
  cbn [AWaves.step] in E.
  erewrite tick_fields; [|exact Est|exact E].
  cbn [listeners fresh fields animationFrame frames onResize onMouseMove
       onTouchMove app].
  eexists. split; [reflexivity|].
  constructor; cbn [listeners fresh fields animationFrame frames onResize
                    onMouseMove onTouchMove].
  - reflexivity.
  - eexists. split; [reflexivity|]. split; [reflexivity | lia].
  - exists k. repeat split; try assumption. lia.
  - apply A.
  - eapply Forall_ids_mono; [|apply A]. lia.
Qed.

Lemma run_attached docs (evs : list AWaves.event) : forall st st' w,
  attached docs st w -> AWaves.run evs st = Ok st' ->
  exists w', run (map input_of evs) w = Ok w' /\ attached docs st' w'.
Proof.
  induction evs as [|e evs IH]; intros st st' w A E.
  - cbn [AWaves.run] in E. inversion E; subst. exists w. split; [reflexivity|].
    assumption.
  - cbn [AWaves.run] in E. apply bind_inv in E. destruct E as (st1 & E1 & E).
    destruct (step_attached docs e st st1 w A E1) as (w1 & S1 & A1).
    destruct (IH st1 st' w1 A1 E) as (w' & R & A').
    exists w'. cbn [map run]. rewrite S1. cbn [bind]. split; assumption.
Qed.

End WithMath.

(** Disconnecting the running element. *)
Lemma disconnect_attached docs st w :
  attached docs st w ->
  exists k,
    disconnectedCallback w
    = mk (fields w) (animationFrame w) (onResize w) (onMouseMove w)
        (onTouchMove w) (docs ++ [(Document, visibilitychange, Arrow k)]) []
        (fresh w)
    /\ (k < fresh w)%nat.
Proof.
  intros A.
  destruct (attached_frame _ _ _ A) as (h & Ea & Ef & Hh).
  destruct (attached_listeners _ _ _ A) as (k & P1 & P2 & P3 & El & Hk).
  pose proof (attached_docs _ _ _ A) as Hd.
  exists (S (S (S k))). split; [|lia].
  unfold disconnectedCallback. rewrite Ea.
  destruct (Nat.eqb_spec h 0) as [Z|_]; [lia|].
  unfold cancelAnimationFrame, removeEventListener.
  cbn [listeners fresh fields animationFrame frames onResize onMouseMove
       onTouchMove].
  rewrite Ef, El, P1, P2, P3. unfold bound_listeners.
  f_equal.
  - exact Ea.
  - rewrite !remove_app.
    rewrite !(remove_absent _ docs) by (apply doc_not_bound; assumption).
    f_equal.
    repeat (cbn [remove];
            repeat match goal with
                   | |- context [listener_eq_dec ?a ?b] =>
                       destruct (listener_eq_dec a b);
                       [try discriminate; try (exfalso; congruence)
                       |try congruence]
                   end).
    all: try reflexivity.
  - cbn [remove]. destruct (Nat.eq_dec h h); [reflexivity | congruence].
Qed.

Lemma disconnect_detached docs st w :
  attached docs st w -> detached (disconnectedCallback w).
Proof.
  intros A. destruct (disconnect_attached docs st w A) as (k & E & Hk).
  rewrite E. constructor; cbn [listeners frames fresh].
  - reflexivity.
  - apply Forall_app. split; [apply A|]. repeat constructor. exists k. reflexivity.
  - apply Forall_app. split; [apply A|]. repeat constructor. exact Hk.
  - destruct (attached_frame _ _ _ A) as (h & _ & _ & Hh). lia.
Qed.

End LifecycleFacts.

Module PageFacts.
Import Lifecycle LifecycleSpec LifecycleFacts.

Lemma run_page_app {M : MathLib} (l1 : list input) : forall l2 w,
  run (l1 ++ l2) w = (w1 <- run l1 w ;; run l2 w1).
Proof.
  induction l1 as [|i l1 IH]; intros l2 w; [reflexivity|].
  cbn [app run]. destruct (step i w) as [w1|e]; [|reflexivity].
  cbn [bind]. apply IH.
Qed.

Lemma remove_twice {A} (dec : forall a b : A, {a = b} + {a <> b}) a l :
  remove dec a (remove dec a l) = remove dec a l.
Proof. apply notin_remove, remove_In. Qed.

(** What [disconnectedCallback] leaves of the element and the page. *)
Lemma disconnectedCallback_fields (w : t) :
  disconnectedCallback w
  = mk (fields w) (animationFrame w) (onResize w) (onMouseMove w)
      (onTouchMove w)
      (remove listener_eq_dec (Element, touchmove, onTouchMove w)
         (remove listener_eq_dec (Window, mousemove, onMouseMove w)
            (remove listener_eq_dec (Window, resize, onResize w)
               (listeners w))))
      (match animationFrame w with
       | Some handle =>
           if (handle =? 0)%nat then frames w
           else remove Nat.eq_dec handle (frames w)
       | None => frames w
       end)
      (fresh w).
Proof.
  unfold disconnectedCallback.
  destruct (animationFrame w) as [h|] eqn:Ea;
    [destruct (h =? 0)%nat|];
    unfold removeEventListener, cancelAnimationFrame;
    cbn [listeners fresh fields animationFrame frames onResize onMouseMove
         onTouchMove];
    rewrite ?Ea; reflexivity.
Qed.

(** A detached element does not hear the window, the touches or the frames. *)
Lemma step_detached {M : MathLib} i w :
  detached w -> quiet i -> step i w = Ok w.
Proof.
  intros D Q. pose proof (detached_docs w D) as Hd.
  pose proof (detached_frames w D) as Hf.
  assert (Skip : (forall hidden, i <> DocumentVisibilityChange hidden) ->
                 match fields w with
                 | None => Ok w
                 | Some st =>
                     st <- dispatch (listeners w) i st ;; Ok (with_fields w st)
                 end = Ok w).
  { intros Hi. destruct (fields w) as [st|] eqn:Ef; [|reflexivity].
    rewrite dispatch_docs_skip by assumption. cbn [bind]. unfold with_fields.
    rewrite <- Ef. destruct w; reflexivity. }
  destruct i; cbn [quiet] in Q; try contradiction; cbn [step];
    try (apply Skip; discriminate).
  - f_equal. unfold disconnectedCallback.
    assert (C : match animationFrame w with
                | Some handle =>
                    if (handle =? 0)%nat then w else cancelAnimationFrame handle w
                | None => w
                end = w).
    { destruct (animationFrame w) as [h|]; [|reflexivity].
      destruct (h =? 0)%nat; [reflexivity|].
      unfold cancelAnimationFrame. rewrite Hf. cbn [remove]. rewrite <- Hf.
      destruct w; reflexivity. }
    rewrite C. unfold removeEventListener.
    cbn [listeners fresh fields animationFrame frames onResize onMouseMove
         onTouchMove].
    assert (N : forall tg ty f, tg <> Document ->
                  remove listener_eq_dec (tg, ty, f) (listeners w) = listeners w).
    { intros tg ty f Ht. apply remove_absent. intros Hin.
      rewrite Forall_forall in Hd. destruct (Hd _ Hin) as (id & E).
      injection E as E1 _ _. contradiction. }
    rewrite !N by discriminate. destruct w; reflexivity.
  - rewrite Hf. reflexivity.
Qed.

(** One visit of the page: connect, events, disconnect. *)
Lemma visit {M : MathLib} w r seed evs :
  detached w -> 0 <= seed -> seed < 1 -> RunSpec.good_rect r ->
  Forall RunSpec.good_event evs ->
  exists w1 w2 st k,
    run (Connect true r seed :: map input_of evs) w = Ok w1
    /\ (st0 <- AWaves.connectedCallback r seed ;; AWaves.run evs st0) = Ok st
    /\ attached (listeners w) st w1
    /\ run (Connect true r seed :: map input_of evs ++ [Disconnect]) w = Ok w2
    /\ detached w2
    /\ fields w2 = Some st
    /\ listeners w2 = listeners w ++ [(Document, visibilitychange, Arrow k)].
Proof.
  intros D H0 H1 Gr Ge.
  destruct (RunFacts.session_total r seed evs H0 H1 Gr Ge) as (st & E & _ & _).
  pose proof E as E'.
  apply bind_inv in E'. destruct E' as (st0 & E0 & Er).
  destruct (connect_detached r seed w st0 D E0) as (w0 & C0 & A0).
  destruct (run_attached (listeners w) evs st0 st w0 A0 Er) as (w1 & R1 & A1).
  destruct (disconnect_attached _ _ _ A1) as (k & Ed & Hk).
  assert (R : run (Connect true r seed :: map input_of evs) w = Ok w1).
  { cbn [run step]. rewrite C0. cbn [bind]. exact R1. }
  exists w1, (disconnectedCallback w1), st, k.
  split; [exact R|]. split; [exact E|]. split; [exact A1|].
  split.
  { change (Connect true r seed :: map input_of evs ++ [Disconnect])
      with ((Connect true r seed :: map input_of evs) ++ [Disconnect]).
    rewrite run_page_app, R. reflexivity. }
  split; [eapply disconnect_detached; exact A1|].
  rewrite Ed. cbn [fields listeners]. split; [apply A1 | reflexivity].
Qed.

Lemma step_inert {M : MathLib} i w :
  inert w -> no_svg i -> step i w = Ok w.
Proof.
  intros [Hf Hl Hr] N.
  destruct i as [[|] r seed| |time|r|px py sc|ts sc|hidden];
    cbn [no_svg] in N; try contradiction; cbn [step];
    rewrite ?Hf, ?Hr; try reflexivity.
  f_equal. rewrite disconnectedCallback_fields. rewrite Hl, Hr. cbn [remove].
  assert (F : match animationFrame w with
              | Some handle => if (handle =? 0)%nat then [] else @nil nat
              | None => []
              end = frames w).
  { rewrite Hr. destruct (animationFrame w) as [h|]; [|reflexivity].
    destruct (h =? 0)%nat; reflexivity. }
  rewrite F, <- Hl. destruct w; reflexivity.
Qed.

Lemma visits_detached {M : MathLib} r seed (n : nat) : forall w,
  detached w -> 0 <= seed -> seed < 1 -> RunSpec.good_rect r ->
  exists w', run (visits n r seed) w = Ok w' /\ detached w'
    /\ length (listeners w') = (length (listeners w) + n)%nat.
Proof.
  induction n as [|n IH]; intros w D H0 H1 Gr.
  - exists w. split; [reflexivity|]. split; [assumption | lia].
  - destruct (visit w r seed [] D H0 H1 Gr (Forall_nil _))
      as (_ & w2 & _ & k & _ & _ & _ & R & D2 & _ & El).
    destruct (IH w2 D2 H0 H1 Gr) as (w' & R' & D' & Hlen).
    exists w'. unfold visits. cbn [repeat concat].
    change (run ([Connect true r seed; Disconnect] ++ visits n r seed) w
            = Ok w' /\ detached w'
              /\ length (listeners w') = (length (listeners w) + S n)%nat).
    rewrite run_page_app. cbn [map app] in R. rewrite R. cbn [bind].
    split; [exact R'|]. split; [exact D'|].
    rewrite Hlen, El, length_app. cbn [length]. lia.
Qed.

End PageFacts.

Section Page.
Context {M : MathLib}.
Import Lifecycle LifecycleSpec.

(** X17.  The element in the page behaves as its handlers do: connected to
    a page where it is detached, with a seed in [0, 1) and a container of
    non-negative size, and then sent the events [evs] through the listeners
    and the frame callbacks that [bindEvents] and [tick] registered, it
    does not throw, its fields are those that [connectedCallback] followed
    by the handlers of [evs] compute, exactly one animation frame is pending,
    which [animationFrame] names, and the page holds the four listeners of
    [bindEvents] after the ones it held before. *)
Theorem connected_element_follows_handlers (w : Lifecycle.t) (r : Rect.t)
    (seed : Q) (evs : list AWaves.event) :
  detached w -> 0 <= seed -> seed < 1 -> RunSpec.good_rect r ->
  Forall RunSpec.good_event evs ->
  exists w' st handle k,
    Lifecycle.run (Connect true r seed :: map input_of evs) w = Ok w'
    /\ (st0 <- AWaves.connectedCallback r seed ;; AWaves.run evs st0) = Ok st
    /\ fields w' = Some st
    /\ animationFrame w' = Some handle
    /\ frames w' = [handle]
    /\ listeners w' = listeners w ++ bound_listeners k.
Proof.
  intros D H0 H1 Gr Ge.
  destruct (PageFacts.visit w r seed evs D H0 H1 Gr Ge)
    as (w1 & _ & st & _ & R & E & A & _).
  destruct (attached_frame _ _ _ A) as (h & Ea & Ef & _).
  destruct (attached_listeners _ _ _ A) as (k & _ & _ & _ & El & _).
  exists w1, st, h, k. split; [exact R|]. split; [exact E|].
  split; [apply A|]. split; [exact Ea|]. split; [exact Ef|]. exact El.
Qed.

(** X18.  [disconnectedCallback] undoes [bindEvents] in part only: after
    connect, any events and disconnect, no animation frame is pending and
    the resize, mousemove and touchmove listeners are gone, but the
    visibilitychange listener stays on the document, so the page holds one
    listener more than before the visit; the element is detached again. *)
Theorem disconnect_leaves_visibility_listener (w : Lifecycle.t) (r : Rect.t)
    (seed : Q) (evs : list AWaves.event) :
  detached w -> 0 <= seed -> seed < 1 -> RunSpec.good_rect r ->
  Forall RunSpec.good_event evs ->
  exists w' k,
    Lifecycle.run (Connect true r seed :: map input_of evs ++ [Disconnect]) w
    = Ok w'
    /\ frames w' = []
    /\ listeners w' = listeners w ++ [(Document, visibilitychange, Arrow k)]
    /\ detached w'.
Proof.
  intros D H0 H1 Gr Ge.
  destruct (PageFacts.visit w r seed evs D H0 H1 Gr Ge)
    as (_ & w2 & _ & k & _ & _ & _ & R & D2 & _ & El).
  exists w2, k. split; [exact R|]. split; [apply D2|]. split; assumption.
Qed.

(** X19.  [disconnectedCallback] is idempotent, in every state of the
    element and the page: a second call finds nothing left to cancel or to
    remove. *)
Theorem disconnectedCallback_idempotent (w : Lifecycle.t) :
  disconnectedCallback (disconnectedCallback w) = disconnectedCallback w.
Proof.
  rewrite (PageFacts.disconnectedCallback_fields (disconnectedCallback w)).
  rewrite !PageFacts.disconnectedCallback_fields.
  cbn [listeners fresh fields animationFrame frames onResize onMouseMove
       onTouchMove].
  set (a := (Window, resize, onResize w)).
  set (b := (Window, mousemove, onMouseMove w)).
  set (c := (Element, touchmove, onTouchMove w)).
  f_equal.
  - set (X := remove listener_eq_dec c
                (remove listener_eq_dec b
                   (remove listener_eq_dec a (listeners w)))).
    assert (Na : ~ In a X).
    { intros H. apply in_remove in H. destruct H as [H _].
      apply in_remove in H. destruct H as [H _]. revert H. apply remove_In. }
    assert (Nb : ~ In b X).
    { intros H. apply in_remove in H. destruct H as [H _]. revert H.
      apply remove_In. }
    assert (Nc : ~ In c X) by apply remove_In.
    rewrite (notin_remove listener_eq_dec X a Na).
    rewrite (notin_remove listener_eq_dec X b Nb).
    apply notin_remove. exact Nc.
  - destruct (animationFrame w) as [h|]; [|reflexivity].
    destruct (h =? 0)%nat; [reflexivity|]. apply PageFacts.remove_twice.
Qed.

(** X11.  While the page is hidden a frame only reschedules.  On an element
    whose fields are set, whose [isVisible] is false and which has one frame
    pending, any number of frames leaves the fields (mouse, lines, paths,
    noise, [isVisible]) and the listeners as they were, and none throws; but
    every frame requests the next one and writes its handle to
    [animationFrame], so that afterwards one frame is pending, the one
    requested last. *)
Theorem hidden_frames_only_reschedule (w : Lifecycle.t) (st : AWaves.t)
    (handle : nat) (time : Q) (times : list Q) :
  fields w = Some st -> AWaves.isVisible st = false ->
  frames w = [handle] ->
  exists w',
    Lifecycle.run (map AnimationFrame (time :: times)) w = Ok w'
    /\ fields w' = Some st
    /\ listeners w' = listeners w
    /\ animationFrame w' = Some (fresh w + length times)%nat
    /\ frames w' = [(fresh w + length times)%nat]
    /\ fresh w' = S (fresh w + length times).
Proof.
  revert w handle time.
  induction times as [|time' times IH]; intros w handle time Ef V Er.
  - cbn [map run step]. rewrite Er.
    erewrite LifecycleFacts.tick_fields;
      [|exact Ef|apply RunFacts.tick_hidden; exact V].
    cbn [bind fields listeners animationFrame frames fresh onResize
         onMouseMove onTouchMove app length].
    eexists. split; [reflexivity|].
    cbn [fields listeners animationFrame frames fresh].
    rewrite Nat.add_0_r. repeat split.
  - change (map AnimationFrame (time :: time' :: times))
      with (AnimationFrame time :: map AnimationFrame (time' :: times)).
    cbn [run step]. rewrite Er.
    erewrite LifecycleFacts.tick_fields;
      [|exact Ef|apply RunFacts.tick_hidden; exact V].
    cbn [bind fields listeners animationFrame frames fresh onResize
         onMouseMove onTouchMove app].
    set (w1 := mk (Some st) (Some (fresh w)) (onResize w) (onMouseMove w)
                 (onTouchMove w) (listeners w) [fresh w] (S (fresh w))).
    destruct (IH w1 (fresh w) time' eq_refl V eq_refl)
      as (w' & R & F1 & F2 & F3 & F4 & F5).
    exists w'. split; [exact R|]. split; [exact F1|]. split; [exact F2|].
    cbn [fresh w1 length] in F3, F4, F5. cbn [length].
    rewrite F3, F4, F5.
    replace (S (fresh w) + length times)%nat
      with (fresh w + S (length times))%nat by lia.
    repeat split.
Qed.

(** X20.  Once disconnected the element is deaf to the window and to the
    frames: on a detached element the inputs other than a connection and a
    visibility change (animation frames, window resizes and mouse moves,
    touch moves, further disconnections) change neither the element nor the
    page, and none throws. *)
Theorem detached_element_ignores_inputs (w : Lifecycle.t)
    (inputs : list input) :
  detached w -> Forall quiet inputs -> Lifecycle.run inputs w = Ok w.
Proof.
  intros D Q. induction Q as [|i inputs Qi _ IH]; [reflexivity|].
  cbn [run]. rewrite PageFacts.step_detached by assumption. exact IH.
Qed.

(** X21.  The listener that stays behind still writes: a visibility change
    after the disconnection sets [isVisible] of the disconnected element,
    and changes no other field. *)
Theorem visibility_listener_outlives_element (w : Lifecycle.t) (r : Rect.t)
    (seed : Q) (evs : list AWaves.event) (hidden : bool) :
  detached w -> 0 <= seed -> seed < 1 -> RunSpec.good_rect r ->
  Forall RunSpec.good_event evs ->
  exists w' st,
    Lifecycle.run
      (Connect true r seed
       :: map input_of evs ++ [Disconnect; DocumentVisibilityChange hidden]) w
    = Ok w'
    /\ (st0 <- AWaves.connectedCallback r seed ;; AWaves.run evs st0) = Ok st
    /\ fields w' = Some (MoreSpec.with_visible st (negb hidden))
    /\ frames w' = [].
Proof.
  intros D H0 H1 Gr Ge.
  destruct (PageFacts.visit w r seed evs D H0 H1 Gr Ge)
    as (_ & w2 & st & k & _ & E & _ & R & D2 & Ef & El).
  assert (S : step (DocumentVisibilityChange hidden) w2
              = Ok (with_fields w2 (MoreSpec.with_visible st (negb hidden)))).
  { cbn [step]. rewrite Ef, El, LifecycleFacts.dispatch_app.
    destruct (LifecycleFacts.dispatch_docs_visibility (listeners w) hidden st
                (detached_docs w D)) as (v & Ev).
    rewrite Ev. reflexivity. }
  exists (with_fields w2 (MoreSpec.with_visible st (negb hidden))), st.
  split.
  { change (Connect true r seed
            :: map input_of evs ++ [Disconnect; DocumentVisibilityChange hidden])
      with ((Connect true r seed :: map input_of evs)
            ++ [Disconnect] ++ [DocumentVisibilityChange hidden]).
    rewrite app_assoc, PageFacts.run_page_app.
    change ((Connect true r seed :: map input_of evs) ++ [Disconnect])
      with (Connect true r seed :: map input_of evs ++ [Disconnect]).
    rewrite R. cbn [bind run]. rewrite S. reflexivity. }
  split; [exact E|]. split; [reflexivity|]. apply D2.
Qed.

(** X22.  Every visit leaves one listener behind: after the element was
    connected and disconnected [n] times, the page holds [n] listeners more
    than before, all of them visibilitychange listeners of the document, and
    no frame is pending. *)
Theorem reconnecting_accumulates_listeners (w : Lifecycle.t) (r : Rect.t)
    (seed : Q) (n : nat) :
  detached w -> 0 <= seed -> seed < 1 -> RunSpec.good_rect r ->
  exists w',
    Lifecycle.run (visits n r seed) w = Ok w'
    /\ length (listeners w') = (length (listeners w) + n)%nat
    /\ Forall doc_listener (listeners w')
    /\ frames w' = [].
Proof.
  intros D H0 H1 Gr.
  destruct (PageFacts.visits_detached r seed n w D H0 H1 Gr)
    as (w' & R & D' & Hlen).
  exists w'. split; [exact R|]. split; [exact Hlen|]. split; apply D'.
Qed.

(** X23.  Without a [.js-svg] child the element does nothing: as long as no
    connection finds the child, no input (connections, disconnections,
    frames, events of the window, the element and the document) sets a
    field, registers a listener or requests a frame. *)
Theorem element_without_svg_stays_inert (w : Lifecycle.t)
    (inputs : list input) :
  inert w -> Forall no_svg inputs -> Lifecycle.run inputs w = Ok w.
Proof.
  intros I N. induction N as [|i inputs Ni _ IH]; [reflexivity|].
  cbn [run]. rewrite PageFacts.step_inert by assumption. exact IH.
Qed.

End Page.

(** ** Samples for the element in the page *)

Lemma connected_element_follows_handlers_witness :
  let r := Rect.mk 0 0 300 200 in
  let evs := [AWaves.MouseMove 10 10 0; AWaves.Frame 16;
              AWaves.VisibilityChange true; AWaves.Frame 32;
              AWaves.Resize (Rect.mk 0 0 100 50)] in
  LifecycleSpec.detached Lifecycle.initial
  /\ 0 <= 1 # 2 /\ 1 # 2 < 1 /\ RunSpec.good_rect r
  /\ Forall RunSpec.good_event evs
  /\ exists w' st handle k,
       @Lifecycle.run coarse_math
         (Lifecycle.Connect true r (1 # 2) :: map LifecycleSpec.input_of evs)
         Lifecycle.initial = Ok w'
       /\ (st0 <- @AWaves.connectedCallback coarse_math r (1 # 2) ;;
           @AWaves.run coarse_math evs st0) = Ok st
       /\ Lifecycle.fields w' = Some st
       /\ Lifecycle.animationFrame w' = Some handle
       /\ Lifecycle.frames w' = [handle]
       /\ Lifecycle.listeners w'
          = Lifecycle.listeners Lifecycle.initial
            ++ LifecycleSpec.bound_listeners k.
Proof.
  intros r evs.
  assert (D : LifecycleSpec.detached Lifecycle.initial).
  { constructor; cbn; auto. }
  assert (G0 : 0 <= 1 # 2) by discriminate.
  assert (G1 : 1 # 2 < 1) by reflexivity.
  assert (Gr : RunSpec.good_rect r) by (split; discriminate).
  assert (Ge : Forall RunSpec.good_event evs).
  { repeat constructor; discriminate. }
  split; [exact D|]. split; [exact G0|]. split; [exact G1|].
  split; [exact Gr|]. split; [exact Ge|].
  exact (@connected_element_follows_handlers coarse_math Lifecycle.initial r
           (1 # 2) evs D G0 G1 Gr Ge).
Defined.

Lemma disconnect_leaves_visibility_listener_witness :
  let r := Rect.mk 0 0 300 200 in
  let evs := [AWaves.TouchMove [(1, 2)] 0; AWaves.Frame 16] in
  LifecycleSpec.detached Lifecycle.initial
  /\ 0 <= 1 # 2 /\ 1 # 2 < 1 /\ RunSpec.good_rect r
  /\ Forall RunSpec.good_event evs
  /\ exists w' k,
       @Lifecycle.run coarse_math
         (Lifecycle.Connect true r (1 # 2)
          :: map LifecycleSpec.input_of evs ++ [Lifecycle.Disconnect])
         Lifecycle.initial = Ok w'
       /\ Lifecycle.frames w' = []
       /\ Lifecycle.listeners w'
          = Lifecycle.listeners Lifecycle.initial
            ++ [(Lifecycle.Document, Lifecycle.visibilitychange,
                 Lifecycle.Arrow k)]
       /\ LifecycleSpec.detached w'.
Proof.
  intros r evs.
  assert (D : LifecycleSpec.detached Lifecycle.initial).
  { constructor; cbn; auto. }
  assert (G0 : 0 <= 1 # 2) by discriminate.
  assert (G1 : 1 # 2 < 1) by reflexivity.
  assert (Gr : RunSpec.good_rect r) by (split; discriminate).
  assert (Ge : Forall RunSpec.good_event evs).
  { repeat constructor; discriminate. }
  split; [exact D|]. split; [exact G0|]. split; [exact G1|].
  split; [exact Gr|]. split; [exact Ge|].
  exact (@disconnect_leaves_visibility_listener coarse_math Lifecycle.initial
           r (1 # 2) evs D G0 G1 Gr Ge).
Defined.

Lemma detached_element_ignores_inputs_witness :
  let w := Lifecycle.mk None (Some 5%nat) (Lifecycle.Bound Lifecycle.OnResize 1)
             (Lifecycle.Bound Lifecycle.OnMouseMove 2)
             (Lifecycle.Bound Lifecycle.OnTouchMove 3)
             [(Lifecycle.Document, Lifecycle.visibilitychange,
               Lifecycle.Arrow 4)] [] 6 in
  let inputs := [Lifecycle.AnimationFrame 16;
                 Lifecycle.WindowResize (Rect.mk 0 0 100 50);
                 Lifecycle.WindowMouseMove 1 2 0;
                 Lifecycle.ElementTouchMove [] 0;
                 Lifecycle.Disconnect] in
  LifecycleSpec.detached w /\ Forall LifecycleSpec.quiet inputs
  /\ @Lifecycle.run coarse_math inputs w = Ok w.
Proof.
  intros w inputs.
  assert (D : LifecycleSpec.detached w).
  { constructor; cbn.
    - reflexivity.
    - repeat constructor. exists 4%nat. reflexivity.
    - repeat constructor.
    - lia. }
  assert (Q : Forall LifecycleSpec.quiet inputs).
  { repeat constructor. }
  split; [exact D|]. split; [exact Q|].
  exact (@detached_element_ignores_inputs coarse_math w inputs D Q).
Defined.

Lemma visibility_listener_outlives_element_witness :
  let r := Rect.mk 0 0 300 200 in
  let evs := [AWaves.MouseMove 10 10 0; AWaves.Frame 16] in
  LifecycleSpec.detached Lifecycle.initial
  /\ 0 <= 1 # 2 /\ 1 # 2 < 1 /\ RunSpec.good_rect r
  /\ Forall RunSpec.good_event evs
  /\ exists w' st,
       @Lifecycle.run coarse_math
         (Lifecycle.Connect true r (1 # 2)
          :: map LifecycleSpec.input_of evs
             ++ [Lifecycle.Disconnect; Lifecycle.DocumentVisibilityChange true])
         Lifecycle.initial = Ok w'
       /\ (st0 <- @AWaves.connectedCallback coarse_math r (1 # 2) ;;
           @AWaves.run coarse_math evs st0) = Ok st
       /\ Lifecycle.fields w' = Some (MoreSpec.with_visible st (negb true))
       /\ Lifecycle.frames w' = [].
Proof.
  intros r evs.
  assert (D : LifecycleSpec.detached Lifecycle.initial).
  { constructor; cbn; auto. }
  assert (G0 : 0 <= 1 # 2) by discriminate.
  assert (G1 : 1 # 2 < 1) by reflexivity.
  assert (Gr : RunSpec.good_rect r) by (split; discriminate).
  assert (Ge : Forall RunSpec.good_event evs).
  { repeat constructor; discriminate. }
  split; [exact D|]. split; [exact G0|]. split; [exact G1|].
  split; [exact Gr|]. split; [exact Ge|].
  exact (@visibility_listener_outlives_element coarse_math Lifecycle.initial
           r (1 # 2) evs true D G0 G1 Gr Ge).
Defined.

Lemma reconnecting_accumulates_listeners_witness :
  let r := Rect.mk 0 0 300 200 in
  LifecycleSpec.detached Lifecycle.initial
  /\ 0 <= 1 # 2 /\ 1 # 2 < 1 /\ RunSpec.good_rect r
  /\ exists w',
       @Lifecycle.run coarse_math (LifecycleSpec.visits 3 r (1 # 2))
         Lifecycle.initial = Ok w'
       /\ length (Lifecycle.listeners w')
          = (length (Lifecycle.listeners Lifecycle.initial) + 3)%nat
       /\ Forall LifecycleSpec.doc_listener (Lifecycle.listeners w')
       /\ Lifecycle.frames w' = [].
Proof.
  intros r.
  assert (D : LifecycleSpec.detached Lifecycle.initial).
  { constructor; cbn; auto. }
  assert (G0 : 0 <= 1 # 2) by discriminate.
  assert (G1 : 1 # 2 < 1) by reflexivity.
  assert (Gr : RunSpec.good_rect r) by (split; discriminate).
  split; [exact D|]. split; [exact G0|]. split; [exact G1|].
  split; [exact Gr|].
  exact (@reconnecting_accumulates_listeners coarse_math Lifecycle.initial r
           (1 # 2) 3 D G0 G1 Gr).
Defined.

Lemma element_without_svg_stays_inert_witness :
  let inputs := [Lifecycle.Connect false (Rect.mk 0 0 300 200) (1 # 2);
                 Lifecycle.AnimationFrame 16;
                 Lifecycle.WindowResize (Rect.mk 0 0 100 50);
                 Lifecycle.DocumentVisibilityChange true;
                 Lifecycle.Disconnect] in
  LifecycleSpec.inert Lifecycle.initial /\ Forall LifecycleSpec.no_svg inputs
  /\ @Lifecycle.run coarse_math inputs Lifecycle.initial = Ok Lifecycle.initial.
Proof.
  intros inputs.
  assert (I : LifecycleSpec.inert Lifecycle.initial).
  { constructor; reflexivity. }
  assert (N : Forall LifecycleSpec.no_svg inputs).
  { repeat constructor. }
  split; [exact I|]. split; [exact N|].
  exact (@element_without_svg_stays_inert coarse_math Lifecycle.initial inputs
           I N).
Defined.

Lemma hidden_frames_only_reschedule_witness :
  let st := MoreSpec.with_visible (blank (Rect.mk 0 0 300 200)) false in
  let w := Lifecycle.mk (Some st) (Some 5%nat)
             (Lifecycle.Bound Lifecycle.OnResize 1)
             (Lifecycle.Bound Lifecycle.OnMouseMove 2)
             (Lifecycle.Bound Lifecycle.OnTouchMove 3)
             (LifecycleSpec.bound_listeners 1) [5%nat] 6 in
  Lifecycle.fields w = Some st /\ AWaves.isVisible st = false
  /\ Lifecycle.frames w = [5%nat]
  /\ exists w',
       @Lifecycle.run coarse_math
         (map Lifecycle.AnimationFrame [16; 32; 48]) w = Ok w'
       /\ Lifecycle.fields w' = Some st
       /\ Lifecycle.listeners w' = Lifecycle.listeners w
       /\ Lifecycle.animationFrame w'
          = Some (Lifecycle.fresh w + length [32; 48])%nat
       /\ Lifecycle.frames w' = [(Lifecycle.fresh w + length [32; 48])%nat]
       /\ Lifecycle.fresh w' = S (Lifecycle.fresh w + length [32; 48]).
Proof.
  intros st w.
  assert (Ef : Lifecycle.fields w = Some st) by reflexivity.
  assert (V : AWaves.isVisible st = false) by reflexivity.
  assert (Er : Lifecycle.frames w = [5%nat]) by reflexivity.
  split; [exact Ef|]. split; [exact V|]. split; [exact Er|].
  exact (@hidden_frames_only_reschedule coarse_math w st 5 16 [32; 48]
           Ef V Er).
Defined.
